(** * Mini-shogi (5x5): rules engine and alpha-beta search

    A shallow embedding of [src/main.go] and the properties its
    specification states about it.

    Conventions of the embedding.
    - Go's [int] is modelled by [Z]; the target is a 64-bit platform, so
      the arithmetic that accumulates unbounded input ([Evaluate], the
      depth counter) is wrapped by [wrap64].
    - An index expression that is out of range makes the Go runtime panic;
      every function that indexes the grid therefore lives in the error
      monad [result], and [Fail IndexOutOfRange] is the panic.
    - [range] over a Go map visits the keys in an order the language leaves
      unspecified and that changes from one loop to the next; the order is
      an explicit argument ([picks], an [Oracle] for a whole search).
    - Recursion of the search is on an explicit [fuel]; [Fail OutOfFuel]
      says that the fuel did not suffice. *)

From stdpp Require Import base option list sets gmap strings.
From Stdlib Require Import ZArith Lia Ascii.

Open Scope Z_scope.

(** ** Data model *)

(** [PieceType]: the [iota] enumeration of the source. *)
Inductive PieceType : Set :=
  | Empty | King | Gold | Silver | Bishop | Rook | Pawn
  | PromotedSilver | PromotedBishop | PromotedRook | PromotedPawn.

(** [Player]; the source calls the first constant [None], which is the
    name of the empty option here, hence [PNone]. *)
Inductive Player : Set := PNone | First | Second.

(** [Piece]; the field [Type] of the source is [Type_]. *)
Record Piece : Set := mkPiece { Type_ : PieceType; Owner : Player }.

(** A Go array of five elements, [[5]A]: a value, copied on assignment. *)
Record arr5 (A : Type) : Type := Arr5 { e0 : A; e1 : A; e2 : A; e3 : A; e4 : A }.
Arguments Arr5 {A} _ _ _ _ _.
Arguments e0 {A} _.
Arguments e1 {A} _.
Arguments e2 {A} _.
Arguments e3 {A} _.
Arguments e4 {A} _.

Definition Grid : Type := arr5 (arr5 Piece).

Record Board : Type := mkBoard {
  Cells : Grid;
  FirstHand : list PieceType;
  SecondHand : list PieceType;
  CurrentTurn : Player
}.

Record Move : Set := mkMove {
  FromRow : Z; FromCol : Z;
  ToRow : Z; ToCol : Z;
  IsDrop : bool;
  DropPiece : PieceType;
  Promote : bool
}.

Global Instance PieceType_eq_dec : EqDecision PieceType.
Proof. solve_decision. Defined.

Global Instance Player_eq_dec : EqDecision Player.
Proof. solve_decision. Defined.

Global Instance Piece_eq_dec : EqDecision Piece.
Proof. solve_decision. Defined.

Global Instance Move_eq_dec : EqDecision Move.
Proof. solve_decision. Defined.

(** The numeric value of each constant, as [iota] assigns it. *)
Definition PieceType_code (k : PieceType) : nat :=
  match k with
  | Empty => 0 | King => 1 | Gold => 2 | Silver => 3 | Bishop => 4 | Rook => 5
  | Pawn => 6 | PromotedSilver => 7 | PromotedBishop => 8 | PromotedRook => 9
  | PromotedPawn => 10
  end%nat.

Definition PieceType_of_code (n : nat) : PieceType :=
  match n with
  | 1 => King | 2 => Gold | 3 => Silver | 4 => Bishop | 5 => Rook
  | 6 => Pawn | 7 => PromotedSilver | 8 => PromotedBishop | 9 => PromotedRook
  | 10 => PromotedPawn | _ => Empty
  end%nat.

Global Program Instance PieceType_countable : Countable PieceType :=
  inj_countable' PieceType_code PieceType_of_code _.
Next Obligation. by intros []. Qed.

(** ** The error monad *)

Inductive fault : Set := IndexOutOfRange | NilDereference | OutOfFuel.

Inductive result (A : Type) : Type :=
  | Ret (a : A)
  | Fail (f : fault).
Arguments Ret {A} _.
Arguments Fail {A} _.

Definition bind {A B : Type} (m : result A) (k : A → result B) : result B :=
  match m with
  | Ret a => k a
  | Fail f => Fail f
  end.

Notation "x <- m ;; k" := (bind m (λ x, k))
  (at level 100, m at next level, right associativity, only parsing).

(** What a loop body asks for: the next iteration or [break]. *)
Inductive ctl (S : Type) : Type :=
  | Next (s : S)
  | Break (s : S).
Arguments Next {S} _.
Arguments Break {S} _.

(** [for _, x := range xs { body }] with the loop-carried variables [s];
    the body may [break]. *)
Fixpoint forRange {A S : Type} (xs : list A) (s : S)
    (body : S → A → result (ctl S)) : result S :=
  match xs with
  | [] => Ret s
  | x :: xs' =>
      bind (body s x) (λ r,
        match r with
        | Next s' => forRange xs' s' body
        | Break s' => Ret s'
        end)
  end.

(** The same loop when the body has no [break]. *)
Fixpoint forEach {A S : Type} (xs : list A) (s : S)
    (body : S → A → result S) : result S :=
  match xs with
  | [] => Ret s
  | x :: xs' => bind (body s x) (λ s', forEach xs' s' body)
  end.

(** The values of [r] in [for r := 0; r < 5; r++]. *)
Definition idx5 : list Z := [0; 1; 2; 3; 4].

(** [int] arithmetic wraps around at 64 bits. *)
Definition wrap64 (z : Z) : Z := (z + 2 ^ 63) `mod` 2 ^ 64 - 2 ^ 63.

(** ** Arrays and the grid *)

(** [a[i]]: panics unless [0 <= i < 5]. *)
Definition get5 {A : Type} (a : arr5 A) (i : Z) : result A :=
  if i =? 0 then Ret (e0 a)
  else if i =? 1 then Ret (e1 a)
  else if i =? 2 then Ret (e2 a)
  else if i =? 3 then Ret (e3 a)
  else if i =? 4 then Ret (e4 a)
  else Fail IndexOutOfRange.

(** [a[i] = x]. *)
Definition set5 {A : Type} (a : arr5 A) (i : Z) (x : A) : result (arr5 A) :=
  if i =? 0 then Ret (Arr5 x (e1 a) (e2 a) (e3 a) (e4 a))
  else if i =? 1 then Ret (Arr5 (e0 a) x (e2 a) (e3 a) (e4 a))
  else if i =? 2 then Ret (Arr5 (e0 a) (e1 a) x (e3 a) (e4 a))
  else if i =? 3 then Ret (Arr5 (e0 a) (e1 a) (e2 a) x (e4 a))
  else if i =? 4 then Ret (Arr5 (e0 a) (e1 a) (e2 a) (e3 a) x)
  else Fail IndexOutOfRange.

(** [g[r][c]]. *)
Definition getCell (g : Grid) (r c : Z) : result Piece :=
  row <- get5 g r ;; get5 row c.

(** [g[r][c] = p]. *)
Definition setCell (g : Grid) (r c : Z) (p : Piece) : result Grid :=
  row <- get5 g r ;;
  row' <- set5 row c p ;;
  set5 g r row'.

(** [b.Cells[r][c]]. *)
Definition cellAt (b : Board) (r c : Z) : result Piece := getCell (Cells b) r c.

(** The zero value of [Piece]: [Piece{Empty, None}]. *)
Definition noPiece : Piece := mkPiece Empty PNone.

Definition emptyRow : arr5 Piece := Arr5 noPiece noPiece noPiece noPiece noPiece.

(** [NewBoard]: the initial position. *)
Definition NewBoard : Board :=
  mkBoard
    (Arr5
       (Arr5 (mkPiece Rook Second) (mkPiece Bishop Second) (mkPiece Silver Second)
             (mkPiece Gold Second) (mkPiece King Second))
       (Arr5 noPiece noPiece noPiece noPiece (mkPiece Pawn Second))
       emptyRow
       (Arr5 (mkPiece Pawn First) noPiece noPiece noPiece noPiece)
       (Arr5 (mkPiece King First) (mkPiece Gold First) (mkPiece Silver First)
             (mkPiece Bishop First) (mkPiece Rook First)))
    [] [] First.

(** ** Helper functions of the source *)

Definition isInBoard (row col : Z) : bool :=
  (0 <=? row) && (row <? 5) && (0 <=? col) && (col <? 5).

Definition isValidMove (b : Board) (fromRow fromCol toRow toCol : Z) : result bool :=
  if negb (isInBoard toRow toCol) then Ret false
  else
    target <- cellAt b toRow toCol ;;
    piece <- cellAt b fromRow fromCol ;;
    Ret (bool_decide (Owner target ≠ Owner piece)).

Definition canPromote (player : Player) (row : Z) : bool :=
  if bool_decide (player = First) then row <=? 0 else 4 <=? row.

Definition getGoldMoves (player : Player) : list (Z * Z) :=
  if bool_decide (player = First)
  then [(-1, -1); (-1, 0); (-1, 1); (0, -1); (0, 1); (1, 0)]
  else [(1, -1); (1, 0); (1, 1); (0, -1); (0, 1); (-1, 0)].

Definition getSilverMoves (player : Player) : list (Z * Z) :=
  if bool_decide (player = First)
  then [(-1, -1); (-1, 0); (-1, 1); (1, -1); (1, 1)]
  else [(1, -1); (1, 0); (1, 1); (-1, -1); (-1, 1)].

Definition hasPawnInColumn (b : Board) (col : Z) (player : Player) : result bool :=
  forRange idx5 false (λ _ r,
    p <- cellAt b r col ;;
    if bool_decide (Owner p = player) && bool_decide (Type_ p = Pawn)
    then Ret (Break true)   (* return true *)
    else Ret (Next false)).

(** ** Move generation *)

Definition kingDirs : list (Z * Z) :=
  [(-1, -1); (-1, 0); (-1, 1); (0, -1); (0, 1); (1, -1); (1, 0); (1, 1)].
Definition diagDirs : list (Z * Z) := [(-1, -1); (-1, 1); (1, -1); (1, 1)].
Definition horseDirs : list (Z * Z) := [(-1, 0); (0, -1); (0, 1); (1, 0)].
Definition orthDirs : list (Z * Z) := [(-1, 0); (1, 0); (0, -1); (0, 1)].

(** The loop over [dirs] of the King, Gold, horse and dragon cases: one
    step, never a promotion. *)
Definition stepLoop (b : Board) (row col : Z) (dirs : list (Z * Z))
    (moves : list Move) : result (list Move) :=
  forEach dirs moves (λ moves d,
    let nr := row + d.1 in
    let nc := col + d.2 in
    ok <- isValidMove b row col nr nc ;;
    if ok then Ret (moves ++ [mkMove row col nr nc false Empty false])
    else Ret moves).

(** The loop of the Silver case. *)
Definition silverLoop (b : Board) (piece : Piece) (row col : Z)
    (dirs : list (Z * Z)) (moves : list Move) : result (list Move) :=
  forEach dirs moves (λ moves d,
    let nr := row + d.1 in
    let nc := col + d.2 in
    ok <- isValidMove b row col nr nc ;;
    if ok then
      let move := mkMove row col nr nc false Empty false in
      let moves :=
        if canPromote (Owner piece) nr
        then moves ++ [mkMove row col nr nc false Empty true]
        else moves in
      Ret (moves ++ [move])
    else Ret moves).

(** The sliding loops of the Bishop and Rook cases; they differ in the
    directions and in the kind, [base], that may still promote. *)
Definition slideLoop (b : Board) (piece : Piece) (base : PieceType) (row col : Z)
    (dirs : list (Z * Z)) (moves : list Move) : result (list Move) :=
  forEach dirs moves (λ moves d,
    forRange [1; 2; 3; 4] moves (λ moves i,
      let nr := row + d.1 * i in
      let nc := col + d.2 * i in
      if negb (isInBoard nr nc) then Ret (Break moves)
      else
        t <- cellAt b nr nc ;;
        if bool_decide (Owner t = Owner piece) then Ret (Break moves)
        else
          let move := mkMove row col nr nc false Empty false in
          let moves :=
            if bool_decide (Type_ piece = base) && canPromote (Owner piece) nr
            then moves ++ [mkMove row col nr nc false Empty true]
            else moves in
          let moves := moves ++ [move] in
          t' <- cellAt b nr nc ;;
          if bool_decide (Owner t' ≠ PNone) then Ret (Break moves)
          else Ret (Next moves))).

Definition GetPossibleMoves (b : Board) (row col : Z) : result (list Move) :=
  piece <- cellAt b row col ;;
  if bool_decide (Owner piece = PNone) || bool_decide (Owner piece ≠ CurrentTurn b)
  then Ret []
  else
    let moves := [] in
    match Type_ piece with
    | King => stepLoop b row col kingDirs moves
    | Gold | PromotedSilver | PromotedPawn =>
        stepLoop b row col (getGoldMoves (Owner piece)) moves
    | Silver => silverLoop b piece row col (getSilverMoves (Owner piece)) moves
    | Bishop | PromotedBishop =>
        moves <- slideLoop b piece Bishop row col diagDirs moves ;;
        if bool_decide (Type_ piece = PromotedBishop)
        then stepLoop b row col horseDirs moves
        else Ret moves
    | Rook | PromotedRook =>
        moves <- slideLoop b piece Rook row col orthDirs moves ;;
        if bool_decide (Type_ piece = PromotedRook)
        then stepLoop b row col diagDirs moves
        else Ret moves
    | Pawn =>
        let dir := if bool_decide (Owner piece = Second) then 1 else -1 in
        let nr := row + dir in
        ok <- isValidMove b row col nr col ;;
        if ok then
          let move := mkMove row col nr col false Empty false in
          let moves :=
            if canPromote (Owner piece) nr
            then moves ++ [mkMove row col nr col false Empty true]
            else moves in
          Ret (moves ++ [move])
        else Ret moves
    | Empty => Ret moves
    end.

(** The order in which one [range] over a map yields the keys. The keys
    are [xs]; [picks] decides the order: the k-th key goes to position
    [pick mod (number of keys already placed + 1)]. Every list of picks
    gives a permutation, and every permutation has its picks. *)
Fixpoint shuffle {A : Type} (picks : list nat) (xs : list A) : list A :=
  match xs with
  | [] => []
  | x :: xs' =>
      let r := shuffle (tail picks) xs' in
      let i := (hd 0%nat picks `mod` S (length r))%nat in
      take i r ++ x :: drop i r
  end.

(** [for k := range m]: the keys of the set [m] in the order of [picks]. *)
Definition rangeMap (picks : list nat) (m : gset PieceType) : list PieceType :=
  shuffle picks (elements m).

(** [b.FirstHand], or [b.SecondHand] when it is Second's turn. *)
Definition moverHand (b : Board) : list PieceType :=
  if bool_decide (CurrentTurn b = Second) then SecondHand b else FirstHand b.

Definition GetDropMoves (picks : list nat) (b : Board) : result (list Move) :=
  let moves := [] in
  let hand := moverHand b in
  let uniquePieces : gset PieceType := foldl (λ m p, {[p]} ∪ m) ∅ hand in
  forEach (rangeMap picks uniquePieces) moves (λ moves pType,
    forEach idx5 moves (λ moves r,
      forEach idx5 moves (λ moves c,
        t <- cellAt b r c ;;
        if bool_decide (Owner t = PNone) then
          twoPawns <- (if bool_decide (pType = Pawn)
                       then hasPawnInColumn b c (CurrentTurn b)
                       else Ret false) ;;
          if twoPawns then Ret moves   (* continue *)
          else if bool_decide (pType = Pawn)
                  && (bool_decide (CurrentTurn b = First) && (r =? 0)
                      || bool_decide (CurrentTurn b = Second) && (r =? 4))
          then Ret moves               (* continue *)
          else Ret (moves ++ [mkMove (-1) (-1) r c true pType false])
        else Ret moves))).

Definition GetAllLegalMoves (picks : list nat) (b : Board) : result (list Move) :=
  let moves := [] in
  moves <- forEach idx5 moves (λ moves r,
    forEach idx5 moves (λ moves c,
      t <- cellAt b r c ;;
      if bool_decide (Owner t = CurrentTurn b) then
        ms <- GetPossibleMoves b r c ;;
        Ret (moves ++ ms)
      else Ret moves)) ;;
  drops <- GetDropMoves picks b ;;
  Ret (moves ++ drops).

(** ** Move execution *)

(** The removal loop of [MakeMove]: the first element equal to [k] is cut
    out of the hand; a hand without [k] stays as it is. *)
Fixpoint removeFirst (k : PieceType) (hand : list PieceType) : list PieceType :=
  match hand with
  | [] => []
  | p :: rest => if bool_decide (p = k) then rest else p :: removeFirst k rest
  end.

(** The [switch capturedType] of [MakeMove]: a promoted kind goes back to
    its base kind. *)
Definition demote (k : PieceType) : PieceType :=
  match k with
  | PromotedSilver => Silver
  | PromotedBishop => Bishop
  | PromotedRook => Rook
  | PromotedPawn => Pawn
  | _ => k
  end.

(** The [switch piece.Type] under [if move.Promote]. *)
Definition promoteType (k : PieceType) : PieceType :=
  match k with
  | Silver => PromotedSilver
  | Bishop => PromotedBishop
  | Rook => PromotedRook
  | Pawn => PromotedPawn
  | _ => k
  end.

(** The turn change that ends [MakeMove]. *)
Definition flipTurn (p : Player) : Player :=
  if bool_decide (p = First) then Second else First.

(** [MakeMove] on a board whose hands are not shared with another board
    (the search calls it on a fresh copy); hands are values here. The
    returned boolean of the source is always [true] and is left out. *)
Definition MakeMove (b : Board) (move : Move) : result Board :=
  b' <- (if IsDrop move then
           cells <- setCell (Cells b) (ToRow move) (ToCol move)
                      (mkPiece (DropPiece move) (CurrentTurn b)) ;;
           if bool_decide (CurrentTurn b = Second)
           then Ret (mkBoard cells (FirstHand b)
                       (removeFirst (DropPiece move) (SecondHand b)) (CurrentTurn b))
           else Ret (mkBoard cells (removeFirst (DropPiece move) (FirstHand b))
                       (SecondHand b) (CurrentTurn b))
         else
           piece <- cellAt b (FromRow move) (FromCol move) ;;
           captured <- cellAt b (ToRow move) (ToCol move) ;;
           let '(firstHand, secondHand) :=
             if bool_decide (Owner captured ≠ PNone) then
               let capturedType := demote (Type_ captured) in
               if bool_decide (CurrentTurn b = First)
               then (FirstHand b ++ [capturedType], SecondHand b)
               else (FirstHand b, SecondHand b ++ [capturedType])
             else (FirstHand b, SecondHand b) in
           let piece :=
             if Promote move then mkPiece (promoteType (Type_ piece)) (Owner piece)
             else piece in
           cells <- setCell (Cells b) (ToRow move) (ToCol move) piece ;;
           cells <- setCell cells (FromRow move) (FromCol move) (mkPiece Empty PNone) ;;
           Ret (mkBoard cells firstHand secondHand (CurrentTurn b))) ;;
  Ret (mkBoard (Cells b') (FirstHand b') (SecondHand b') (flipTurn (CurrentTurn b'))).

(** ** Outcome and evaluation *)

Definition IsGameOver (b : Board) : result (bool * Player) :=
  kings <- forEach idx5 (false, false) (λ kings r,
    forEach idx5 kings (λ kings c,
      p <- cellAt b r c ;;
      let '(firstKing, secondKing) := kings in
      if bool_decide (Type_ p = King) then
        if bool_decide (Owner p = First) then Ret (true, secondKing)
        else if bool_decide (Owner p = Second) then Ret (firstKing, true)
        else Ret (firstKing, secondKing)
      else Ret (firstKing, secondKing))) ;;
  let '(firstKing, secondKing) := kings in
  if negb firstKing then Ret (true, Second)
  else if negb secondKing then Ret (true, First)
  else Ret (false, PNone).

(** [pieceValues[k]]; a key that the map literal does not hold ([Empty])
    reads as the zero value. *)
Definition pieceValues (k : PieceType) : Z :=
  match k with
  | King => 10000
  | Gold => 600
  | Silver => 500
  | Bishop => 800
  | Rook => 900
  | Pawn => 100
  | PromotedSilver => 600
  | PromotedBishop => 1000
  | PromotedRook => 1100
  | PromotedPawn => 600
  | Empty => 0
  end.

(** [pieceValues[p] * 8 / 10]; Go's [/] truncates. *)
Definition handValue (p : PieceType) : Z := wrap64 (pieceValues p * 8) ÷ 10.

Definition Evaluate (b : Board) : result Z :=
  let score := 0 in
  score <- forEach idx5 score (λ score r,
    forEach idx5 score (λ score c,
      piece <- cellAt b r c ;;
      if bool_decide (Owner piece = First)
      then Ret (wrap64 (score + pieceValues (Type_ piece)))
      else if bool_decide (Owner piece = Second)
      then Ret (wrap64 (score - pieceValues (Type_ piece)))
      else Ret score)) ;;
  score <- forEach (FirstHand b) score (λ score p, Ret (wrap64 (score + handValue p))) ;;
  forEach (SecondHand b) score (λ score p, Ret (wrap64 (score - handValue p))).

(** ** Search *)

(** One choice of map order for every node of a search tree: the node
    reached from the root through the children numbered [path] (outermost
    first) iterates its map in the order [o path]. *)
Definition Oracle : Type := list nat → list nat.

Definition child (o : Oracle) (i : nat) : Oracle := λ path, o (i :: path).

(** The candidates with their position in the list. *)
Definition indexed {A : Type} (xs : list A) : list (nat * A) :=
  zip (seq 0 (length xs)) xs.

(** The loop-carried variables of a candidate loop:
    [(maxEval or minEval, bestMove, alpha or beta)]. *)
Definition loopState : Type := Z * option Move * Z.

(** One iteration of the candidate loop of the maximizing branch;
    [ev i move alpha beta] is the score of the recursive call on the copy
    with [move] applied. *)
Definition maxStep (ev : nat → Move → Z → Z → result Z) (beta : Z)
    (st : loopState) (im : nat * Move) : result (ctl loopState) :=
  let '(maxEval, bestMove, alpha) := st in
  let '(i, move) := im in
  eval <- ev i move alpha beta ;;
  let '(maxEval, bestMove) :=
    if eval >? maxEval then (eval, Some move) else (maxEval, bestMove) in
  let alpha := Z.max alpha eval in
  if beta <=? alpha then Ret (Break (maxEval, bestMove, alpha))
  else Ret (Next (maxEval, bestMove, alpha)).

(** The candidate loop of the maximizing branch, from
    [maxEval := -999999] and [bestMove] nil to [return maxEval, bestMove]. *)
Definition maxLoop (ev : nat → Move → Z → Z → result Z) (moves : list Move)
    (alpha beta : Z) : result (Z * option Move) :=
  st <- forRange (indexed moves) ((-999999, None, alpha) : loopState) (maxStep ev beta) ;;
  Ret (st.1.1, st.1.2).

(** One iteration of the candidate loop of the minimizing branch. *)
Definition minStep (ev : nat → Move → Z → Z → result Z) (alpha : Z)
    (st : loopState) (im : nat * Move) : result (ctl loopState) :=
  let '(minEval, bestMove, beta) := st in
  let '(i, move) := im in
  eval <- ev i move alpha beta ;;
  let '(minEval, bestMove) :=
    if eval <? minEval then (eval, Some move) else (minEval, bestMove) in
  let beta := Z.min beta eval in
  if beta <=? alpha then Ret (Break (minEval, bestMove, beta))
  else Ret (Next (minEval, bestMove, beta)).

(** The candidate loop of the minimizing branch. *)
Definition minLoop (ev : nat → Move → Z → Z → result Z) (moves : list Move)
    (alpha beta : Z) : result (Z * option Move) :=
  st <- forRange (indexed moves) ((999999, None, beta) : loopState) (minStep ev alpha) ;;
  Ret (st.1.1, st.1.2).

(** [Minimax]. The copy [newBoard] of the source has the grid by value and
    fresh hand slices, so [MakeMove] on it is [MakeMove] on the value [b]
    (module [Heap] below has the slices and proves this). *)
Fixpoint Minimax (fuel : nat) (o : Oracle) (b : Board) (depth alpha beta : Z)
    (maximizing : bool) {struct fuel} : result (Z * option Move) :=
  match fuel with
  | O => Fail OutOfFuel
  | S fuel' =>
      if depth =? 0 then (v <- Evaluate b ;; Ret (v, None))
      else
        over <- IsGameOver b ;;
        if over.1 then (v <- Evaluate b ;; Ret (v, None))
        else
          moves <- GetAllLegalMoves (o []) b ;;
          if (length moves =? 0)%nat then (v <- Evaluate b ;; Ret (v, None))
          else
            let ev (next : bool) := λ (i : nat) (move : Move) (alpha beta : Z),
              newBoard <- MakeMove b move ;;
              r <- Minimax fuel' (child o i) newBoard (wrap64 (depth - 1))
                     alpha beta next ;;
              Ret r.1 in
            if maximizing then maxLoop (ev false) moves alpha beta
            else minLoop (ev true) moves alpha beta
  end.

(** [GetAIMove]: three plies, the full window, maximizing for First. *)
Definition GetAIMove (fuel : nat) (o : Oracle) (b : Board) : result (option Move) :=
  let depth := 3 in
  r <- Minimax fuel o b depth (-999999) 999999 (bool_decide (CurrentTurn b = First)) ;;
  Ret r.2.

(** ** The hands as Go slices

    A hand is a slice: a window [(ptr, off, len, cap)] on a backing array
    that other slices may share. [append] writes into the backing array
    when the capacity suffices and moves to a new array otherwise, and the
    removal of a dropped piece shifts the tail of the array in place. A
    board is a struct behind a pointer. *)
Module Heap.

Local Open Scope nat_scope.

Definition loc : Set := nat.

Record slice : Set := mkSlice { ptr : loc; off : nat; len : nat; cap : nat }.

(** The [Board] struct as it lies in memory: the grid by value, the hands
    as slice headers. *)
Record BoardStruct : Type := mkBoardStruct {
  sCells : Grid;
  sFirstHand : slice;
  sSecondHand : slice;
  sCurrentTurn : Player
}.

Record heap : Type := mkHeap {
  arrays : gmap loc (list PieceType);
  boards : gmap loc BoardStruct
}.

(** The elements [s[0], ..., s[len-1]]. *)
Definition readSlice (h : heap) (s : slice) : list PieceType :=
  take (len s) (drop (off s) (default [] (arrays h !! ptr s))).

(** [[]PieceType{}]: no element, no capacity; nothing is ever read or
    written through it. *)
Definition emptySlice : slice := mkSlice 0 0 0 0.

(** [s[i:j]]. *)
Definition subSlice (s : slice) (i j : nat) : slice :=
  mkSlice (ptr s) (off s + i) (j - i) (cap s - i).

(** [append(s, xs...)]. With room in the backing array the elements are
    written behind [s]; otherwise the runtime allocates an array for the
    old and the new elements, with [slack] spare places (how many is the
    runtime's choice), and the result points there. *)
Definition append (slack : nat → nat → nat) (h : heap) (s : slice)
    (xs : list PieceType) : heap * slice :=
  let n := (len s + length xs)%nat in
  if decide (n ≤ cap s)%nat then
    match arrays h !! ptr s with
    | Some arr =>
        (mkHeap (<[ptr s := list_inserts (off s + len s) xs arr]> (arrays h)) (boards h),
         mkSlice (ptr s) (off s) n (cap s))
    | None => (h, mkSlice (ptr s) (off s) n (cap s))
    end
  else
    let l := fresh (dom (arrays h)) in
    let spare := slack (cap s) n in
    (mkHeap (<[l := readSlice h s ++ xs ++ replicate spare Empty]> (arrays h)) (boards h),
     mkSlice l 0 n (n + spare)).

(** The index of the first element equal to [k]. *)
Fixpoint indexOf (k : PieceType) (xs : list PieceType) : option nat :=
  match xs with
  | [] => None
  | p :: rest => if bool_decide (p = k) then Some 0%nat else S <$> indexOf k rest
  end.

(** The removal loop of [MakeMove] on the slice [s]:
    [append(s[:i], s[i+1:]...)] at the first [i] with [s[i] == k]. *)
Definition removeAt (slack : nat → nat → nat) (h : heap) (s : slice)
    (k : PieceType) : heap * slice :=
  match indexOf k (readSlice h s) with
  | Some i =>
      append slack h (subSlice s 0 i) (readSlice h (subSlice s (i + 1) (len s)))
  | None => (h, s)
  end.

Definition setBoard (h : heap) (bp : loc) (s : BoardStruct) : heap :=
  mkHeap (arrays h) (<[bp := s]> (boards h)).

(** [b.MakeMove(move)] for the pointer [bp]: the heap afterwards, and
    whether the call returned or panicked. *)
Definition MakeMove (slack : nat → nat → nat) (h : heap) (bp : loc) (move : Move)
    : heap * result unit :=
  match boards h !! bp with
  | None => (h, Fail NilDereference)
  | Some s =>
      let turn := sCurrentTurn s in
      if IsDrop move then
        match setCell (sCells s) (ToRow move) (ToCol move)
                (mkPiece (DropPiece move) turn) with
        | Fail f => (h, Fail f)
        | Ret cells =>
            if bool_decide (turn = Second) then
              let '(h1, hand) := removeAt slack h (sSecondHand s) (DropPiece move) in
              (setBoard h1 bp (mkBoardStruct cells (sFirstHand s) hand (flipTurn turn)),
               Ret ())
            else
              let '(h1, hand) := removeAt slack h (sFirstHand s) (DropPiece move) in
              (setBoard h1 bp (mkBoardStruct cells hand (sSecondHand s) (flipTurn turn)),
               Ret ())
        end
      else
        match getCell (sCells s) (FromRow move) (FromCol move),
              getCell (sCells s) (ToRow move) (ToCol move) with
        | Ret piece, Ret captured =>
            let '(h1, firstHand, secondHand) :=
              if bool_decide (Owner captured ≠ PNone) then
                let capturedType := demote (Type_ captured) in
                if bool_decide (turn = First) then
                  let '(h1, hand) := append slack h (sFirstHand s) [capturedType] in
                  (h1, hand, sSecondHand s)
                else
                  let '(h1, hand) := append slack h (sSecondHand s) [capturedType] in
                  (h1, sFirstHand s, hand)
              else (h, sFirstHand s, sSecondHand s) in
            let piece :=
              if Promote move then mkPiece (promoteType (Type_ piece)) (Owner piece)
              else piece in
            match
              (cells <- setCell (sCells s) (ToRow move) (ToCol move) piece ;;
               setCell cells (FromRow move) (FromCol move) (mkPiece Empty PNone))
            with
            | Ret cells =>
                (setBoard h1 bp (mkBoardStruct cells firstHand secondHand (flipTurn turn)),
                 Ret ())
            | Fail f => (h1, Fail f)
            end
        | Fail f, _ => (h, Fail f)
        | _, Fail f => (h, Fail f)
        end
  end.

(** The copy that [Minimax] makes before it applies a move:
    [newBoard := *b], then both hands replaced by
    [append([]PieceType{}, hand...)]. The result is the heap and the
    address of [newBoard]. *)
Definition clone (slack : nat → nat → nat) (h : heap) (bp : loc)
    : heap * result loc :=
  match boards h !! bp with
  | None => (h, Fail NilDereference)
  | Some s =>
      let '(h1, firstHand) := append slack h emptySlice (readSlice h (sFirstHand s)) in
      let '(h2, secondHand) := append slack h1 emptySlice (readSlice h1 (sSecondHand s)) in
      let nb := fresh (dom (boards h2)) in
      (setBoard h2 nb (mkBoardStruct (sCells s) firstHand secondHand (sCurrentTurn s)),
       Ret nb)
  end.

(** The two steps of one iteration of the candidate loop. *)
Definition cloneAndMove (slack : nat → nat → nat) (h : heap) (bp : loc) (move : Move)
    : heap * result loc :=
  match clone slack h bp with
  | (h1, Ret nb) =>
      match MakeMove slack h1 nb move with
      | (h2, Ret _) => (h2, Ret nb)
      | (h2, Fail f) => (h2, Fail f)
      end
  | (h1, Fail f) => (h1, Fail f)
  end.

(** What the program can observe of the board behind [bp]: the grid, the
    elements of both hands, the side to move. *)
Definition view (h : heap) (bp : loc) : option Board :=
  s ← boards h !! bp;
  Some (mkBoard (sCells s) (readSlice h (sFirstHand s)) (readSlice h (sSecondHand s))
          (sCurrentTurn s)).

(** A slice is usable when its window lies inside an allocated array. *)
Definition sliceOk (h : heap) (s : slice) : Prop :=
  (len s ≤ cap s)%nat ∧
  (cap s = 0%nat ∨
   ∃ arr, arrays h !! ptr s = Some arr ∧ (off s + cap s ≤ length arr)%nat).

(** The board behind [bp] exists and both its hands are usable. *)
Definition boardOk (h : heap) (bp : loc) : Prop :=
  ∃ s, boards h !! bp = Some s ∧ sliceOk h (sFirstHand s) ∧ sliceOk h (sSecondHand s).

End Heap.

(** ** The console: parsing a line and the game loop

    The library functions [strings.ToLower], [strings.TrimSpace] and
    [strconv.Atoi] are not part of the program; they are parameters, and
    what is proved holds whatever they compute. Standard input is the list
    of the texts that the successive calls of [scanner.Text()] return, and
    what the program prints is a list of records, one for each print
    statement with the values that it formats. *)

(** A Go [string] is a sequence of bytes. *)
Definition byteOf (a : ascii) : Z := Z.of_N (N_of_ascii a).

(** [s[i]]: panics unless [i < len(s)]. *)
Definition byteAt (s : string) (i : nat) : result Z :=
  match String.get i s with
  | Some a => Ret (byteOf a)
  | None => Fail IndexOutOfRange
  end.

Definition isDigit (b : Z) : bool := (byteOf "0" <=? b) && (b <=? byteOf "9").

(** [int(c-'0') - 1]: the subtraction is on [byte] and wraps around at
    256, the conversion to [int] comes after it. *)
Definition digitIndex (c : Z) : Z := (c - byteOf "0") `mod` 256 - 1.

(** The map literal [pieces] of [parseInput], read at the key [c]. *)
Definition pieces (c : Z) : option PieceType :=
  if c =? byteOf "p" then Some Pawn
  else if c =? byteOf "s" then Some Silver
  else if c =? byteOf "g" then Some Gold
  else if c =? byteOf "b" then Some Bishop
  else if c =? byteOf "r" then Some Rook
  else None.

(** The labels of the five rows, [[]string{...}] in [Display] and [main]. *)
Definition rowNames : arr5 string := Arr5 "一" "二" "三" "四" "五".

Definition parseRow (s : string) : Z :=
  if bool_decide (s = "一") then 0
  else if bool_decide (s = "二") then 1
  else if bool_decide (s = "三") then 2
  else if bool_decide (s = "四") then 3
  else if bool_decide (s = "五") then 4
  else -1.

(** [names[pType]]; a kind that the map literal does not hold reads as
    the empty string. *)
Definition getPieceName (pType : PieceType) : string :=
  match pType with
  | Pawn => "歩"
  | Silver => "銀"
  | Gold => "金"
  | Bishop => "角"
  | Rook => "飛"
  | _ => ""
  end.

(** [Piece.String]; [symbol] stays empty for a kind outside the switch. *)
Definition Piece_String (p : Piece) : string :=
  if bool_decide (Owner p = PNone) then " ． "
  else
    let symbol :=
      match Type_ p with
      | King => "玉"
      | Gold => "金"
      | Silver => "銀"
      | Bishop => "角"
      | Rook => "飛"
      | Pawn => "歩"
      | PromotedSilver => "全"
      | PromotedBishop => "馬"
      | PromotedRook => "龍"
      | PromotedPawn => "と"
      | Empty => ""
      end in
    if bool_decide (Owner p = First) then " " +:+ symbol +:+ " "
    else "v" +:+ symbol +:+ " ".

Definition movesEqual (m1 m2 : Move) : bool :=
  (FromRow m1 =? FromRow m2) && (FromCol m1 =? FromCol m2)
  && (ToRow m1 =? ToRow m2) && (ToCol m1 =? ToCol m2)
  && bool_decide (IsDrop m1 = IsDrop m2) && bool_decide (DropPiece m1 = DropPiece m2)
  && bool_decide (Promote m1 = Promote m2).

Definition canChoosePromote (board : Board) (move : Move) : result bool :=
  if IsDrop move then Ret false
  else
    piece <- cellAt board (FromRow move) (FromCol move) ;;
    match Type_ piece with
    | Silver | Bishop | Rook | Pawn => Ret (canPromote (Owner piece) (ToRow move))
    | _ => Ret false
    end.

(** What [main] prints, by print statement. *)
Inductive Output : Type :=
  | PrintMenu
  | PrintBoard (b : Board)
  | PrintWinner (p : Player)
  | PrintTurn (p : Player)
  | PrintThinking
  | PrintAIDrop (name : string) (col : Z) (row : string)
  | PrintAIMove (fromCol : Z) (fromRow : string) (toCol : Z) (toRow : string)
      (promote : bool)
  | PrintPrompt
  | PrintInvalid
  | PrintAskPromote
  | PrintIllegal.

(** The variables of [main] that live across iterations, with the
    console: the board, the texts not yet read, what has been printed. *)
Record Game : Type := mkGame {
  position : Board;
  unread : list string;
  printed : list Output
}.

Definition print (g : Game) (o : Output) : Game :=
  mkGame (position g) (unread g) (printed g ++ [o]).

(** [scanner.Scan()] followed by [scanner.Text()]; the result of [Scan] is
    not looked at, and the text is empty once the input is exhausted. *)
Definition scan (g : Game) : string * Game :=
  match unread g with
  | [] => (EmptyString, g)
  | text :: rest => (text, mkGame (position g) rest (printed g))
  end.

Definition setPosition (g : Game) (b : Board) : Game :=
  mkGame b (unread g) (printed g).

(** [move.Promote = true]. *)
Definition setPromote (m : Move) : Move :=
  mkMove (FromRow m) (FromCol m) (ToRow m) (ToCol m) (IsDrop m) (DropPiece m) true.

(** The loop [for _, lm := range legalMoves] of [main]: at the first
    legal move equal to [move], [move] becomes that move and [found] is
    set. *)
Definition lookup (legalMoves : list Move) (move : Move) (found : bool)
    : result (Move * bool) :=
  forRange legalMoves (move, found) (λ st lm,
    if movesEqual st.1 lm then Ret (Break (lm, true)) else Ret (Next st)).

Section Console.

Variables ToLower TrimSpace : string → string.
Variable Atoi : string → Z.

Definition parseInput (input : string) (board : Board) : result (option Move) :=
  let input := TrimSpace (ToLower input) in
  drop <-
    (if (String.length input =? 3)%nat then
       c0 <- byteAt input 0 ;;
       if negb (isDigit c0) then
         match pieces c0 with
         | Some pType =>
             c1 <- byteAt input 1 ;;
             c2 <- byteAt input 2 ;;
             let col := digitIndex c1 in
             let row := digitIndex c2 in
             if (0 <=? col) && (col <? 5) && (0 <=? row) && (row <? 5)
             then Ret (Some (mkMove (-1) (-1) row col true pType false))
             else Ret None
         | None => Ret None
         end
       else Ret None
     else Ret None) ;;
  match drop with
  | Some move => Ret (Some move)
  | None =>
      if (String.length input =? 4)%nat then
        c0 <- byteAt input 0 ;;
        if isDigit c0 then
          c1 <- byteAt input 1 ;;
          c2 <- byteAt input 2 ;;
          c3 <- byteAt input 3 ;;
          let fromCol := digitIndex c0 in
          let fromRow := digitIndex c1 in
          let toCol := digitIndex c2 in
          let toRow := digitIndex c3 in
          if (0 <=? fromCol) && (fromCol <? 5) && (0 <=? fromRow) && (fromRow <? 5)
             && (0 <=? toCol) && (toCol <? 5) && (0 <=? toRow) && (toRow <? 5)
          then Ret (Some (mkMove fromRow fromCol toRow toCol false Empty false))
          else Ret None
        else Ret None
      else Ret None
  end.

(** The branch of [main] for the AI: the move of [GetAIMove] (three
    plies, so four levels of calls) and its announcement. *)
Definition aiTurn (o : Oracle) (g : Game) : result (Game * option Move) :=
  let g := print g PrintThinking in
  move <- GetAIMove 4 o (position g) ;;
  match move with
  | Some m =>
      if IsDrop m then
        let piece := mkPiece (DropPiece m) First in
        row <- get5 rowNames (ToRow m) ;;
        Ret (print g (PrintAIDrop (TrimSpace (Piece_String piece))
                        (wrap64 (ToCol m + 1)) row), Some m)
      else
        fromRow <- get5 rowNames (FromRow m) ;;
        toRow <- get5 rowNames (ToRow m) ;;
        Ret (print g (PrintAIMove (wrap64 (FromCol m + 1)) fromRow
                        (wrap64 (ToCol m + 1)) toRow (Promote m)), Some m)
  | None => Ret (g, None)
  end.

(** The branch for the human player: [None] stands for [continue]. *)
Definition humanTurn (picks : list nat) (g : Game) : result (Game * option Move) :=
  let g := print g PrintPrompt in
  let '(input, g) := scan g in
  parsed <- parseInput input (position g) ;;
  match parsed with
  | None => Ret (print g PrintInvalid, None)
  | Some move =>
      legalMoves <- GetAllLegalMoves picks (position g) ;;
      st <- lookup legalMoves move false ;;
      let '(move, found) := st in
      if found then Ret (g, Some move)
      else
        choose <- (if negb (IsDrop move) then canChoosePromote (position g) move
                   else Ret false) ;;
        r <- (if choose then
                let g := print g PrintAskPromote in
                let '(answer, g) := scan g in
                let move := if bool_decide (answer = "y") then setPromote move else move in
                st <- lookup legalMoves move found ;;
                Ret (g, st)
              else Ret (g, (move, found))) ;;
        let '(g, (move, found)) := r in
        if found then Ret (g, Some move)
        else Ret (print g PrintIllegal, None)
  end.

(** One iteration of the loop of [main]; [Break] is its [break]. The
    order of the map iteration is [o] for the search of this iteration
    and [picks] for its list of legal moves. *)
Definition iteration (aiPlayer : Player) (o : Oracle) (picks : list nat) (g : Game)
    : result (ctl Game) :=
  let g := print g (PrintBoard (position g)) in
  over <- IsGameOver (position g) ;;
  let '(gameOver, winner) := over in
  if gameOver then
    Ret (Break (print g (PrintWinner (if bool_decide (winner = First) then First
                                      else Second))))
  else
    let g := print g (PrintTurn (if bool_decide (CurrentTurn (position g) = First)
                                 then First else Second)) in
    r <- (if bool_decide (CurrentTurn (position g) = aiPlayer)
          then aiTurn o g else humanTurn picks g) ;;
    let '(g, move) := r in
    match move with
    | Some m =>
        b <- MakeMove (position g) m ;;
        Ret (Next (setPosition g b))
    | None => Ret (Next g)
    end.

(** The loop, for at most [fuel] iterations; iteration [n] iterates its
    maps in the orders [env n]. *)
Fixpoint loop (fuel : nat) (aiPlayer : Player) (env : nat → Oracle * list nat)
    (n : nat) (g : Game) : result Game :=
  match fuel with
  | O => Fail OutOfFuel
  | S fuel' =>
      r <- iteration aiPlayer (env n).1 (env n).2 g ;;
      match r with
      | Break g' => Ret g'
      | Next g' => loop fuel' aiPlayer env (S n) g'
      end
  end.

Definition main (fuel : nat) (env : nat → Oracle * list nat) (input : list string)
    : result Game :=
  let g := print (mkGame NewBoard input []) PrintMenu in
  let '(text, g) := scan g in
  let mode := Atoi text in
  let aiPlayer := if mode =? 2 then First else Second in
  loop fuel aiPlayer env 0 g.

End Console.

(** [counts[p]++] for each piece of a hand. A slice has fewer than 2^63
    elements, so the counters do not wrap around. *)
Definition countHand (hand : list PieceType) : gmap PieceType Z :=
  foldl (λ counts p, <[p := default 0 (counts !! p) + 1]> counts) ∅ hand.

(** What [displayHand] prints: the word for an empty hand, or one entry
    per key of [counts], the name and the number that [Printf] formats. *)
Inductive HandLine : Type :=
  | HandEmpty
  | HandEntries (entries : list (string * Z)).

(** [displayHand]; the range over the map [counts] yields its entries in
    the order [picks]. *)
Definition displayHand (TrimSpace : string → string) (picks : list nat)
    (hand : list PieceType) : HandLine :=
  if (length hand =? 0)%nat then HandEmpty
  else
    let counts := countHand hand in
    HandEntries
      ((λ entry : PieceType * Z,
          let piece := mkPiece entry.1 First in
          (TrimSpace (Piece_String piece), entry.2))
       <$> shuffle picks (map_to_list counts)).

(** ** Notions the specification speaks of *)

(** The value of a computation that is known to return. *)
Definition orElse {A : Type} (m : result A) (d : A) : A :=
  match m with
  | Ret a => a
  | Fail _ => d
  end.

Definition rowCells {A : Type} (a : arr5 A) : list A := [e0 a; e1 a; e2 a; e3 a; e4 a].

(** The 25 cells, row by row. *)
Definition allCells (g : Grid) : list Piece := rowCells g ≫= rowCells.
Arguments allCells : simpl never.

(** The cell at an in-range position. *)
Definition cell (b : Board) (r c : Z) : Piece := orElse (cellAt b r c) noPiece.

(** A cell holds a piece when its owner is a player. *)
Definition occupied (p : Piece) : Prop := Owner p ≠ PNone.

Global Instance occupied_dec p : Decision (occupied p).
Proof. unfold occupied. apply _. Defined.

(** Every piece kind in play: on the grid and in both hands. *)
Definition kindsInPlay (b : Board) : list PieceType :=
  (Type_ <$> filter occupied (allCells (Cells b))) ++ FirstHand b ++ SecondHand b.

(** How many pieces of kind [k] are in play. *)
Definition countKind (k : PieceType) (b : Board) : nat :=
  length (filter (λ x, x = k) (kindsInPlay b)).

(** How many pieces whose base kind is [k] are in play. *)
Definition countBase (k : PieceType) (b : Board) : nat :=
  length (filter (λ x, demote x = k) (kindsInPlay b)).

(** One ply: a move that [GetAllLegalMoves] offers, applied. *)
Definition step (b b' : Board) : Prop :=
  ∃ picks moves m,
    GetAllLegalMoves picks b = Ret moves ∧ m ∈ moves ∧ MakeMove b m = Ret b'.

(** The states of a game from the initial position. *)
Definition reachable (b : Board) : Prop := rtc step NewBoard b.

(** The Kings of player [p] on the grid. *)
Definition kingsOf (p : Player) (b : Board) : nat :=
  length (filter (λ x, Type_ x = King ∧ Owner x = p) (allCells (Cells b))).

Definition kingsOnBoard (b : Board) : nat := (kingsOf First b + kingsOf Second b)%nat.

(** The hand of player [p]. *)
Definition handOf (p : Player) (b : Board) : list PieceType :=
  match p with
  | First => FirstHand b
  | Second => SecondHand b
  | PNone => []
  end.

(** The four kinds that have a promoted form. *)
Definition promotable (k : PieceType) : bool :=
  match k with
  | Silver | Bishop | Rook | Pawn => true
  | _ => false
  end.

(** The mover's farthest rank. *)
Definition farthestRank (p : Player) (r : Z) : bool :=
  bool_decide (p = First) && (r =? 0) || bool_decide (p = Second) && (r =? 4).

(** Whether [player] has an unpromoted Pawn in column [col]. *)
Definition pawnInColumn (b : Board) (col : Z) (player : Player) : Prop :=
  ∃ r, 0 ≤ r < 5 ∧ Owner (cell b r col) = player ∧ Type_ (cell b r col) = Pawn.

(** The unpruned minimax value of [b] to depth [d]: the evaluation at depth
    zero, when the game is over and when no move exists; otherwise the
    greatest (least, when minimizing) value of a position one move away.
    Same generator, executor and evaluator as [Minimax]; the order of the
    moves does not matter for a maximum. *)
Fixpoint fullMinimax (d : nat) (b : Board) (maximizing : bool) : Z :=
  match d with
  | O => orElse (Evaluate b) 0
  | S d' =>
      if (orElse (IsGameOver b) (true, PNone)).1 then orElse (Evaluate b) 0
      else
        let value := λ m, fullMinimax d' (orElse (MakeMove b m) b) (negb maximizing) in
        match orElse (GetAllLegalMoves [] b) [] with
        | [] => orElse (Evaluate b) 0
        | m :: ms =>
            if maximizing then foldr Z.max (value m) (value <$> ms)
            else foldr Z.min (value m) (value <$> ms)
        end
  end.

(** The bound that a candidate loop has reached after the scores [es]. *)
Definition runningMax (alpha : Z) (es : list Z) : Z := foldl Z.max alpha es.
Definition runningMin (beta : Z) (es : list Z) : Z := foldl Z.min beta es.

(** The sum of the piece values of a position whatever the owner, every
    kind at the value of its promoted form: a bound for [Evaluate] that no
    move increases. *)
Definition weight (k : PieceType) : Z := pieceValues (promoteType (demote k)).

(** The grid after [g[r][c] = p] at an in-range position. *)
Definition putCell (g : Grid) (r c : Z) (p : Piece) : Grid := orElse (setCell g r c p) g.

(** Sums over lists, over the grid and over everything in play. *)
Definition listSum {A : Type} (f : A → Z) (l : list A) : Z :=
  foldr (λ x acc, f x + acc) 0 l.

Definition gridSum (f : Piece → Z) (g : Grid) : Z := listSum f (allCells g).

Definition measure (f : PieceType → Z) (b : Board) : Z := listSum f (kindsInPlay b).

Definition totalWeight (b : Board) : Z := measure weight b.

(** The initial position after both Kings have been taken. *)
Definition noKings : Board :=
  mkBoard
    (Arr5
       (Arr5 (mkPiece Rook Second) (mkPiece Bishop Second) (mkPiece Silver Second)
             (mkPiece Gold Second) noPiece)
       (Arr5 noPiece noPiece noPiece noPiece (mkPiece Pawn Second))
       emptyRow
       (Arr5 (mkPiece Pawn First) noPiece noPiece noPiece noPiece)
       (Arr5 noPiece (mkPiece Gold First) (mkPiece Silver First)
             (mkPiece Bishop First) (mkPiece Rook First)))
    [King] [King] First.

(** Both Kings on the grid, First to move, and no move for First: the
    King and the three Pawns around it block each other. *)
Definition stuck : Board :=
  mkBoard
    (Arr5
       (Arr5 (mkPiece King First) (mkPiece Pawn First) noPiece noPiece noPiece)
       (Arr5 (mkPiece Pawn First) (mkPiece Pawn First) noPiece noPiece noPiece)
       emptyRow
       emptyRow
       (Arr5 noPiece noPiece noPiece noPiece (mkPiece King Second)))
    [] [] First.

(** The positions of the grid in the order of the two nested loops. *)
Definition coords : list (Z * Z) := idx5 ≫= λ r, pair r <$> idx5.

(** What the two flags of [IsGameOver] are after a list of cells. *)
Definition kingFlags (kings : bool * bool) (p : Piece) : bool * bool :=
  if bool_decide (Type_ p = King) then
    if bool_decide (Owner p = First) then (true, kings.2)
    else if bool_decide (Owner p = Second) then (kings.1, true)
    else kings
  else kings.

(** ** Notions and positions that the properties speak of *)

(** The piece that a board move puts on its destination. *)
Definition movedPiece (move : Move) (piece : Piece) : Piece :=
  if Promote move then mkPiece (promoteType (Type_ piece)) (Owner piece) else piece.

(** The hands after a capture. *)
Definition handsAfter (b : Board) (captured : Piece) : list PieceType * list PieceType :=
  if bool_decide (Owner captured ≠ PNone) then
    if bool_decide (CurrentTurn b = First)
    then (FirstHand b ++ [demote (Type_ captured)], SecondHand b)
    else (FirstHand b, SecondHand b ++ [demote (Type_ captured)])
  else (FirstHand b, SecondHand b).

Definition plainMove (row col nr nc : Z) : Move := mkMove row col nr nc false Empty false.

Definition promoMove (row col nr nc : Z) : Move := mkMove row col nr nc false Empty true.

(** What holds of a move [m] in the list [ms] that [GetPossibleMoves]
    builds for the piece at [(row, col)]. *)
Definition boardMoveOk (b : Board) (row col : Z) (ms : list Move) (m : Move) : Prop :=
  let piece := cell b row col in
  let zone := promotable (Type_ piece) && canPromote (Owner piece) (ToRow m) in
  (m = plainMove row col (ToRow m) (ToCol m) ∨ m = promoMove row col (ToRow m) (ToCol m)) ∧
  isInBoard (ToRow m) (ToCol m) = true ∧
  Owner (cell b (ToRow m) (ToCol m)) ≠ Owner piece ∧
  plainMove row col (ToRow m) (ToCol m) ∈ ms ∧
  (zone = true → promoMove row col (ToRow m) (ToCol m) ∈ ms) ∧
  (Promote m = true → zone = true).

Definition boardMovesOk (b : Board) (row col : Z) (ms : list Move) : Prop :=
  ∀ m, m ∈ ms → boardMoveOk b row col ms m.

(** A Silver of First one step below the far rank. *)
Definition silverBoard : Board :=
  mkBoard
    (Arr5
       (Arr5 noPiece noPiece noPiece noPiece (mkPiece King Second))
       (Arr5 noPiece noPiece (mkPiece Silver First) noPiece noPiece)
       emptyRow
       emptyRow
       (Arr5 (mkPiece King First) noPiece noPiece noPiece noPiece))
    [] [] First.

Definition dropMove (r c : Z) (k : PieceType) : Move := mkMove (-1) (-1) r c true k false.

(** Whether the two Pawn rules forbid the drop of [k] on [(r, c)]. *)
Definition pawnBarred (b : Board) (k : PieceType) (r c : Z) : bool :=
  bool_decide (k = Pawn)
  && (bool_decide (Exists (λ r', Owner (cell b r' c) = CurrentTurn b
                                 ∧ Type_ (cell b r' c) = Pawn) idx5)
      || farthestRank (CurrentTurn b) r).

(** What one iteration of the innermost loop of [GetDropMoves] appends. *)
Definition dropChunk (b : Board) (k : PieceType) (rc : Z * Z) : list Move :=
  if bool_decide (Owner (cell b rc.1 rc.2) = PNone) then
    if pawnBarred b k rc.1 rc.2 then [] else [dropMove rc.1 rc.2 k]
  else [].

(** The keys of the map [uniquePieces]. *)
Definition handKinds (b : Board) : gset PieceType :=
  foldl (λ m p, {[p]} ∪ m) ∅ (moverHand b).

(** The moves of the pieces on the grid, cell by cell. *)
Definition boardMoves (b : Board) : list Move :=
  coords ≫= λ rc,
    if bool_decide (Owner (cell b rc.1 rc.2) = CurrentTurn b)
    then orElse (GetPossibleMoves b rc.1 rc.2) [] else [].

(** The drops in the order that [picks] gives to the kinds. *)
Definition dropMoves (picks : list nat) (b : Board) : list Move :=
  rangeMap picks (handKinds b) ≫= λ k, coords ≫= dropChunk b k.

(** What a legal move is: a well-formed move of a piece of the side to
    move, or a drop of a kind of the mover's hand on a free cell. *)
Definition legalMove (b : Board) (m : Move) : Prop :=
  (IsDrop m = false ∧
   isInBoard (FromRow m) (FromCol m) = true ∧
   isInBoard (ToRow m) (ToCol m) = true ∧
   Owner (cell b (FromRow m) (FromCol m)) = CurrentTurn b ∧
   CurrentTurn b ≠ PNone ∧
   Owner (cell b (ToRow m) (ToCol m)) ≠ CurrentTurn b)
  ∨
  (IsDrop m = true ∧
   isInBoard (ToRow m) (ToCol m) = true ∧
   DropPiece m ∈ moverHand b ∧
   Owner (cell b (ToRow m) (ToCol m)) = PNone).

(** The summand of a cell in a sum over everything in play. *)
Definition onGrid (f : PieceType → Z) (p : Piece) : Z :=
  if decide (occupied p) then f (Type_ p) else 0.

(** The position after First's Bishop has gone to the left edge, Second's
    Pawn has advanced and the Bishop has taken Second's Bishop and
    promoted. *)
Definition afterPromotion : Board :=
  mkBoard
    (Arr5
       (Arr5 (mkPiece Rook Second) (mkPiece PromotedBishop First) (mkPiece Silver Second)
             (mkPiece Gold Second) (mkPiece King Second))
       emptyRow
       (Arr5 noPiece noPiece noPiece noPiece (mkPiece Pawn Second))
       (Arr5 (mkPiece Pawn First) noPiece noPiece noPiece noPiece)
       (Arr5 (mkPiece King First) (mkPiece Gold First) (mkPiece Silver First)
             noPiece (mkPiece Rook First)))
    [Bishop] [] Second.

(** The position after Second's Rook has taken the promoted Bishop back:
    each player holds a Bishop. *)
Definition afterRecapture : Board :=
  mkBoard
    (Arr5
       (Arr5 noPiece (mkPiece Rook Second) (mkPiece Silver Second)
             (mkPiece Gold Second) (mkPiece King Second))
       emptyRow
       (Arr5 noPiece noPiece noPiece noPiece (mkPiece Pawn Second))
       (Arr5 (mkPiece Pawn First) noPiece noPiece noPiece noPiece)
       (Arr5 (mkPiece King First) (mkPiece Gold First) (mkPiece Silver First)
             noPiece (mkPiece Rook First)))
    [Bishop] [Bishop] First.

(** The candidates numbered from [k]. *)
Definition indexedFrom {A : Type} (k : nat) (xs : list A) : list (nat * A) :=
  zip (seq k (length xs)) xs.

(** The scores [es] are those of the candidates that a maximizing loop
    examines: the first candidates of [moves], each scored with the bound
    [alpha] that the scores before it have reached, up to and including
    the first one that closes the window. *)
Definition examinedMax (ev : nat → Move → Z → Z → result Z) (moves : list Move)
    (alpha beta : Z) (es : list Z) : Prop :=
  (length es ≤ length moves)%nat ∧
  (∀ i m e, moves !! i = Some m → es !! i = Some e →
            ev i m (runningMax alpha (take i es)) beta = Ret e) ∧
  (∀ i, (S i < length es)%nat → runningMax alpha (take (S i) es) < beta) ∧
  ((length es < length moves)%nat → beta ≤ runningMax alpha es).

Definition examinedMin (ev : nat → Move → Z → Z → result Z) (moves : list Move)
    (alpha beta : Z) (es : list Z) : Prop :=
  (length es ≤ length moves)%nat ∧
  (∀ i m e, moves !! i = Some m → es !! i = Some e →
            ev i m alpha (runningMin beta (take i es)) = Ret e) ∧
  (∀ i, (S i < length es)%nat → alpha < runningMin beta (take (S i) es)) ∧
  ((length es < length moves)%nat → runningMin beta es ≤ alpha).

(** [best] is the incumbent after the scores [es], starting from the
    incumbent [best0] with score [init]: still [best0] when no score beats
    [init]; otherwise the first candidate that has the final score [v],
    which beats [init] and every score before it. *)
Definition firstBest (beats : Z → Z → Prop) (init : Z) (best0 : option Move)
    (moves : list Move) (es : list Z) (v : Z) (best : option Move) : Prop :=
  (Forall (λ e, ¬ beats e init) es ∧ v = init ∧ best = best0)
  ∨ (∃ i m, moves !! i = Some m ∧ best = Some m ∧ es !! i = Some v ∧ beats v init
            ∧ ∀ j e, (j < i)%nat → es !! j = Some e → beats v e).

(** Four candidates for a loop that scores a move by its destination row:
    the second and the third tie for the maximum, the first is the only
    minimum. *)
Definition tieMoves : list Move :=
  [plainMove 0 0 1 0; plainMove 0 0 3 0; plainMove 0 0 3 1; plainMove 0 0 2 0].

Definition rowScore : nat → Move → Z → Z → result Z := λ _ m _ _, Ret (ToRow m).

(** The score [v] that a search with the window [(alpha, beta)] may return
    for a position whose full minimax value is [t]: the value itself
    inside the window, an upper bound of it at or below [alpha], a lower
    bound of it at or above [beta]. *)
Definition agrees (alpha beta t v : Z) : Prop :=
  (v ≤ alpha → t ≤ v) ∧ (beta ≤ v → v ≤ t) ∧ (alpha < v < beta → v = t).

(** What [Evaluate] adds for one cell and for one piece in a hand. *)
Definition evalCell (score : Z) (piece : Piece) : Z :=
  if bool_decide (Owner piece = First) then wrap64 (score + pieceValues (Type_ piece))
  else if bool_decide (Owner piece = Second) then wrap64 (score - pieceValues (Type_ piece))
  else score.

Definition scoreOf (b : Board) : Z :=
  foldl (λ score p, wrap64 (score - handValue p))
    (foldl (λ score p, wrap64 (score + handValue p))
       (foldl evalCell 0 (allCells (Cells b))) (FirstHand b))
    (SecondHand b).

(** The value of the position one move away, as [fullMinimax] takes it. *)
Definition childValue (d : nat) (b : Board) (maximizing : bool) (m : Move) : Z :=
  fullMinimax d (orElse (MakeMove b m) b) (negb maximizing).

(** The recursive call of one iteration, as [Minimax] passes it to the
    candidate loops. *)
Definition childScore (fuel : nat) (o : Oracle) (b : Board) (depth : Z) (next : bool)
    : nat → Move → Z → Z → result Z :=
  λ i move alpha beta,
    newBoard <- MakeMove b move ;;
    r <- Minimax fuel (child o i) newBoard (wrap64 (depth - 1)) alpha beta next ;;
    Ret r.1.

(** Two Kings, a Pawn of Second next to First's King, and 130 Kings in
    First's hand: a position whose score lies above the sentinel. *)
Definition heavyBoard : Board :=
  mkBoard
    (Arr5
       (Arr5 noPiece noPiece noPiece noPiece (mkPiece King Second))
       emptyRow
       emptyRow
       (Arr5 noPiece (mkPiece Pawn Second) noPiece noPiece noPiece)
       (Arr5 (mkPiece King First) noPiece noPiece noPiece noPiece))
    (replicate 130 King) [] First.

(** Two Kings and a Gold and a Silver in First's hand. *)
Definition twoKinds : Board :=
  mkBoard
    (Arr5
       (Arr5 noPiece noPiece noPiece noPiece (mkPiece King Second))
       emptyRow
       emptyRow
       emptyRow
       (Arr5 (mkPiece King First) noPiece noPiece noPiece noPiece))
    [Gold; Silver] [] First.

(** The character of the digit that stands for the index [i]: ['1'] for
    0, ..., ['5'] for 4. *)
Definition digitChar (i : Z) : ascii := ascii_of_N (Z.to_N (i + 49)).

(** The letter that selects a kind of the hand. *)
Definition pieceLetter (k : PieceType) : ascii :=
  match k with
  | Pawn => "p"
  | Silver => "s"
  | Gold => "g"
  | Bishop => "b"
  | Rook => "r"
  | _ => "?"
  end.

(** The text that stands for a move: the letter of the kind, the column
    and the row for a drop; column and row of the origin, then of the
    destination, for a move on the grid. *)
Definition encode (m : Move) : string :=
  if IsDrop m then
    String (pieceLetter (DropPiece m))
      (String (digitChar (ToCol m)) (String (digitChar (ToRow m)) EmptyString))
  else
    String (digitChar (FromCol m))
      (String (digitChar (FromRow m))
         (String (digitChar (ToCol m)) (String (digitChar (ToRow m)) EmptyString))).

(** The moves that a line can stand for. *)
Definition typable (m : Move) : Prop :=
  isInBoard (ToRow m) (ToCol m) = true ∧ Promote m = false ∧
  if IsDrop m
  then FromRow m = -1 ∧ FromCol m = -1 ∧ DropPiece m ∈ [Pawn; Silver; Gold; Bishop; Rook]
  else isInBoard (FromRow m) (FromCol m) = true ∧ DropPiece m = Empty.

(** What an iteration leaves: the game it continues or stops with. *)
Definition outcome (r : ctl Game) : Game :=
  match r with
  | Next g => g
  | Break g => g
  end.

(** What [strings.ToLower], [strings.TrimSpace] and [strconv.Atoi] compute
    on a text of ASCII characters (for [Atoi]: of at most 18 digits after
    an optional sign), for the examples below. *)
Definition lowerByte (a : ascii) : ascii :=
  if (byteOf "A" <=? byteOf a) && (byteOf a <=? byteOf "Z")
  then ascii_of_N (N_of_ascii a + 32) else a.

Fixpoint lowerASCII (s : string) : string :=
  match s with
  | EmptyString => EmptyString
  | String a s' => String (lowerByte a) (lowerASCII s')
  end.

Definition isSpaceByte (a : ascii) : bool :=
  bool_decide (byteOf a ∈ [9; 10; 11; 12; 13; 32]).

Fixpoint trimLeft (s : string) : string :=
  match s with
  | EmptyString => EmptyString
  | String a s' => if isSpaceByte a then trimLeft s' else s
  end.

Fixpoint trimRight (s : string) : string :=
  match s with
  | EmptyString => EmptyString
  | String a s' =>
      match trimRight s' with
      | EmptyString => if isSpaceByte a then EmptyString else String a EmptyString
      | t => String a t
      end
  end.

Definition trimASCII (s : string) : string := trimRight (trimLeft s).

Fixpoint digitsValue (acc : Z) (s : string) : option Z :=
  match s with
  | EmptyString => Some acc
  | String a s' =>
      if isDigit (byteOf a) then digitsValue (10 * acc + (byteOf a - byteOf "0")) s'
      else None
  end.

Definition atoiASCII (s : string) : Z :=
  match s with
  | EmptyString => 0
  | String a s' =>
      if bool_decide (a = "-"%char)
      then match s' with EmptyString => 0 | _ => - default 0 (digitsValue 0 s') end
      else if bool_decide (a = "+"%char)
      then match s' with EmptyString => 0 | _ => default 0 (digitsValue 0 s') end
      else default 0 (digitsValue 0 s)
  end.

(** The position after a game of four plies against the AI, which plays
    Second: the human player advances the Pawn, the Rook takes it, the
    King steps behind it, the Rook takes the King. *)
Definition kingTaken : Board :=
  mkBoard
    (Arr5
       (Arr5 noPiece (mkPiece Bishop Second) (mkPiece Silver Second)
             (mkPiece Gold Second) (mkPiece King Second))
       (Arr5 noPiece noPiece noPiece noPiece (mkPiece Pawn Second))
       emptyRow
       (Arr5 (mkPiece Rook Second) noPiece noPiece noPiece noPiece)
       (Arr5 noPiece (mkPiece Gold First) (mkPiece Silver First)
             (mkPiece Bishop First) (mkPiece Rook First)))
    [] [Pawn; King] First.

(** What one direction adds to the list in the loops of [GetPossibleMoves]:
    for a piece that steps, for the Silver, and for a piece that slides
    (the distances [dists] still to try). *)
Definition stepChunk (b : Board) (row col : Z) (d : Z * Z) : list Move :=
  if isInBoard (row + d.1) (col + d.2)
     && bool_decide (Owner (cell b (row + d.1) (col + d.2)) ≠ Owner (cell b row col))
  then [plainMove row col (row + d.1) (col + d.2)] else [].

Definition silverChunk (b : Board) (row col : Z) (d : Z * Z) : list Move :=
  if isInBoard (row + d.1) (col + d.2)
     && bool_decide (Owner (cell b (row + d.1) (col + d.2)) ≠ Owner (cell b row col))
  then (if canPromote (Owner (cell b row col)) (row + d.1)
        then [promoMove row col (row + d.1) (col + d.2)] else [])
       ++ [plainMove row col (row + d.1) (col + d.2)]
  else [].

Fixpoint rayMoves (b : Board) (base : PieceType) (row col : Z) (d : Z * Z)
    (dists : list Z) : list Move :=
  match dists with
  | [] => []
  | i :: rest =>
      let nr := row + d.1 * i in
      let nc := col + d.2 * i in
      if negb (isInBoard nr nc) then []
      else if bool_decide (Owner (cell b nr nc) = Owner (cell b row col)) then []
      else
        (if bool_decide (Type_ (cell b row col) = base)
            && canPromote (Owner (cell b row col)) nr
         then [promoMove row col nr nc] else [])
        ++ plainMove row col nr nc
           :: (if bool_decide (Owner (cell b nr nc) ≠ PNone) then []
               else rayMoves b base row col d rest)
  end.

Definition pawnChunk (b : Board) (row col : Z) : list Move :=
  let nr := row + (if bool_decide (Owner (cell b row col) = Second) then 1 else -1) in
  if isInBoard nr col && bool_decide (Owner (cell b nr col) ≠ Owner (cell b row col))
  then (if canPromote (Owner (cell b row col)) nr then [promoMove row col nr col] else [])
       ++ [plainMove row col nr col]
  else [].

(** The list that [GetPossibleMoves] builds for a piece of the mover. *)
Definition movesOf (b : Board) (row col : Z) : list Move :=
  let owner := Owner (cell b row col) in
  match Type_ (cell b row col) with
  | King => kingDirs ≫= stepChunk b row col
  | Gold | PromotedSilver | PromotedPawn => getGoldMoves owner ≫= stepChunk b row col
  | Silver => getSilverMoves owner ≫= silverChunk b row col
  | Bishop => diagDirs ≫= λ d, rayMoves b Bishop row col d [1; 2; 3; 4]
  | PromotedBishop =>
      (diagDirs ≫= λ d, rayMoves b Bishop row col d [1; 2; 3; 4])
      ++ (horseDirs ≫= stepChunk b row col)
  | Rook => orthDirs ≫= λ d, rayMoves b Rook row col d [1; 2; 3; 4]
  | PromotedRook =>
      (orthDirs ≫= λ d, rayMoves b Rook row col d [1; 2; 3; 4])
      ++ (diagDirs ≫= stepChunk b row col)
  | Pawn => pawnChunk b row col
  | Empty => []
  end.

(** One step in one of the directions [dirs]. *)
Definition steps (row col nr nc : Z) (dirs : list (Z * Z)) : Prop :=
  ∃ d, d ∈ dirs ∧ nr = row + d.1 ∧ nc = col + d.2.

(** Any number of steps in one of the directions [dirs], over empty
    cells only. *)
Definition slides (b : Board) (row col nr nc : Z) (dirs : list (Z * Z)) : Prop :=
  ∃ d i, d ∈ dirs ∧ 1 ≤ i ∧ nr = row + d.1 * i ∧ nc = col + d.2 * i ∧
         ∀ j, 1 ≤ j < i → Owner (cell b (row + d.1 * j) (col + d.2 * j)) = PNone.

(** The movement of the piece on [(row, col)]: the cells that its kind
    lets it go to. *)
Definition reaches (b : Board) (row col nr nc : Z) : Prop :=
  let owner := Owner (cell b row col) in
  match Type_ (cell b row col) with
  | King => steps row col nr nc kingDirs
  | Gold | PromotedSilver | PromotedPawn => steps row col nr nc (getGoldMoves owner)
  | Silver => steps row col nr nc (getSilverMoves owner)
  | Bishop => slides b row col nr nc diagDirs
  | PromotedBishop => slides b row col nr nc diagDirs ∨ steps row col nr nc horseDirs
  | Rook => slides b row col nr nc orthDirs
  | PromotedRook => slides b row col nr nc orthDirs ∨ steps row col nr nc diagDirs
  | Pawn => nc = col ∧ nr = row + (if bool_decide (owner = Second) then 1 else -1)
  | Empty => False
  end.

(** The body of the inner loop of a sliding piece. *)
Definition rayBody (b : Board) (base : PieceType) (row col : Z) (d : Z * Z)
    (moves : list Move) (i : Z) : result (ctl (list Move)) :=
  let piece := cell b row col in
  let nr := row + d.1 * i in
  let nc := col + d.2 * i in
  if negb (isInBoard nr nc) then Ret (Break moves)
  else
    t <- cellAt b nr nc ;;
    if bool_decide (Owner t = Owner piece) then Ret (Break moves)
    else
      let move := mkMove row col nr nc false Empty false in
      let moves :=
        if bool_decide (Type_ piece = base) && canPromote (Owner piece) nr
        then moves ++ [mkMove row col nr nc false Empty true]
        else moves in
      let moves := moves ++ [move] in
      t' <- cellAt b nr nc ;;
      if bool_decide (Owner t' ≠ PNone) then Ret (Break moves)
      else Ret (Next moves).

(** A direction of the grid: one step or none along each axis, not both
    none. *)
Definition unitDir (d : Z * Z) : Prop :=
  -1 ≤ d.1 ≤ 1 ∧ -1 ≤ d.2 ≤ 1 ∧ (d.1 ≠ 0 ∨ d.2 ≠ 0).

(** The kinds that a hand can hold. *)
Definition baseKinds : list PieceType := [King; Gold; Silver; Bishop; Rook; Pawn].

(** A board is well formed when it is a player's turn, a cell has no
    owner exactly when its kind is [Empty], and the hands hold unpromoted
    kinds only. *)
Definition wellFormed (b : Board) : Prop :=
  CurrentTurn b ≠ PNone ∧
  (∀ r c, Owner (cell b r c) = PNone ↔ Type_ (cell b r c) = Empty) ∧
  (∀ k, k ∈ FirstHand b ++ SecondHand b → k ∈ baseKinds).

(** No player has two unpromoted Pawns in one column. *)
Definition noDoublePawn (b : Board) : Prop :=
  ∀ p c r1 r2,
    cell b r1 c = mkPiece Pawn p → cell b r2 c = mkPiece Pawn p → p ≠ PNone → r1 = r2.

(** Whether a cell holds a King of player [p], as a number. *)
Definition kingOf (p : Player) (x : Piece) : Z :=
  if decide (Type_ x = King ∧ Owner x = p) then 1 else 0.

(** The position after three plies: First's Rook has taken the Pawn and
    then, Second's Rook having stepped aside, the King. *)
Definition kingGone : Board :=
  mkBoard
    (Arr5
       (Arr5 noPiece (mkPiece Bishop Second) (mkPiece Silver Second)
             (mkPiece Gold Second) (mkPiece Rook First))
       (Arr5 (mkPiece Rook Second) noPiece noPiece noPiece noPiece)
       emptyRow
       (Arr5 (mkPiece Pawn First) noPiece noPiece noPiece noPiece)
       (Arr5 (mkPiece King First) (mkPiece Gold First) (mkPiece Silver First)
             (mkPiece Bishop First) noPiece))
    [Pawn; King] [] Second.

(** The position one ply earlier. *)
Definition kingAttacked : Board :=
  mkBoard
    (Arr5
       (Arr5 noPiece (mkPiece Bishop Second) (mkPiece Silver Second)
             (mkPiece Gold Second) (mkPiece King Second))
       (Arr5 (mkPiece Rook Second) noPiece noPiece noPiece (mkPiece Rook First))
       emptyRow
       (Arr5 (mkPiece Pawn First) noPiece noPiece noPiece noPiece)
       (Arr5 (mkPiece King First) (mkPiece Gold First) (mkPiece Silver First)
             (mkPiece Bishop First) noPiece))
    [Pawn] [] First.

(** What a cell counts for: the value of its piece, for First with a
    plus, for Second with a minus. *)
Definition cellValue (p : Piece) : Z :=
  if bool_decide (Owner p = First) then pieceValues (Type_ p)
  else if bool_decide (Owner p = Second) then - pieceValues (Type_ p)
  else 0.

(** The material balance: the cells, and the hands at eight tenths of the
    value, rounded toward zero. *)
Definition balance (b : Board) : Z :=
  gridSum cellValue (Cells b)
  + listSum (λ k, pieceValues k * 8 ÷ 10) (FirstHand b)
  - listSum (λ k, pieceValues k * 8 ÷ 10) (SecondHand b).

(** How many pieces of kind [k] a hand holds. *)
Definition occurrences (k : PieceType) (hand : list PieceType) : Z :=
  Z.of_nat (length (filter (λ x, x = k) hand)).

(** ** The error monad and the loops *)

Lemma bind_Ret {A B : Type} (m : result A) (k : A → result B) (y : B) :
  bind m k = Ret y ↔ ∃ x, m = Ret x ∧ k x = Ret y.
Proof.
  destruct m as [a|f]; simpl.
  - split; [eauto | by intros (x & [= ->] & ?)].
  - split; [done | by intros (x & ? & ?)].
Qed.

Ltac inv_bind H :=
  repeat match type of H with
  | bind _ _ = Ret _ =>
      let x := fresh "x" in let Hx := fresh "Hx" in
      apply bind_Ret in H as (x & Hx & H)
  end.

(** A property of the loop variables that every iteration keeps holds at
    the end of the loop. *)
Lemma forEach_inv {A S : Type} (I : S → Prop) (xs : list A) (body : S → A → result S) :
  (∀ s x s', x ∈ xs → I s → body s x = Ret s' → I s') →
  ∀ s s', I s → forEach xs s body = Ret s' → I s'.
Proof.
  induction xs as [|x xs IH]; intros Hbody s s' Hs Hrun; simpl in Hrun.
  - by injection Hrun as <-.
  - apply bind_Ret in Hrun as (s1 & H1 & Hrun).
    eapply IH; [| |exact Hrun].
    + intros ???? ; apply Hbody. by right.
    + eapply Hbody; [by left|exact Hs|exact H1].
Qed.

Lemma forRange_inv {A S : Type} (I : S → Prop) (xs : list A)
    (body : S → A → result (ctl S)) :
  (∀ s x s', x ∈ xs → I s → body s x = Ret (Next s') ∨ body s x = Ret (Break s') → I s') →
  ∀ s s', I s → forRange xs s body = Ret s' → I s'.
Proof.
  induction xs as [|x xs IH]; intros Hbody s s' Hs Hrun; simpl in Hrun.
  - by injection Hrun as <-.
  - apply bind_Ret in Hrun as ([s1|s1] & H1 & Hrun).
    + eapply IH; [| |exact Hrun].
      * intros ????; apply Hbody. by right.
      * eapply Hbody; [by left|exact Hs|by left].
    + injection Hrun as <-. eapply Hbody; [by left|exact Hs|by right].
Qed.

(** A loop whose body always returns, returns. *)
Lemma forEach_total {A S : Type} (xs : list A) (body : S → A → result S) :
  (∀ s x, x ∈ xs → ∃ s', body s x = Ret s') →
  ∀ s, ∃ s', forEach xs s body = Ret s'.
Proof.
  induction xs as [|x xs IH]; intros Hbody s; simpl; [eauto|].
  destruct (Hbody s x) as [s1 ->]; [by left|]. simpl.
  apply IH. intros ???. apply Hbody. by right.
Qed.

Lemma forRange_total {A S : Type} (xs : list A) (body : S → A → result (ctl S)) :
  (∀ s x, x ∈ xs → ∃ r, body s x = Ret r) →
  ∀ s, ∃ s', forRange xs s body = Ret s'.
Proof.
  induction xs as [|x xs IH]; intros Hbody s; simpl; [eauto|].
  destruct (Hbody s x) as [[s1|s1] ->]; [by left| |]; simpl; [|eauto].
  apply IH. intros ???. apply Hbody. by right.
Qed.

(** A loop that only appends to a list, a chunk per element, builds the
    concatenation of the chunks. *)
Lemma forEach_app {A B : Type} (xs : list A) (chunk : A → list B)
    (body : list B → A → result (list B)) :
  (∀ s x, x ∈ xs → body s x = Ret (s ++ chunk x)) →
  ∀ s, forEach xs s body = Ret (s ++ (xs ≫= chunk)).
Proof.
  induction xs as [|x xs IH]; intros Hbody s; simpl.
  - by rewrite app_nil_r.
  - rewrite Hbody; [|by left]. simpl. rewrite IH.
    + by rewrite <- app_assoc.
    + intros ???. apply Hbody. by right.
Qed.

(** ** The grid *)

Lemma get5_Ret {A : Type} (a : arr5 A) (i : Z) (x : A) :
  get5 a i = Ret x → 0 ≤ i < 5.
Proof.
  unfold get5. repeat case_match; try done; lia.
Qed.

Lemma get5_inRange {A : Type} (a : arr5 A) (i : Z) :
  0 ≤ i < 5 → ∃ x, get5 a i = Ret x ∧ x ∈ rowCells a.
Proof.
  intros Hi. unfold get5, rowCells.
  destruct (Z.eqb_spec i 0); [eexists; split; [done|repeat constructor]|].
  destruct (Z.eqb_spec i 1); [eexists; split; [done|repeat constructor]|].
  destruct (Z.eqb_spec i 2); [eexists; split; [done|repeat constructor]|].
  destruct (Z.eqb_spec i 3); [eexists; split; [done|repeat constructor]|].
  destruct (Z.eqb_spec i 4); [eexists; split; [done|repeat constructor]|].
  lia.
Qed.

Lemma isInBoard_spec (r c : Z) : isInBoard r c = true ↔ 0 ≤ r < 5 ∧ 0 ≤ c < 5.
Proof. unfold isInBoard. rewrite !andb_true_iff. lia. Qed.

Lemma getCell_Ret (g : Grid) (r c : Z) (p : Piece) :
  getCell g r c = Ret p → isInBoard r c = true ∧ p ∈ allCells g.
Proof.
  unfold getCell. intros H. apply bind_Ret in H as (row & Hrow & Hp).
  pose proof (get5_Ret _ _ _ Hrow) as Hr. pose proof (get5_Ret _ _ _ Hp) as Hc.
  split; [apply isInBoard_spec; lia|].
  destruct (get5_inRange g r Hr) as (row' & Hrow' & Hin).
  destruct (get5_inRange row c Hc) as (p' & Hp' & Hin').
  rewrite Hrow in Hrow'. injection Hrow' as <-.
  rewrite Hp in Hp'. injection Hp' as <-.
  unfold allCells. apply list_elem_of_bind. eauto.
Qed.

Lemma getCell_inBoard (g : Grid) (r c : Z) :
  isInBoard r c = true → ∃ p, getCell g r c = Ret p.
Proof.
  intros [Hr Hc]%isInBoard_spec. unfold getCell.
  destruct (get5_inRange g r Hr) as (row & -> & _). simpl.
  destruct (get5_inRange row c Hc) as (p & -> & _). eauto.
Qed.

Lemma cellAt_inBoard (b : Board) (r c : Z) :
  isInBoard r c = true → cellAt b r c = Ret (cell b r c).
Proof.
  intros H. unfold cell, cellAt.
  by destruct (getCell_inBoard (Cells b) r c H) as (p & ->).
Qed.

Lemma cellAt_Ret (b : Board) (r c : Z) (p : Piece) :
  cellAt b r c = Ret p → isInBoard r c = true ∧ p = cell b r c.
Proof.
  intros H. destruct (getCell_Ret _ _ _ _ H) as [Hin _]. split; [done|].
  rewrite (cellAt_inBoard b r c Hin) in H. by injection H.
Qed.

Lemma elem_of_idx5 (i : Z) : i ∈ idx5 ↔ 0 ≤ i < 5.
Proof. unfold idx5. rewrite !elem_of_cons, elem_of_nil. lia. Qed.

Lemma elem_of_coords (r c : Z) : (r, c) ∈ coords ↔ isInBoard r c = true.
Proof.
  unfold coords. rewrite isInBoard_spec, list_elem_of_bind. split.
  - intros (r' & Hin & Hr). apply list_elem_of_fmap in Hin as (c' & [= -> ->] & Hc).
    by rewrite <- !elem_of_idx5.
  - intros [Hr Hc]. exists r. rewrite elem_of_idx5. split; [|done].
    apply list_elem_of_fmap. exists c. by rewrite elem_of_idx5.
Qed.

Lemma forEach_ext {A S : Type} (xs : list A) (body body' : S → A → result S) :
  (∀ s x, x ∈ xs → body s x = body' s x) →
  ∀ s, forEach xs s body = forEach xs s body'.
Proof.
  induction xs as [|x xs IH]; intros Hbody s; simpl; [done|].
  rewrite Hbody by (by left). destruct (body' s x); simpl; [|done].
  apply IH. intros ???. apply Hbody. by right.
Qed.

Lemma forEach_append {A S : Type} (xs ys : list A) (body : S → A → result S) (s : S) :
  forEach (xs ++ ys) s body = bind (forEach xs s body) (λ s', forEach ys s' body).
Proof.
  revert s. induction xs as [|x xs IH]; intros s; simpl; [done|].
  destruct (body s x); simpl; [apply IH|done].
Qed.

Lemma forEach_fmap {A B S : Type} (f : A → B) (xs : list A) (body : S → B → result S)
    (s : S) :
  forEach (f <$> xs) s body = forEach xs s (λ s x, body s (f x)).
Proof.
  revert s. induction xs as [|x xs IH]; intros s; simpl; [done|].
  destruct (body s (f x)); simpl; [apply IH|done].
Qed.

(** Two nested loops are one loop over the pairs. *)
Lemma forEach_nested {A B S : Type} (xs : list A) (ys : list B)
    (body : S → A → B → result S) (s : S) :
  forEach xs s (λ s x, forEach ys s (λ s y, body s x y))
  = forEach (xs ≫= λ x, pair x <$> ys) s (λ s xy, body s xy.1 xy.2).
Proof.
  revert s. induction xs as [|x xs IH]; intros s; simpl; [done|].
  rewrite forEach_append, forEach_fmap. simpl.
  destruct (forEach ys s _); simpl; [apply IH|done].
Qed.

(** The two nested loops over the rows and the columns visit the cells at
    [coords]; no access is out of range. *)
Lemma grid_forEach {S : Type} (b : Board) (body : S → Z → Z → Piece → result S) (s : S) :
  forEach idx5 s (λ s r, forEach idx5 s (λ s c, p <- cellAt b r c ;; body s r c p))
  = forEach coords s (λ s rc, body s rc.1 rc.2 (cell b rc.1 rc.2)).
Proof.
  rewrite (forEach_nested idx5 idx5 (λ s r c, p <- cellAt b r c ;; body s r c p)).
  apply forEach_ext. intros s' [r c] Hin%elem_of_coords. simpl.
  by rewrite (cellAt_inBoard b r c Hin).
Qed.

Lemma cells_coords (b : Board) :
  (λ rc : Z * Z, cell b rc.1 rc.2) <$> coords = allCells (Cells b).
Proof.
  destruct b as [[[a0 a1 a2 a3 a4] [b0 b1 b2 b3 b4] [c0 c1 c2 c3 c4]
                  [d0 d1 d2 d3 d4] [f0 f1 f2 f3 f4]] fh sh t].
  reflexivity.
Qed.

Lemma forEach_pure {A S : Type} (xs : list A) (body : S → A → result S) (f : S → A → S) :
  (∀ s x, x ∈ xs → body s x = Ret (f s x)) →
  ∀ s, forEach xs s body = Ret (foldl f s xs).
Proof.
  induction xs as [|x xs IH]; intros Hbody s; simpl; [done|].
  rewrite Hbody; [|by left]. simpl. apply IH. intros ???. apply Hbody. by right.
Qed.

(** A loop over the grid whose body only looks at the piece is a fold over
    the cells. *)
Lemma grid_fold {S : Type} (b : Board) (body : S → Z → Z → Piece → result S)
    (f : S → Piece → S) :
  (∀ s r c p, body s r c p = Ret (f s p)) →
  ∀ s, forEach idx5 s (λ s r, forEach idx5 s (λ s c, p <- cellAt b r c ;; body s r c p))
       = Ret (foldl f s (allCells (Cells b))).
Proof.
  intros Hbody s. rewrite grid_forEach.
  rewrite (forEach_pure _ _ (λ s rc, f s (cell b rc.1 rc.2))) by (intros; apply Hbody).
  by rewrite <- cells_coords, foldl_fmap.
Qed.

Lemma cell_elem_of (b : Board) (r c : Z) :
  isInBoard r c = true → cell b r c ∈ allCells (Cells b).
Proof.
  intros H. rewrite <- cells_coords.
  apply (list_elem_of_fmap_2 (λ rc : Z * Z, cell b rc.1 rc.2) coords (r, c)).
  by apply elem_of_coords.
Qed.

Lemma elem_of_allCells (b : Board) (p : Piece) :
  p ∈ allCells (Cells b) ↔ ∃ r c, isInBoard r c = true ∧ p = cell b r c.
Proof.
  rewrite <- cells_coords, list_elem_of_fmap. split.
  - intros ([r c] & -> & Hin). exists r, c. by rewrite <- elem_of_coords.
  - intros (r & c & Hin & ->). exists (r, c). by rewrite elem_of_coords.
Qed.

(** ** IsGameOver *)

Lemma bool_decide_Exists_cons {A : Type} (P : A → Prop) `{!∀ x, Decision (P x)}
    (x : A) (xs : list A) :
  bool_decide (Exists P (x :: xs)) = bool_decide (P x) || bool_decide (Exists P xs).
Proof.
  apply eq_true_iff_eq. rewrite orb_true_iff, !bool_decide_eq_true, Exists_cons. done.
Qed.

Ltac vm_head f :=
  repeat match goal with
  | |- context [f ?a ?b] =>
      let t := eval vm_compute in (f a b) in
      progress change (f a b) with t
  end.

Ltac vm_decide :=
  repeat match goal with
  | |- context [bool_decide ?P] =>
      let t := eval vm_compute in (bool_decide P) in
      match t with true => idtac | false => idtac end;
      change (bool_decide P) with t
  end.

Lemma kingFlags_foldl (ps : list Piece) (fk sk : bool) :
  foldl kingFlags (fk, sk) ps
  = (fk || bool_decide (Exists (λ x, Type_ x = King ∧ Owner x = First) ps),
     sk || bool_decide (Exists (λ x, Type_ x = King ∧ Owner x = Second) ps)).
Proof.
  revert fk sk. induction ps as [|p ps IH]; intros fk sk; simpl.
  - by rewrite !orb_false_r.
  - rewrite !bool_decide_Exists_cons.
    destruct p as [k o]. destruct k, o; vm_head kingFlags; vm_decide; rewrite IH;
      by rewrite ?orb_true_r, ?orb_false_r.
Qed.

Lemma filter_length_0 {A : Type} (P : A → Prop) `{!∀ x, Decision (P x)} (l : list A) :
  length (filter P l) = 0%nat ↔ ¬ Exists P l.
Proof.
  induction l as [|x l IH]; simpl.
  - split; [intros _ Hex; inversion Hex | done].
  - rewrite Exists_cons. rewrite filter_cons. destruct (decide (P x)); simpl.
    + split; [done | intros []; by left].
    + rewrite IH. tauto.
Qed.

Lemma IsGameOver_flags (b : Board) :
  IsGameOver b =
  Ret (if bool_decide (kingsOf First b = 0%nat) then (true, Second)
       else if bool_decide (kingsOf Second b = 0%nat) then (true, First)
       else (false, PNone)).
Proof.
  unfold IsGameOver.
  rewrite (grid_fold b (λ kings r c p, let '(firstKing, secondKing) := kings in
      if bool_decide (Type_ p = King) then
        if bool_decide (Owner p = First) then Ret (true, secondKing)
        else if bool_decide (Owner p = Second) then Ret (firstKing, true)
        else Ret (firstKing, secondKing)
      else Ret (firstKing, secondKing)) kingFlags).
  2:{ intros [fk sk] r c p. unfold kingFlags. simpl. by repeat case_bool_decide. }
  cbn [bind]. rewrite kingFlags_foldl. cbn [orb negb].
  unfold kingsOf.
  rewrite !(bool_decide_ext _ _ (filter_length_0 _ _)), !bool_decide_not.
  by repeat destruct (bool_decide _).
Qed.

Lemma GetDropMoves_empty_hand (picks : list nat) (b : Board) :
  moverHand b = [] → GetDropMoves picks b = Ret [].
Proof. unfold GetDropMoves. intros ->. reflexivity. Qed.

Lemma GetAllLegalMoves_stuck (picks : list nat) : GetAllLegalMoves picks stuck = Ret [].
Proof.
  unfold GetAllLegalMoves. rewrite GetDropMoves_empty_hand by reflexivity.
  reflexivity.
Qed.

(** C3, as the code has it. [IsGameOver] always returns, and its result
    is decided by which players have a King on the grid, nothing else:
    [(false, None)] exactly when both have one; [(true, Second)] exactly
    when First has none (also when no King at all is left);
    [(true, First)] exactly when First has one and Second has none. So
    with exactly one King on the grid the result is [(true, w)] for the
    owner [w] of that King. The hands and the turn play no part, and a
    position without a legal move is not over while both Kings stand. *)
Theorem IsGameOver_by_kings (b : Board) :
  (∃ over w, IsGameOver b = Ret (over, w)) ∧
  (IsGameOver b = Ret (false, PNone)
     ↔ (0 < kingsOf First b)%nat ∧ (0 < kingsOf Second b)%nat) ∧
  (∀ w, IsGameOver b = Ret (true, w)
     ↔ (w = Second ∧ kingsOf First b = 0%nat)
       ∨ (w = First ∧ (0 < kingsOf First b)%nat ∧ kingsOf Second b = 0%nat)) ∧
  (kingsOnBoard b = 1%nat →
     ∃ w, w ≠ PNone ∧ kingsOf w b = 1%nat ∧ IsGameOver b = Ret (true, w)) ∧
  (∀ b', Cells b' = Cells b → IsGameOver b' = IsGameOver b) ∧
  (∀ picks, GetAllLegalMoves picks stuck = Ret []
            ∧ IsGameOver stuck = Ret (false, PNone)).
Proof.
  rewrite IsGameOver_flags. split_and!.
  - repeat case_bool_decide; eauto.
  - repeat case_bool_decide; split; try done; try lia; intros [= ].
  - intros w. repeat case_bool_decide; split; try (intros [= <-]); 
      try (intros [[-> ?]|[-> [? ?]]]); try done; try lia; eauto.
    right. split_and!; [done|lia|done].
  - unfold kingsOnBoard. intros H1.
    repeat case_bool_decide; try lia.
    + exists Second. split_and!; [done|lia|done].
    + exists First. split_and!; [done|lia|done].
  - intros b' Hb'. rewrite IsGameOver_flags. unfold kingsOf. by rewrite Hb'.
  - intros picks. split; [apply GetAllLegalMoves_stuck|reflexivity].
Qed.

(** C3 as stated fails without Kings: the game is reported over, with
    Second as the winner, although not exactly one King is on the grid. *)
Lemma IsGameOver_no_king_counterexample :
  IsGameOver noKings = Ret (true, Second) ∧ kingsOnBoard noKings = 0%nat
  ∧ ¬ (∀ b w, IsGameOver b = Ret (true, w)
              ↔ kingsOnBoard b = 1%nat ∧ kingsOf w b = 1%nat).
Proof.
  split_and!; [reflexivity..|].
  intros H. destruct (H noKings Second) as [H1 _].
  destruct H1 as [H1 _]; [reflexivity|]. vm_compute in H1. discriminate.
Qed.

(** ** Reading and writing cells *)

Lemma set5_inRange {A : Type} (a : arr5 A) (i : Z) (x : A) :
  0 ≤ i < 5 → ∃ a', set5 a i x = Ret a'.
Proof.
  intros Hi. unfold set5.
  destruct (Z.eqb_spec i 0); [eauto|]. destruct (Z.eqb_spec i 1); [eauto|].
  destruct (Z.eqb_spec i 2); [eauto|]. destruct (Z.eqb_spec i 3); [eauto|].
  destruct (Z.eqb_spec i 4); [eauto|]. lia.
Qed.

Lemma set5_Ret {A : Type} (a a' : arr5 A) (i : Z) (x : A) :
  set5 a i x = Ret a' → 0 ≤ i < 5.
Proof.
  unfold set5.
  destruct (Z.eqb_spec i 0); [lia|]. destruct (Z.eqb_spec i 1); [lia|].
  destruct (Z.eqb_spec i 2); [lia|]. destruct (Z.eqb_spec i 3); [lia|].
  destruct (Z.eqb_spec i 4); [lia|]. done.
Qed.

Ltac case_index i :=
  let H := fresh in
  assert (i = 0 ∨ i = 1 ∨ i = 2 ∨ i = 3 ∨ i = 4) as H by lia;
  destruct H as [->|[->|[->|[->| ->]]]].

Lemma get5_set5 {A : Type} (a a' : arr5 A) (i j : Z) (x : A) :
  set5 a i x = Ret a' →
  get5 a' j = if j =? i then Ret x else get5 a j.
Proof.
  intros H. pose proof (set5_Ret _ _ _ _ H) as Hi.
  case_index i; injection H as <-; unfold get5; cbn [e0 e1 e2 e3 e4];
    destruct (Z.eqb_spec j 0), (Z.eqb_spec j 1), (Z.eqb_spec j 2),
      (Z.eqb_spec j 3), (Z.eqb_spec j 4); try reflexivity; try lia;
    subst; done.
Qed.

Lemma setCell_inBoard (g : Grid) (r c : Z) (p : Piece) :
  isInBoard r c = true → setCell g r c p = Ret (putCell g r c p).
Proof.
  intros [Hr Hc]%isInBoard_spec. unfold putCell, setCell.
  destruct (get5_inRange g r Hr) as (row & -> & _). cbn [bind].
  destruct (set5_inRange row c p Hc) as (row' & ->). cbn [bind].
  by destruct (set5_inRange g r row' Hr) as (g' & ->).
Qed.

Lemma setCell_Ret (g g' : Grid) (r c : Z) (p : Piece) :
  setCell g r c p = Ret g' → isInBoard r c = true ∧ g' = putCell g r c p.
Proof.
  intros H. assert (isInBoard r c = true) as Hin.
  { unfold setCell in H. inv_bind H. apply set5_Ret in H, Hx0.
    apply isInBoard_spec. lia. }
  split; [done|]. rewrite (setCell_inBoard g r c p Hin) in H. by injection H.
Qed.

Lemma getCell_putCell (g : Grid) (r c r' c' : Z) (p : Piece) :
  isInBoard r c = true →
  getCell (putCell g r c p) r' c'
  = if (r' =? r) && (c' =? c) then Ret p else getCell g r' c'.
Proof.
  intros Hin. pose proof (setCell_inBoard g r c p Hin) as Hset.
  apply isInBoard_spec in Hin as [Hr Hc].
  unfold setCell in Hset. inv_bind Hset. unfold getCell.
  rewrite (get5_set5 _ _ _ r' _ Hset).
  destruct (Z.eqb_spec r' r) as [->|]; cbn [bind andb]; [|done].
  rewrite (get5_set5 _ _ _ c' _ Hx0), Hx.
  by destruct (c' =? c).
Qed.

Lemma cell_putCell (b : Board) (r c r' c' : Z) (p : Piece) fh sh t :
  isInBoard r c = true →
  cell (mkBoard (putCell (Cells b) r c p) fh sh t) r' c'
  = if (r' =? r) && (c' =? c) then p else cell b r' c'.
Proof.
  intros Hin. unfold cell, cellAt. cbn [Cells]. rewrite getCell_putCell by done.
  by destruct (_ && _).
Qed.

(** ** Sums *)

Lemma listSum_app {A : Type} (f : A → Z) (l1 l2 : list A) :
  listSum f (l1 ++ l2) = listSum f l1 + listSum f l2.
Proof. unfold listSum. induction l1 as [|x l1 IH]; simpl; [done|]. rewrite IH. lia. Qed.

Lemma listSum_fmap {A B : Type} (g : A → B) (f : B → Z) (l : list A) :
  listSum f (g <$> l) = listSum (f ∘ g) l.
Proof.
  unfold listSum. induction l as [|x l IH]; [done|].
  rewrite fmap_cons. cbn [foldr]. by rewrite IH.
Qed.

Lemma listSum_filter {A : Type} (P : A → Prop) `{!∀ x, Decision (P x)}
    (f : A → Z) (l : list A) :
  listSum f (filter P l) = listSum (λ x, if decide (P x) then f x else 0) l.
Proof.
  unfold listSum. induction l as [|x l IH]; simpl; [done|].
  rewrite filter_cons. destruct (decide (P x)); simpl; rewrite IH; lia.
Qed.

Lemma listSum_ext {A : Type} (f g : A → Z) (l : list A) :
  (∀ x, x ∈ l → f x = g x) → listSum f l = listSum g l.
Proof.
  unfold listSum. induction l as [|x l IH]; intros H; simpl; [done|].
  rewrite H by (by left). rewrite IH; [done|]. intros ??. apply H. by right.
Qed.

Lemma listSum_nonneg {A : Type} (f : A → Z) (l : list A) :
  (∀ x, 0 ≤ f x) → 0 ≤ listSum f l.
Proof.
  intros H. unfold listSum. induction l as [|x l IH]; simpl; [done|].
  specialize (H x). lia.
Qed.

Lemma length_filter_listSum {A : Type} (P : A → Prop) `{!∀ x, Decision (P x)}
    (l : list A) :
  Z.of_nat (length (filter P l)) = listSum (λ x, if decide (P x) then 1 else 0) l.
Proof.
  unfold listSum. induction l as [|x l IH]; simpl; [done|].
  rewrite filter_cons. destruct (decide (P x)); simpl; lia.
Qed.

(** Writing a cell changes a sum over the grid by the difference of the
    new and the old summand. *)
Lemma gridSum_putCell (f : Piece → Z) (g : Grid) (r c : Z) (p old : Piece) :
  getCell g r c = Ret old →
  gridSum f (putCell g r c p) = gridSum f g - f old + f p.
Proof.
  intros Hget. destruct (getCell_Ret _ _ _ _ Hget) as [Hin _].
  apply isInBoard_spec in Hin as [Hr Hc].
  destruct g as [[a0 a1 a2 a3 a4] [b0 b1 b2 b3 b4] [c0 c1 c2 c3 c4]
                 [d0 d1 d2 d3 d4] [f0 f1 f2 f3 f4]].
  case_index r; case_index c; injection Hget as <-;
    cbv -[Z.add Z.sub]; lia.
Qed.

(** ** MakeMove *)

Lemma demote_idemp (k : PieceType) : demote (demote k) = demote k.
Proof. by destruct k. Qed.

Lemma demote_promoteType (k : PieceType) : demote (promoteType k) = demote k.
Proof. by destruct k. Qed.

(** A board move between two in-range cells returns, with this board. *)
Lemma MakeMove_board (b : Board) (move : Move) :
  IsDrop move = false →
  isInBoard (FromRow move) (FromCol move) = true →
  isInBoard (ToRow move) (ToCol move) = true →
  let piece := cell b (FromRow move) (FromCol move) in
  let captured := cell b (ToRow move) (ToCol move) in
  MakeMove b move =
  Ret (mkBoard
         (putCell (putCell (Cells b) (ToRow move) (ToCol move) (movedPiece move piece))
            (FromRow move) (FromCol move) noPiece)
         (handsAfter b captured).1 (handsAfter b captured).2
         (flipTurn (CurrentTurn b))).
Proof.
  intros Hd Hfrom Hto piece captured. unfold MakeMove. rewrite Hd.
  rewrite (cellAt_inBoard b _ _ Hfrom), (cellAt_inBoard b _ _ Hto). cbn [bind].
  subst piece captured. unfold handsAfter, movedPiece.
  repeat case_bool_decide; try done; destruct (Promote move);
    rewrite setCell_inBoard by done; cbn [bind];
    rewrite setCell_inBoard by done; reflexivity.
Qed.

(** A drop on an in-range cell returns, with this board. *)
Lemma MakeMove_drop (b : Board) (move : Move) :
  IsDrop move = true →
  isInBoard (ToRow move) (ToCol move) = true →
  MakeMove b move =
  Ret (mkBoard
         (putCell (Cells b) (ToRow move) (ToCol move)
            (mkPiece (DropPiece move) (CurrentTurn b)))
         (if bool_decide (CurrentTurn b = Second) then FirstHand b
          else removeFirst (DropPiece move) (FirstHand b))
         (if bool_decide (CurrentTurn b = Second)
          then removeFirst (DropPiece move) (SecondHand b) else SecondHand b)
         (flipTurn (CurrentTurn b))).
Proof.
  intros Hd Hto. unfold MakeMove. rewrite Hd.
  rewrite setCell_inBoard by done. cbn [bind].
  by case_bool_decide.
Qed.

(** A move that [MakeMove] executes lies on the board. *)
Lemma MakeMove_Ret (b b' : Board) (move : Move) :
  MakeMove b move = Ret b' →
  isInBoard (ToRow move) (ToCol move) = true ∧
  (IsDrop move = false → isInBoard (FromRow move) (FromCol move) = true).
Proof.
  unfold MakeMove. intros H. inv_bind H. destruct (IsDrop move).
  - inv_bind Hx. apply setCell_Ret in Hx0 as [? _]. done.
  - inv_bind Hx. apply cellAt_Ret in Hx0 as [? _], Hx1 as [? _]. done.
Qed.

(** C6. A board move onto a cell that holds a piece of the opponent puts
    exactly one kind on the end of the mover's hand, the base kind of the
    captured piece, and leaves the other hand alone; the base kind of a
    promoted Silver, Bishop, Rook or Pawn is Silver, Bishop, Rook or Pawn
    and every other kind is its own base kind. *)
Theorem MakeMove_capture_base_kind (b : Board) (move : Move) (captured : Piece) :
  IsDrop move = false →
  isInBoard (FromRow move) (FromCol move) = true →
  cellAt b (ToRow move) (ToCol move) = Ret captured →
  CurrentTurn b ≠ PNone →
  Owner captured ≠ PNone →
  Owner captured ≠ CurrentTurn b →
  (∃ b', MakeMove b move = Ret b' ∧
     handOf (CurrentTurn b) b' = handOf (CurrentTurn b) b ++ [demote (Type_ captured)] ∧
     handOf (Owner captured) b' = handOf (Owner captured) b) ∧
  demote PromotedSilver = Silver ∧ demote PromotedBishop = Bishop ∧
  demote PromotedRook = Rook ∧ demote PromotedPawn = Pawn ∧
  (∀ k, k ∉ [PromotedSilver; PromotedBishop; PromotedRook; PromotedPawn] → demote k = k).
Proof.
  intros Hd Hfrom Hcap Hturn Hocc Hopp.
  apply cellAt_Ret in Hcap as [Hto ->].
  split_and!; try reflexivity.
  - eexists. split; [by apply MakeMove_board|].
    unfold handsAfter. rewrite bool_decide_eq_true_2 by done.
    destruct (CurrentTurn b) eqn:Ht, (Owner (cell b (ToRow move) (ToCol move))) eqn:Ho;
      done.
  - intros k Hk. destruct k; try reflexivity; exfalso; apply Hk; set_solver.
Qed.

Lemma MakeMove_capture_base_kind_witness :
  ∃ b', MakeMove (mkBoard (Cells NewBoard) [] [] Second) (mkMove 0 0 3 0 false Empty false)
        = Ret b' ∧ SecondHand b' = [Pawn] ∧ FirstHand b' = [].
Proof.
  destruct (MakeMove_capture_base_kind (mkBoard (Cells NewBoard) [] [] Second)
              (mkMove 0 0 3 0 false Empty false) (mkPiece Pawn First))
    as [(b' & H1 & H2 & H3) _]; try done.
  exists b'. split_and!; done.
Defined.

(** ** Board moves *)

Lemma boardMovesOk_nil (b : Board) (row col : Z) : boardMovesOk b row col [].
Proof. intros m Hm. by apply elem_of_nil in Hm. Qed.

(** The list stays well formed when the moves to one more destination are
    appended: the promoting move, if the destination is in the zone of a
    kind that promotes, and then the plain move. *)
Lemma boardMovesOk_emit (b : Board) (row col nr nc : Z) (ms : list Move) (pr : bool) :
  boardMovesOk b row col ms →
  isInBoard nr nc = true →
  Owner (cell b nr nc) ≠ Owner (cell b row col) →
  pr = promotable (Type_ (cell b row col)) && canPromote (Owner (cell b row col)) nr →
  boardMovesOk b row col
    ((if pr then ms ++ [promoMove row col nr nc] else ms) ++ [plainMove row col nr nc]).
Proof.
  intros Hms Hin Hown Hpr m Hm.
  assert (∀ m', m' ∈ ms → boardMoveOk b row col
            ((if pr then ms ++ [promoMove row col nr nc] else ms)
               ++ [plainMove row col nr nc]) m') as Hold.
  { intros m' Hm'. destruct (Hms m' Hm') as (H1 & H2 & H3 & H4 & H5 & H6).
    split_and!; try done.
    - apply elem_of_app. left. destruct pr; [apply elem_of_app; by left|done].
    - intros Hz. apply elem_of_app. left.
      destruct pr; [apply elem_of_app; left|]; by apply H5. }
  apply elem_of_app in Hm as [Hm|Hm%list_elem_of_singleton].
  - destruct pr; [|by apply Hold].
    apply elem_of_app in Hm as [Hm|Hm%list_elem_of_singleton]; [by apply Hold|].
    subst m. split_and!; simpl; try done; [by right|..].
    + apply elem_of_app. right. by apply list_elem_of_singleton.
    + intros _. apply elem_of_app. left. apply elem_of_app. right.
      by apply list_elem_of_singleton.
  - subst m. split_and!; simpl; try done; [by left|..].
    + apply elem_of_app. right. by apply list_elem_of_singleton.
    + intros Hz. rewrite <- Hpr in Hz. rewrite Hz. apply elem_of_app. left.
      apply elem_of_app. right. by apply list_elem_of_singleton.
Qed.

Lemma isValidMove_spec (b : Board) (row col nr nc : Z) :
  isInBoard row col = true →
  isValidMove b row col nr nc
  = Ret (isInBoard nr nc && bool_decide (Owner (cell b nr nc) ≠ Owner (cell b row col))).
Proof.
  intros Hfrom. unfold isValidMove. destruct (isInBoard nr nc) eqn:Hto; [|done].
  cbn [negb andb]. by rewrite !cellAt_inBoard.
Qed.

Lemma stepLoop_ok (b : Board) (row col : Z) (dirs : list (Z * Z)) (ms ms' : list Move) :
  isInBoard row col = true →
  promotable (Type_ (cell b row col)) = false →
  boardMovesOk b row col ms →
  stepLoop b row col dirs ms = Ret ms' →
  boardMovesOk b row col ms'.
Proof.
  intros Hfrom Hpr Hms Hrun. unfold stepLoop in Hrun.
  revert ms ms' Hms Hrun. apply forEach_inv.
  intros s [dr dc] s' _ Hs Hbody. cbn [fst snd] in Hbody.
  rewrite isValidMove_spec in Hbody by done. cbn [bind] in Hbody.
  destruct (isInBoard (row + dr) (col + dc)) eqn:Hin; cbn [andb] in Hbody;
    [case_bool_decide|]; injection Hbody as <-; try done.
  apply (boardMovesOk_emit b row col _ _ s false); try done. by rewrite Hpr.
Qed.

Lemma silverLoop_ok (b : Board) (row col : Z) (dirs : list (Z * Z)) (ms ms' : list Move) :
  isInBoard row col = true →
  Type_ (cell b row col) = Silver →
  boardMovesOk b row col ms →
  silverLoop b (cell b row col) row col dirs ms = Ret ms' →
  boardMovesOk b row col ms'.
Proof.
  intros Hfrom Hk Hms Hrun. unfold silverLoop in Hrun.
  revert ms ms' Hms Hrun. apply forEach_inv.
  intros s [dr dc] s' _ Hs Hbody. cbn [fst snd] in Hbody.
  rewrite isValidMove_spec in Hbody by done. cbn [bind] in Hbody.
  destruct (isInBoard (row + dr) (col + dc)) eqn:Hin; cbn [andb] in Hbody;
    [case_bool_decide|]; injection Hbody as <-; try done.
  apply (boardMovesOk_emit b row col _ _ s); try done. by rewrite Hk.
Qed.

Lemma slideLoop_ok (b : Board) (base : PieceType) (row col : Z) (dirs : list (Z * Z))
    (ms ms' : list Move) :
  isInBoard row col = true →
  promotable (Type_ (cell b row col)) = bool_decide (Type_ (cell b row col) = base) →
  boardMovesOk b row col ms →
  slideLoop b (cell b row col) base row col dirs ms = Ret ms' →
  boardMovesOk b row col ms'.
Proof.
  intros Hfrom Hk Hms Hrun. unfold slideLoop in Hrun.
  revert ms ms' Hms Hrun. apply forEach_inv.
  intros s [dr dc] s' _. apply forRange_inv.
  intros t i t' _ Ht Hbody. cbn [fst snd] in Hbody.
  destruct (isInBoard (row + dr * i) (col + dc * i)) eqn:Hin; cbn [negb] in Hbody.
  2:{ destruct Hbody as [[=]|[= <-]]. done. }
  rewrite !cellAt_inBoard in Hbody by done. cbn [bind] in Hbody.
  case_bool_decide as Hown.
  { destruct Hbody as [[=]|[= <-]]. done. }
  assert (t' = (if bool_decide (Type_ (cell b row col) = base)
                     && canPromote (Owner (cell b row col)) (row + dr * i)
                then t ++ [promoMove row col (row + dr * i) (col + dc * i)] else t)
               ++ [plainMove row col (row + dr * i) (col + dc * i)]) as ->.
  { case_bool_decide; by destruct Hbody as [[= <-]|[= <-]]. }
  apply boardMovesOk_emit; try done. by rewrite Hk.
Qed.

(** Every move that [GetPossibleMoves] yields is well formed, and the
    piece that moves is a piece of the side to move. *)
Lemma GetPossibleMoves_ok (b : Board) (row col : Z) (ms : list Move) :
  GetPossibleMoves b row col = Ret ms →
  isInBoard row col = true ∧
  boardMovesOk b row col ms ∧
  (ms ≠ [] → Owner (cell b row col) = CurrentTurn b ∧ Owner (cell b row col) ≠ PNone).
Proof.
  unfold GetPossibleMoves. intros H. inv_bind H.
  apply cellAt_Ret in Hx as [Hfrom ->]. split; [done|].
  destruct (bool_decide (Owner _ = PNone) || _) eqn:Hguard.
  { injection H as <-. split; [apply boardMovesOk_nil|done]. }
  apply orb_false_iff in Hguard as [Ho Ht].
  apply bool_decide_eq_false in Ho. apply bool_decide_eq_false in Ht.
  split; [|intros _; split; [by destruct (decide (Owner (cell b row col) = CurrentTurn b))|done]].
  pose proof (boardMovesOk_nil b row col) as Hnil.
  destruct (Type_ (cell b row col)) eqn:Hk.
  - injection H as <-. done.
  - eapply stepLoop_ok; [done|by rewrite Hk|exact Hnil|exact H].
  - eapply stepLoop_ok; [done|by rewrite Hk|exact Hnil|exact H].
  - eapply silverLoop_ok; [done|done|exact Hnil|exact H].
  - inv_bind H. apply slideLoop_ok in Hx; [|done|by rewrite Hk|done].
    case_bool_decide; [done|]. injection H as <-. done.
  - inv_bind H. apply slideLoop_ok in Hx; [|done|by rewrite Hk|done].
    case_bool_decide; [done|]. injection H as <-. done.
  - rewrite isValidMove_spec in H by done. cbn [bind] in H.
    set (nr := row + _) in H.
    destruct (isInBoard nr col) eqn:Hin; cbn [andb] in H;
      [case_bool_decide|]; injection H as <-; try done.
    apply (boardMovesOk_emit b row col _ _ []); try done. by rewrite Hk.
  - eapply stepLoop_ok; [done|by rewrite Hk|exact Hnil|exact H].
  - inv_bind H. apply slideLoop_ok in Hx; [|done|by rewrite Hk|done].
    case_bool_decide; [|done]. eapply stepLoop_ok; [done|by rewrite Hk|exact Hx|exact H].
  - inv_bind H. apply slideLoop_ok in Hx; [|done|by rewrite Hk|done].
    case_bool_decide; [|done]. eapply stepLoop_ok; [done|by rewrite Hk|exact Hx|exact H].
  - eapply stepLoop_ok; [done|by rewrite Hk|exact Hnil|exact H].
Qed.

Lemma promotable_elem_of (k : PieceType) :
  promotable k = true ↔ k ∈ [Silver; Bishop; Rook; Pawn].
Proof.
  rewrite !elem_of_cons, elem_of_nil. destruct k; simpl; split; try done;
    try (intros _; tauto); intros [?|[?|[?|[?|[]]]]]; done.
Qed.

(** C4. The promotion zone is row 0 (and above) for First and row 4 (and
    below) for Second. Every move that [GetPossibleMoves] yields for the
    piece at [(row, col)] is the plain or the promoting move to its
    destination, and the piece belongs to the side to move. For a Silver,
    Bishop, Rook or Pawn, a destination in the zone comes with both moves
    and a destination outside the zone with the plain move only; every
    other kind has no promoting move. *)
Theorem GetPossibleMoves_promotion :
  (∀ r, canPromote First r = true ↔ r ≤ 0) ∧
  (∀ r, canPromote Second r = true ↔ 4 ≤ r) ∧
  ∀ (b : Board) (row col : Z) (ms : list Move),
    GetPossibleMoves b row col = Ret ms →
    ∀ m, m ∈ ms →
      let kind := Type_ (cell b row col) in
      let plain := plainMove row col (ToRow m) (ToCol m) in
      let promo := promoMove row col (ToRow m) (ToCol m) in
      Owner (cell b row col) = CurrentTurn b ∧
      (m = plain ∨ m = promo) ∧
      (kind ∈ [Silver; Bishop; Rook; Pawn] →
         canPromote (CurrentTurn b) (ToRow m) = true → plain ∈ ms ∧ promo ∈ ms) ∧
      (kind ∈ [Silver; Bishop; Rook; Pawn] →
         canPromote (CurrentTurn b) (ToRow m) = false → m = plain ∧ promo ∉ ms) ∧
      (kind ∉ [Silver; Bishop; Rook; Pawn] → m = plain ∧ promo ∉ ms).
Proof.
  split_and!.
  - intros r. unfold canPromote. simpl. lia.
  - intros r. unfold canPromote. simpl. lia.
  - intros b row col ms Hms m Hm kind plain promo.
    destruct (GetPossibleMoves_ok _ _ _ _ Hms) as (Hfrom & Hok & Hturn).
    destruct Hturn as [Hturn _]; [by intros ->; apply elem_of_nil in Hm|].
    destruct (Hok m Hm) as (Hshape & _ & _ & Hplain & Hzone & Hpr).
    fold kind plain promo in Hshape, Hplain, Hzone, Hpr. rewrite Hturn in Hzone, Hpr.
    assert (promotable kind && canPromote (CurrentTurn b) (ToRow m) = false →
            m = plain ∧ promo ∉ ms) as Hout.
    { intros Hz. split.
      - destruct Hshape as [?|Hm']; [done|]. rewrite Hm' in Hpr. simpl in Hpr.
        rewrite Hz in Hpr. by specialize (Hpr eq_refl).
      - intros Hin. destruct (Hok promo Hin) as (_ & _ & _ & _ & _ & Hpr').
        simpl in Hpr'. fold kind in Hpr'. rewrite Hturn, Hz in Hpr'.
        by specialize (Hpr' eq_refl). }
    split_and!; try done.
    + intros Hk%promotable_elem_of Hc. rewrite Hk, Hc in Hzone. auto.
    + intros Hk%promotable_elem_of Hc. apply Hout. by rewrite Hc, andb_false_r.
    + intros Hk. apply Hout. rewrite <- promotable_elem_of in Hk.
      by destruct (promotable kind).
Qed.

Lemma GetPossibleMoves_promotion_witness :
  ∃ ms, GetPossibleMoves silverBoard 1 2 = Ret ms ∧
        plainMove 1 2 0 2 ∈ ms ∧ promoMove 1 2 0 2 ∈ ms.
Proof.
  destruct GetPossibleMoves_promotion as (_ & _ & H).
  eexists. split; [reflexivity|].
  refine (proj1 (proj2 (proj2 (H silverBoard 1 2 _ eq_refl (promoMove 1 2 0 2) _))) _ _).
  - vm_compute. repeat constructor.
  - vm_compute. repeat constructor.
  - reflexivity.
Defined.

(** ** Drops *)

Lemma shuffle_perm {A : Type} (picks : list nat) (xs : list A) : shuffle picks xs ≡ₚ xs.
Proof.
  revert picks. induction xs as [|x xs IH]; intros picks; simpl; [done|].
  rewrite <- Permutation_middle, take_drop. by rewrite IH.
Qed.

Lemma elem_of_handKinds (b : Board) (k : PieceType) : k ∈ handKinds b ↔ k ∈ moverHand b.
Proof.
  unfold handKinds.
  assert (∀ l (m : gset PieceType),
            k ∈ foldl (λ m p, {[p]} ∪ m) m l ↔ k ∈ m ∨ k ∈ l) as H.
  { induction l as [|p l IH]; intros m; simpl.
    - rewrite elem_of_nil. tauto.
    - rewrite IH, elem_of_union, elem_of_singleton, elem_of_cons. tauto. }
  rewrite H. split; [intros [Hf|?]; [by apply elem_of_empty in Hf|done] | by right].
Qed.

Lemma elem_of_rangeMap (picks : list nat) (b : Board) (k : PieceType) :
  k ∈ rangeMap picks (handKinds b) ↔ k ∈ moverHand b.
Proof.
  unfold rangeMap. rewrite shuffle_perm, elem_of_elements. apply elem_of_handKinds.
Qed.

Lemma NoDup_rangeMap (picks : list nat) (m : gset PieceType) : NoDup (rangeMap picks m).
Proof. unfold rangeMap. rewrite shuffle_perm. apply NoDup_elements. Qed.

Lemma forRange_ext {A S : Type} (xs : list A) (body body' : S → A → result (ctl S)) :
  (∀ s x, x ∈ xs → body s x = body' s x) →
  ∀ s, forRange xs s body = forRange xs s body'.
Proof.
  induction xs as [|x xs IH]; intros Hbody s; simpl; [done|].
  rewrite Hbody by (by left). destruct (body' s x) as [[s'|s']|]; simpl; try done.
  apply IH. intros ???. apply Hbody. by right.
Qed.

(** A loop that returns [true] at the first hit and [false] at the end. *)
Lemma forRange_search {A : Type} (P : A → Prop) `{!∀ x, Decision (P x)} (xs : list A) :
  forRange xs false (λ _ x, if bool_decide (P x) then Ret (Break true) else Ret (Next false))
  = Ret (bool_decide (Exists P xs)).
Proof.
  induction xs as [|x xs IH]; simpl.
  - done.
  - rewrite bool_decide_Exists_cons. destruct (bool_decide (P x)); simpl; [done|].
    apply IH.
Qed.

Lemma hasPawnInColumn_spec (b : Board) (col : Z) (player : Player) :
  0 ≤ col < 5 →
  hasPawnInColumn b col player
  = Ret (bool_decide (Exists (λ r, Owner (cell b r col) = player
                                   ∧ Type_ (cell b r col) = Pawn) idx5)).
Proof.
  intros Hc. unfold hasPawnInColumn.
  rewrite <- (forRange_search (λ r, Owner (cell b r col) = player
                                     ∧ Type_ (cell b r col) = Pawn) idx5).
  apply forRange_ext. intros s r Hr%elem_of_idx5.
  rewrite cellAt_inBoard by (apply isInBoard_spec; lia). cbn [bind].
  rewrite <- bool_decide_and. done.
Qed.

Lemma pawnInColumn_Exists (b : Board) (col : Z) (player : Player) :
  Exists (λ r, Owner (cell b r col) = player ∧ Type_ (cell b r col) = Pawn) idx5
  ↔ pawnInColumn b col player.
Proof.
  rewrite Exists_exists. unfold pawnInColumn.
  split; intros (r & Hr & H); exists r; by rewrite elem_of_idx5 in *.
Qed.

(** [GetDropMoves] as a list comprehension: for every kind in the order of
    the map iteration, for every cell in the order of the grid, the drop
    unless the cell is taken or a Pawn rule bars it. *)
Lemma GetDropMoves_eq (picks : list nat) (b : Board) :
  GetDropMoves picks b
  = Ret (rangeMap picks (handKinds b) ≫= λ k, coords ≫= dropChunk b k).
Proof.
  unfold GetDropMoves. fold (handKinds b).
  rewrite (forEach_app _ (λ k, coords ≫= dropChunk b k)); [done|].
  intros s k _.
  rewrite (grid_forEach b (λ moves r c t,
    if bool_decide (Owner t = PNone) then
      twoPawns <- (if bool_decide (k = Pawn)
                   then hasPawnInColumn b c (CurrentTurn b) else Ret false) ;;
      if twoPawns then Ret moves
      else if bool_decide (k = Pawn)
              && (bool_decide (CurrentTurn b = First) && (r =? 0)
                  || bool_decide (CurrentTurn b = Second) && (r =? 4))
      then Ret moves
      else Ret (moves ++ [mkMove (-1) (-1) r c true k false])
    else Ret moves)).
  apply forEach_app. intros s' [r c] [Hr Hc]%elem_of_coords%isInBoard_spec.
  unfold dropChunk, pawnBarred, farthestRank. cbn [fst snd].
  case_bool_decide; [|by rewrite app_nil_r].
  rewrite hasPawnInColumn_spec by done.
  destruct (bool_decide (k = Pawn)); cbn [bind andb]; [|done].
  destruct (bool_decide (Exists _ _)); cbn [orb]; [by rewrite app_nil_r|].
  destruct (_ || _); [by rewrite app_nil_r|done].
Qed.

Lemma NoDup_coords : NoDup coords.
Proof. apply (bool_decide_unpack _). by vm_compute. Qed.

Lemma elem_of_dropChunk (b : Board) (k : PieceType) (rc : Z * Z) (m : Move) :
  m ∈ dropChunk b k rc ↔
  m = dropMove rc.1 rc.2 k ∧ Owner (cell b rc.1 rc.2) = PNone
  ∧ pawnBarred b k rc.1 rc.2 = false.
Proof.
  unfold dropChunk. case_bool_decide; [destruct (pawnBarred _ _ _ _)|];
    rewrite ?elem_of_nil, ?list_elem_of_singleton;
    (split; [try done; by intros ->|by intros (? & ? & ?)]).
Qed.

Lemma NoDup_drops (b : Board) (ks : list PieceType) :
  NoDup ks → NoDup (ks ≫= λ k, coords ≫= dropChunk b k).
Proof.
  intros Hks. apply NoDup_bind; [| |done].
  - intros k1 k2 m _ _ (rc1 & H1 & _)%list_elem_of_bind (rc2 & H2 & _)%list_elem_of_bind.
    apply elem_of_dropChunk in H1 as (-> & _), H2 as ([= _ _ ->] & _). done.
  - intros k _. apply NoDup_bind; [| |apply NoDup_coords].
    + intros [r1 c1] [r2 c2] m _ _ H1 H2.
      apply elem_of_dropChunk in H1 as (-> & _), H2 as ([= -> ->] & _). done.
    + intros rc _. unfold dropChunk. repeat case_match; try apply NoDup_nil_2.
      apply NoDup_singleton.
Qed.

(** C5. [GetDropMoves] always returns, no drop occurs twice, and the drops
    are exactly these: a kind [k] of the mover's hand on an in-range cell
    without an owner, unless [k] is a Pawn and the mover has an unpromoted
    Pawn in that column, or [k] is a Pawn and the row is the mover's
    farthest rank (row 0 for First, row 4 for Second). *)
Theorem GetDropMoves_exact (picks : list nat) (b : Board) :
  ∃ drops,
    GetDropMoves picks b = Ret drops ∧
    NoDup drops ∧
    (∀ m, m ∈ drops ↔
       ∃ k r c,
         m = mkMove (-1) (-1) r c true k false ∧
         k ∈ moverHand b ∧
         isInBoard r c = true ∧
         Owner (cell b r c) = PNone ∧
         ¬ (k = Pawn ∧ pawnInColumn b c (CurrentTurn b)) ∧
         ¬ (k = Pawn ∧ (CurrentTurn b = First ∧ r = 0 ∨ CurrentTurn b = Second ∧ r = 4))).
Proof.
  eexists. split; [apply GetDropMoves_eq|]. split.
  - apply NoDup_drops, NoDup_rangeMap.
  - intros m. rewrite list_elem_of_bind. split.
    + intros (k & (rc & Hm & Hrc)%list_elem_of_bind & Hk%elem_of_rangeMap).
      destruct rc as [r c]. apply elem_of_coords in Hrc.
      apply elem_of_dropChunk in Hm as (-> & Hfree & Hbar). cbn [fst snd] in *.
      exists k, r, c. split_and!; try done.
      * intros [-> Hp%pawnInColumn_Exists]. unfold pawnBarred in Hbar.
        by rewrite (bool_decide_eq_true_2 _ Hp) in Hbar.
      * intros [-> Hfar]. unfold pawnBarred, farthestRank in Hbar.
        destruct Hfar as [[Ht ->]|[Ht ->]]; rewrite Ht in Hbar; cbn in Hbar;
          by rewrite orb_true_r in Hbar.
    + intros (k & r & c & -> & Hk & Hin & Hfree & Hcol & Hfar).
      exists k. split; [|by apply elem_of_rangeMap].
      apply list_elem_of_bind. exists (r, c). split; [|by apply elem_of_coords].
      apply elem_of_dropChunk. split_and!; try done.
      unfold pawnBarred, farthestRank. case_bool_decide as Hp; [|done]. cbn [andb].
      apply orb_false_iff. split.
      * apply bool_decide_eq_false. rewrite pawnInColumn_Exists. naive_solver.
      * apply orb_false_iff. split; apply andb_false_iff.
        -- destruct (decide (CurrentTurn b = First)) as [Ht|Ht];
             [right; apply Z.eqb_neq; naive_solver|left; by apply bool_decide_eq_false].
        -- destruct (decide (CurrentTurn b = Second)) as [Ht|Ht];
             [right; apply Z.eqb_neq; naive_solver|left; by apply bool_decide_eq_false].
Qed.

(** ** All legal moves *)

Lemma stepLoop_total (b : Board) (row col : Z) (dirs : list (Z * Z)) (ms : list Move) :
  isInBoard row col = true → ∃ ms', stepLoop b row col dirs ms = Ret ms'.
Proof.
  intros Hfrom. apply forEach_total. intros s [dr dc] _. cbn [fst snd].
  rewrite isValidMove_spec by done. cbn [bind]. destruct (_ && _); eauto.
Qed.

Lemma silverLoop_total (b : Board) (piece : Piece) (row col : Z) (dirs : list (Z * Z))
    (ms : list Move) :
  isInBoard row col = true → ∃ ms', silverLoop b piece row col dirs ms = Ret ms'.
Proof.
  intros Hfrom. apply forEach_total. intros s [dr dc] _. cbn [fst snd].
  rewrite isValidMove_spec by done. cbn [bind]. destruct (_ && _); eauto.
Qed.

Lemma slideLoop_total (b : Board) (piece : Piece) (base : PieceType) (row col : Z)
    (dirs : list (Z * Z)) (ms : list Move) :
  ∃ ms', slideLoop b piece base row col dirs ms = Ret ms'.
Proof.
  apply forEach_total. intros s [dr dc] _. apply forRange_total.
  intros t i _. cbn [fst snd].
  destruct (isInBoard (row + dr * i) (col + dc * i)) eqn:Hin; cbn [negb]; [|eauto].
  rewrite !cellAt_inBoard by done. cbn [bind].
  repeat case_bool_decide; eauto.
Qed.

Lemma GetPossibleMoves_total (b : Board) (row col : Z) :
  isInBoard row col = true → ∃ ms, GetPossibleMoves b row col = Ret ms.
Proof.
  intros Hfrom. unfold GetPossibleMoves. rewrite cellAt_inBoard by done. cbn [bind].
  destruct (_ || _); [eauto|].
  destruct (Type_ (cell b row col)); eauto using stepLoop_total, silverLoop_total.
  - destruct (slideLoop_total b (cell b row col) Bishop row col diagDirs []) as [ms ->].
    cbn [bind]. case_bool_decide; eauto using stepLoop_total.
  - destruct (slideLoop_total b (cell b row col) Rook row col orthDirs []) as [ms ->].
    cbn [bind]. case_bool_decide; eauto using stepLoop_total.
  - rewrite isValidMove_spec by done. cbn [bind]. destruct (_ && _); eauto.
  - destruct (slideLoop_total b (cell b row col) Bishop row col diagDirs []) as [ms ->].
    cbn [bind]. case_bool_decide; eauto using stepLoop_total.
  - destruct (slideLoop_total b (cell b row col) Rook row col orthDirs []) as [ms ->].
    cbn [bind]. case_bool_decide; eauto using stepLoop_total.
Qed.

(** [GetAllLegalMoves] always returns: the board moves, then the drops. *)
Lemma GetAllLegalMoves_eq (picks : list nat) (b : Board) :
  GetAllLegalMoves picks b = Ret (boardMoves b ++ dropMoves picks b).
Proof.
  unfold GetAllLegalMoves.
  rewrite (grid_forEach b (λ moves r c t,
    if bool_decide (Owner t = CurrentTurn b) then
      ms <- GetPossibleMoves b r c ;; Ret (moves ++ ms)
    else Ret moves)).
  rewrite (forEach_app coords (λ rc,
    if bool_decide (Owner (cell b rc.1 rc.2) = CurrentTurn b)
    then orElse (GetPossibleMoves b rc.1 rc.2) [] else [])).
  - cbn [bind]. by rewrite GetDropMoves_eq.
  - intros s [r c] Hin%elem_of_coords. cbn [fst snd].
    case_bool_decide; [|by rewrite app_nil_r].
    by destruct (GetPossibleMoves_total b r c Hin) as [ms ->].
Qed.

(** Two runs of [GetAllLegalMoves] on one state yield the same board
    moves in the same order, and the same drops up to the order of the
    kinds. *)
Lemma GetAllLegalMoves_perm (picks1 picks2 : list nat) (b : Board) (ms1 ms2 : list Move) :
  GetAllLegalMoves picks1 b = Ret ms1 →
  GetAllLegalMoves picks2 b = Ret ms2 →
  ms1 ≡ₚ ms2.
Proof.
  rewrite !GetAllLegalMoves_eq. intros [= <-] [= <-].
  apply Permutation_app_head. unfold dropMoves, rangeMap.
  by rewrite !shuffle_perm.
Qed.

Lemma elem_of_boardMoves (b : Board) (m : Move) :
  m ∈ boardMoves b →
  ∃ r c ms, GetPossibleMoves b r c = Ret ms ∧ m ∈ ms.
Proof.
  intros ([r c] & Hm & Hin%elem_of_coords)%list_elem_of_bind. cbn [fst snd] in Hm.
  case_bool_decide; [|by apply elem_of_nil in Hm].
  destruct (GetPossibleMoves_total b r c Hin) as [ms Hms]. rewrite Hms in Hm.
  eauto.
Qed.

Lemma elem_of_dropMoves (picks : list nat) (b : Board) (m : Move) :
  m ∈ dropMoves picks b →
  ∃ k r c, m = dropMove r c k ∧ k ∈ moverHand b ∧ isInBoard r c = true
           ∧ Owner (cell b r c) = PNone.
Proof.
  intros (k & (rc & Hm & Hrc)%list_elem_of_bind & Hk%elem_of_rangeMap)%list_elem_of_bind.
  destruct rc as [r c]. apply elem_of_coords in Hrc.
  apply elem_of_dropChunk in Hm as (-> & Hfree & _). eauto 10.
Qed.

Lemma GetAllLegalMoves_legal (picks : list nat) (b : Board) (ms : list Move) (m : Move) :
  GetAllLegalMoves picks b = Ret ms → m ∈ ms → legalMove b m.
Proof.
  rewrite GetAllLegalMoves_eq. intros [= <-] [Hm|Hm]%elem_of_app.
  - left. apply elem_of_boardMoves in Hm as (r & c & ms & Hms & Hm).
    destruct (GetPossibleMoves_ok _ _ _ _ Hms) as (Hfrom & Hok & Hturn).
    destruct Hturn as [Hturn Hocc]; [by intros ->; apply elem_of_nil in Hm|].
    destruct (Hok m Hm) as (Hshape & Hto & Hown & _).
    assert (IsDrop m = false ∧ FromRow m = r ∧ FromCol m = c) as (? & -> & ->).
    { by destruct Hshape as [-> | ->]. }
    split_and!; try done; congruence.
  - right. apply elem_of_dropMoves in Hm as (k & r & c & -> & ? & ? & ?). done.
Qed.

(** [MakeMove] executes every legal move. *)
Lemma MakeMove_legal (b : Board) (m : Move) :
  legalMove b m → ∃ b', MakeMove b m = Ret b'.
Proof.
  intros [(Hd & Hfrom & Hto & _)|(Hd & Hto & _)].
  - rewrite MakeMove_board by done. eauto.
  - rewrite MakeMove_drop by done. eauto.
Qed.

(** ** Conservation of material *)

Lemma onGrid_occupied (f : PieceType → Z) (p : Piece) :
  Owner p ≠ PNone → onGrid f p = f (Type_ p).
Proof. intros H. unfold onGrid. by destruct (decide (occupied p)). Qed.

Lemma onGrid_free (f : PieceType → Z) (p : Piece) : Owner p = PNone → onGrid f p = 0.
Proof.
  intros H. unfold onGrid. destruct (decide (occupied p)) as [Ho|Ho]; [|done].
  by destruct Ho.
Qed.

Lemma measure_eq (f : PieceType → Z) (b : Board) :
  measure f b
  = gridSum (onGrid f) (Cells b) + listSum f (FirstHand b) + listSum f (SecondHand b).
Proof.
  unfold measure, kindsInPlay, gridSum.
  rewrite !listSum_app, listSum_fmap, listSum_filter. unfold onGrid. simpl. lia.
Qed.

Lemma listSum_removeFirst (f : PieceType → Z) (k : PieceType) (hand : list PieceType) :
  k ∈ hand → listSum f (removeFirst k hand) = listSum f hand - f k.
Proof.
  unfold listSum. induction hand as [|p hand IH]; intros Hk; simpl.
  - by apply elem_of_nil in Hk.
  - case_bool_decide as Hp; [subst; lia|].
    apply elem_of_cons in Hk as [->|Hk]; [done|]. simpl. rewrite IH by done. lia.
Qed.

Lemma listSum_snoc {A : Type} (f : A → Z) (l : list A) (x : A) :
  listSum f (l ++ [x]) = listSum f l + f x.
Proof. rewrite listSum_app. unfold listSum. simpl. lia. Qed.

Lemma flipTurn_player (p : Player) : flipTurn p ≠ PNone.
Proof. unfold flipTurn. by case_bool_decide. Qed.

(** A legal move relocates material and keeps every sum that does not see
    the difference between a kind and its promoted form. *)
Lemma measure_MakeMove (f : PieceType → Z) (b b' : Board) (m : Move) :
  (∀ k, f (demote k) = f k) →
  (∀ k, f (promoteType k) = f k) →
  CurrentTurn b ≠ PNone →
  legalMove b m →
  MakeMove b m = Ret b' →
  measure f b' = measure f b.
Proof.
  intros Hdem Hpro Hturn Hlegal Hrun. rewrite !measure_eq.
  destruct Hlegal as [(Hd & Hfrom & Hto & Hmine & _ & Hown)|(Hd & Hto & Hk & Hfree)].
  - rewrite MakeMove_board in Hrun by done. injection Hrun as <-. cbn [Cells FirstHand SecondHand].
    set (piece := cell b (FromRow m) (FromCol m)) in *.
    set (captured := cell b (ToRow m) (ToCol m)) in *.
    assert (getCell (putCell (Cells b) (ToRow m) (ToCol m) (movedPiece m piece))
              (FromRow m) (FromCol m) = Ret piece) as Hget.
    { rewrite getCell_putCell by done.
      destruct (Z.eqb_spec (FromRow m) (ToRow m)) as [Hr|Hr];
        destruct (Z.eqb_spec (FromCol m) (ToCol m)) as [Hc|Hc]; cbn [andb];
        try (fold (cellAt b (FromRow m) (FromCol m)); by rewrite cellAt_inBoard).
      exfalso. apply Hown. subst captured piece. by rewrite <- Hr, <- Hc. }
    rewrite (gridSum_putCell _ _ _ _ _ _ Hget).
    rewrite (gridSum_putCell _ _ _ _ _ captured)
      by (fold (cellAt b (ToRow m) (ToCol m)); by rewrite cellAt_inBoard).
    assert (onGrid f (movedPiece m piece) = onGrid f piece) as ->.
    { unfold movedPiece. destruct (Promote m); [|done].
      rewrite !onGrid_occupied by (cbn [Owner]; congruence). apply Hpro. }
    assert (onGrid f noPiece = 0) as ->.
    { by apply onGrid_free. }
    assert (onGrid f captured
            = if bool_decide (Owner captured ≠ PNone) then f (Type_ captured) else 0) as ->.
    { case_bool_decide as Hocc; [by apply onGrid_occupied|].
      apply onGrid_free. by destruct (decide (Owner captured = PNone)). }
    unfold handsAfter. case_bool_decide as Hocc; [|cbn [fst snd]; lia].
    case_bool_decide; cbn [fst snd]; rewrite listSum_snoc, Hdem; lia.
  - rewrite MakeMove_drop in Hrun by done. injection Hrun as <-. cbn [Cells FirstHand SecondHand].
    rewrite (gridSum_putCell _ _ _ _ _ (cell b (ToRow m) (ToCol m)))
      by (fold (cellAt b (ToRow m) (ToCol m)); by rewrite cellAt_inBoard).
    assert (onGrid f (cell b (ToRow m) (ToCol m)) = 0) as ->.
    { by apply onGrid_free. }
    assert (onGrid f (mkPiece (DropPiece m) (CurrentTurn b)) = f (DropPiece m)) as ->.
    { by apply onGrid_occupied. }
    unfold moverHand in Hk.
    case_bool_decide; rewrite listSum_removeFirst by done; lia.
Qed.

Lemma step_legal (b b' : Board) :
  step b b' → ∃ m, legalMove b m ∧ MakeMove b m = Ret b'.
Proof.
  intros (picks & ms & m & Hms & Hm & Hrun). exists m. split; [|done].
  by eapply GetAllLegalMoves_legal.
Qed.

Lemma MakeMove_turn (b b' : Board) (m : Move) :
  MakeMove b m = Ret b' → CurrentTurn b' = flipTurn (CurrentTurn b).
Proof.
  intros Hrun. destruct (MakeMove_Ret _ _ _ Hrun) as [Hto Hfrom].
  destruct (IsDrop m) eqn:Hd.
  - rewrite MakeMove_drop in Hrun by done. by injection Hrun as <-.
  - rewrite MakeMove_board in Hrun by auto. by injection Hrun as <-.
Qed.

Lemma reachable_turn (b : Board) : reachable b → CurrentTurn b ≠ PNone.
Proof.
  unfold reachable. intros H. apply rtc_inv_r in H as [<-|(b0 & _ & Hstep)]; [done|].
  destruct (step_legal _ _ Hstep) as (m & _ & Hrun).
  rewrite (MakeMove_turn _ _ _ Hrun). apply flipTurn_player.
Qed.

Lemma measure_reachable (f : PieceType → Z) (b : Board) :
  (∀ k, f (demote k) = f k) →
  (∀ k, f (promoteType k) = f k) →
  reachable b → measure f b = measure f NewBoard.
Proof.
  intros Hdem Hpro. unfold reachable. revert b.
  apply rtc_ind_r; [done|]. intros b1 b2 Hb1 Hstep IH.
  rewrite <- IH. destruct (step_legal _ _ Hstep) as (m & Hlegal & Hrun).
  eapply measure_MakeMove; try done. by apply reachable_turn.
Qed.

Lemma countBase_measure (k : PieceType) (b : Board) :
  Z.of_nat (countBase k b) = measure (λ x, if decide (demote x = k) then 1 else 0) b.
Proof. unfold countBase, measure. apply length_filter_listSum. Qed.

Lemma step_intro (picks : list nat) (b b' : Board) (m : Move) :
  m ∈ orElse (GetAllLegalMoves picks b) [] → MakeMove b m = Ret b' → step b b'.
Proof.
  intros Hm Hrun. exists picks, (orElse (GetAllLegalMoves picks b) []), m.
  split_and!; try done. by rewrite GetAllLegalMoves_eq.
Qed.

(** One ply of a concrete game: the move is looked up in the list that
    [GetAllLegalMoves] computes, and [MakeMove] is run. *)
Ltac play m :=
  match goal with
  | |- rtc step ?b _ =>
      let r := eval vm_compute in (MakeMove b m) in
      match r with
      | Ret ?b' =>
          apply (rtc_l step b b');
          [apply (step_intro [] b b' m);
           [vm_compute; repeat constructor | vm_compute; reflexivity]|]
      end
  end.

Lemma reachable_afterPromotion : reachable afterPromotion.
Proof.
  unfold reachable.
  play (plainMove 4 3 1 0).
  play (plainMove 1 4 2 4).
  play (promoMove 1 0 0 1).
  apply rtc_refl.
Qed.

(** C2, as the code has it: in every state of a game, for every kind, the
    number of pieces on the grid and in both hands whose base kind it is
    (a promoted piece counts as the kind it was promoted from) is the
    number in the initial position. *)
Theorem base_material_conserved (b : Board) (k : PieceType) :
  reachable b → countBase k b = countBase k NewBoard.
Proof.
  intros Hb. apply Nat2Z.inj. rewrite !countBase_measure.
  apply measure_reachable; [..|done].
  - intros x. by rewrite demote_idemp.
  - intros x. by rewrite demote_promoteType.
Qed.

Lemma base_material_conserved_witness :
  countBase Bishop afterPromotion = countBase Bishop NewBoard.
Proof. apply base_material_conserved, reachable_afterPromotion. Defined.

(** C2 as stated fails after a promotion: the state is reachable, and it
    has one Bishop and one promoted Bishop where the initial position has
    two Bishops and no promoted one. *)
Lemma kind_count_counterexample :
  reachable afterPromotion ∧
  countKind Bishop afterPromotion = 1%nat ∧ countKind Bishop NewBoard = 2%nat ∧
  countKind PromotedBishop afterPromotion = 1%nat ∧
  countKind PromotedBishop NewBoard = 0%nat.
Proof. split; [apply reachable_afterPromotion|]. by vm_compute. Qed.

(** ** Kings are not dropped *)

Lemma listSum_le {A : Type} (f g : A → Z) (l : list A) :
  (∀ x, f x ≤ g x) → listSum f l ≤ listSum g l.
Proof.
  intros H. unfold listSum. induction l as [|x l IH]; simpl; [done|].
  specialize (H x). lia.
Qed.

Lemma listSum_plus {A : Type} (f g : A → Z) (l : list A) :
  listSum (λ x, f x + g x) l = listSum f l + listSum g l.
Proof. unfold listSum. induction l as [|x l IH]; simpl; lia. Qed.

Lemma listSum_indicator_0 {A : Type} (P : A → Prop) `{!∀ x, Decision (P x)}
    (l : list A) (x : A) :
  listSum (λ y, if decide (P y) then 1 else 0) l ≤ 0 → x ∈ l → ¬ P x.
Proof.
  unfold listSum. induction l as [|y l IH]; intros Hsum Hx HP; simpl in Hsum.
  - by apply elem_of_nil in Hx.
  - assert (0 ≤ listSum (λ y, (if decide (P y) then 1 else 0)) l) as Hnn.
    { apply listSum_nonneg. intros z. by destruct (decide (P z)). }
    unfold listSum in Hnn.
    apply elem_of_cons in Hx as [->|Hx].
    + rewrite decide_True in Hsum by done. lia.
    + apply IH; [|done|done]. destruct (decide (P y)); lia.
Qed.

(** In a state of a game with a King of each player on the grid, no King
    is in a hand. *)
Lemma reachable_kings_on_grid (b : Board) :
  reachable b →
  (0 < kingsOf First b)%nat → (0 < kingsOf Second b)%nat →
  (King ∉ FirstHand b) ∧ (King ∉ SecondHand b).
Proof.
  intros Hb HF HS.
  set (isKing := λ x : PieceType, if decide (demote x = King) then 1 else 0).
  assert (measure isKing b = 2) as Hm.
  { rewrite (measure_reachable isKing b); [done|..|done]; intros x; unfold isKing.
    - by rewrite demote_idemp.
    - by rewrite demote_promoteType. }
  rewrite measure_eq in Hm.
  assert (Z.of_nat (kingsOf First b) + Z.of_nat (kingsOf Second b)
          ≤ gridSum (onGrid isKing) (Cells b)) as Hgrid.
  { unfold kingsOf, gridSum. rewrite !length_filter_listSum, <- listSum_plus.
    apply listSum_le. intros [k o]. unfold onGrid, occupied, isKing. cbn [Type_ Owner].
    repeat destruct (decide _); try lia; destruct k, o;
      intuition (try discriminate; try congruence). }
  assert (0 ≤ listSum isKing (FirstHand b) ∧ 0 ≤ listSum isKing (SecondHand b)) as [H1 H2].
  { split; apply listSum_nonneg; intros x; unfold isKing; by destruct (decide _). }
  split; intros Hin.
  - eapply (listSum_indicator_0 (λ x, demote x = King) (FirstHand b) King); try done.
    fold isKing. lia.
  - eapply (listSum_indicator_0 (λ x, demote x = King) (SecondHand b) King); try done.
    fold isKing. lia.
Qed.

Lemma reachable_afterRecapture : reachable afterRecapture.
Proof.
  unfold reachable. etrans; [apply reachable_afterPromotion|].
  play (plainMove 0 0 0 1).
  apply rtc_refl.
Qed.

(** C10. In a state of a game in which [IsGameOver] finds both Kings on
    the grid, no move of [GetDropMoves] drops a King. *)
Theorem no_king_drop (b : Board) (picks : list nat) (drops : list Move) (m : Move) :
  reachable b →
  IsGameOver b = Ret (false, PNone) →
  GetDropMoves picks b = Ret drops →
  m ∈ drops →
  DropPiece m ≠ King.
Proof.
  intros Hb Hover Hdrops Hm Hk.
  rewrite IsGameOver_flags in Hover.
  repeat case_bool_decide; try done.
  destruct (reachable_kings_on_grid b Hb) as [HF HS]; [lia..|].
  rewrite GetDropMoves_eq in Hdrops. injection Hdrops as <-.
  apply elem_of_dropMoves in Hm as (k & r & c & -> & Hin & _).
  unfold dropMove in Hk. cbn [DropPiece] in Hk. subst k. unfold moverHand in Hin.
  by case_bool_decide.
Qed.

Lemma no_king_drop_witness :
  DropPiece (dropMove 2 2 Bishop) ≠ King.
Proof.
  apply (no_king_drop afterRecapture [] (orElse (GetDropMoves [] afterRecapture) [])).
  - apply reachable_afterRecapture.
  - reflexivity.
  - reflexivity.
  - vm_compute. repeat constructor.
Defined.

(** ** The candidate loops *)

Lemma indexedFrom_cons {A : Type} (k : nat) (x : A) (xs : list A) :
  indexedFrom k (x :: xs) = (k, x) :: indexedFrom (S k) xs.
Proof. reflexivity. Qed.

Lemma runningMax_ge (a : Z) (es : list Z) : a ≤ runningMax a es.
Proof.
  unfold runningMax. revert a. induction es as [|e es IH]; intros a; simpl; [done|].
  specialize (IH (Z.max a e)). lia.
Qed.

Lemma runningMax_bounded (a : Z) (es : list Z) :
  Forall (λ e, e ≤ a) es → runningMax a es = a.
Proof.
  unfold runningMax. induction 1 as [|e es He Hes IH]; simpl; [done|].
  by rewrite Z.max_l.
Qed.

Lemma runningMin_le (a : Z) (es : list Z) : runningMin a es ≤ a.
Proof.
  unfold runningMin. revert a. induction es as [|e es IH]; intros a; simpl; [done|].
  specialize (IH (Z.min a e)). lia.
Qed.

Lemma runningMin_bounded (a : Z) (es : list Z) :
  Forall (λ e, a ≤ e) es → runningMin a es = a.
Proof.
  unfold runningMin. induction 1 as [|e es He Hes IH]; simpl; [done|].
  by rewrite Z.min_l.
Qed.

Lemma maxLoop_trace_gen (ev : nat → Move → Z → Z → result Z) (beta : Z) (ms : list Move) :
  ∀ (k : nat) (me : Z) (bm : option Move) (a : Z) (st' : loopState),
    forRange (indexedFrom k ms) (me, bm, a) (maxStep ev beta) = Ret st' →
    ∃ es,
      examinedMax (λ i, ev (k + i)%nat) ms a beta es ∧
      st'.2 = runningMax a es ∧
      firstBest Z.gt me bm ms es st'.1.1 st'.1.2 ∧
      st'.1.1 = runningMax me es.
Proof.
  induction ms as [|m rest IH]; intros k me bm a st' Hrun.
  { injection Hrun as <-. exists []. unfold examinedMax, firstBest. simpl.
    split_and!; try done; try lia.
    left. split_and!; try done. }
  rewrite indexedFrom_cons in Hrun. cbn [forRange] in Hrun.
  apply bind_Ret in Hrun as (r & Hstep & Hrun).
  unfold maxStep in Hstep. apply bind_Ret in Hstep as (e & He & Hstep).
  set (me1 := Z.max me e). set (a1 := Z.max a e).
  set (bm1 := if e >? me then Some m else bm).
  assert (r = if beta <=? a1 then Break (me1, bm1, a1) else Next (me1, bm1, a1)) as ->.
  { subst me1 a1 bm1. destruct (Z.gtb_spec e me);
      [rewrite (Z.max_r me e) by lia|rewrite (Z.max_l me e) by lia];
      destruct (beta <=? Z.max a e); by injection Hstep as <-. }
  assert (firstBest Z.gt me bm (m :: rest) [e] me1 bm1) as Hfirst.
  { subst me1 bm1. destruct (Z.gtb_spec e me).
    - right. exists 0%nat, m. rewrite Z.max_r by lia.
      split_and!; try done; try lia; intros j e' Hj; lia.
    - left. rewrite Z.max_l by lia. split_and!; try done.
      apply Forall_singleton. lia. }
  destruct (Z.leb_spec beta a1) as [Hcut|Hcut].
  - injection Hrun as <-. exists [e]. cbn [fst snd].
    split_and!; [|done..].
    unfold examinedMax. split_and!; simpl; [lia| |intros i Hi; lia|done].
    intros [|i] m' e' Hm' He'; simplify_eq/=. by rewrite Nat.add_0_r.
  - destruct (IH (S k) me1 bm1 a1 st' Hrun) as (es & Hex & Ha & Hbest & Hme).
    destruct Hex as (Hlen & Hev & Hlt & Hcutoff).
    exists (e :: es). split_and!.
    + unfold examinedMax. split_and!; simpl.
      * lia.
      * intros [|i] m' e' Hm' He'; simplify_eq/=; [by rewrite Nat.add_0_r|].
        rewrite Nat.add_succ_r. by apply Hev.
      * intros [|i] Hi; simpl; [done|]. apply Hlt. lia.
      * intros Hl. apply Hcutoff. lia.
    + done.
    + rewrite Hme. fold (runningMax me1 es).
      destruct Hbest as [(Hall & Hv & Hbm)|(i & m' & Hm' & Hbm & Hei & Hgt & Hbefore)].
      * rewrite Hv in Hme. rewrite <- Hme.
        destruct Hfirst as [(Hall1 & Hv1 & Hbm1)|(i & m' & Hm' & Hbm' & Hei & Hgt & Hbefore)].
        -- left. split_and!; [|done|congruence].
           rewrite Hv1 in Hall. apply Forall_cons. split; [|done].
           by inversion Hall1.
        -- right. destruct i as [|i]; [|simpl in Hei; by rewrite lookup_nil in Hei].
           exists 0%nat, m'. split_and!; try done; [congruence|].
           intros j e' Hj. lia.
      * rewrite Hme in Hei, Hgt, Hbefore. right. exists (S i), m'.
        split_and!; try done.
        -- subst me1. lia.
        -- intros [|j] e' Hj He'; simplify_eq/=.
           ++ subst me1. lia.
           ++ eapply Hbefore; [|done]. lia.
    + done.
Qed.
Lemma minLoop_trace_gen (ev : nat → Move → Z → Z → result Z) (alpha : Z) (ms : list Move) :
  ∀ (k : nat) (me : Z) (bm : option Move) (a : Z) (st' : loopState),
    forRange (indexedFrom k ms) (me, bm, a) (minStep ev alpha) = Ret st' →
    ∃ es,
      examinedMin (λ i, ev (k + i)%nat) ms alpha a es ∧
      st'.2 = runningMin a es ∧
      firstBest Z.lt me bm ms es st'.1.1 st'.1.2 ∧
      st'.1.1 = runningMin me es.
Proof.
  induction ms as [|m rest IH]; intros k me bm a st' Hrun.
  { injection Hrun as <-. exists []. unfold examinedMin, firstBest. simpl.
    split_and!; try done; try lia.
    left. split_and!; try done. }
  rewrite indexedFrom_cons in Hrun. cbn [forRange] in Hrun.
  apply bind_Ret in Hrun as (r & Hstep & Hrun).
  unfold minStep in Hstep. apply bind_Ret in Hstep as (e & He & Hstep).
  set (me1 := Z.min me e). set (a1 := Z.min a e).
  set (bm1 := if e <? me then Some m else bm).
  assert (r = if a1 <=? alpha then Break (me1, bm1, a1) else Next (me1, bm1, a1)) as ->.
  { subst me1 a1 bm1. destruct (Z.ltb_spec e me);
      [rewrite (Z.min_r me e) by lia|rewrite (Z.min_l me e) by lia];
      destruct (Z.min a e <=? alpha); by injection Hstep as <-. }
  assert (firstBest Z.lt me bm (m :: rest) [e] me1 bm1) as Hfirst.
  { subst me1 bm1. destruct (Z.ltb_spec e me).
    - right. exists 0%nat, m. rewrite Z.min_r by lia.
      split_and!; try done; try lia; intros j e' Hj; lia.
    - left. rewrite Z.min_l by lia. split_and!; try done.
      apply Forall_singleton. lia. }
  destruct (Z.leb_spec a1 alpha) as [Hcut|Hcut].
  - injection Hrun as <-. exists [e]. cbn [fst snd].
    split_and!; [|done..].
    unfold examinedMin. split_and!; simpl; [lia| |intros i Hi; lia|done].
    intros [|i] m' e' Hm' He'; simplify_eq/=. by rewrite Nat.add_0_r.
  - destruct (IH (S k) me1 bm1 a1 st' Hrun) as (es & Hex & Ha & Hbest & Hme).
    destruct Hex as (Hlen & Hev & Hlt & Hcutoff).
    exists (e :: es). split_and!.
    + unfold examinedMin. split_and!; simpl.
      * lia.
      * intros [|i] m' e' Hm' He'; simplify_eq/=; [by rewrite Nat.add_0_r|].
        rewrite Nat.add_succ_r. by apply Hev.
      * intros [|i] Hi; simpl; [done|]. apply Hlt. lia.
      * intros Hl. apply Hcutoff. lia.
    + done.
    + rewrite Hme. fold (runningMin me1 es).
      destruct Hbest as [(Hall & Hv & Hbm)|(i & m' & Hm' & Hbm & Hei & Hgt & Hbefore)].
      * rewrite Hv in Hme. rewrite <- Hme.
        destruct Hfirst as [(Hall1 & Hv1 & Hbm1)|(i & m' & Hm' & Hbm' & Hei & Hgt & Hbefore)].
        -- left. split_and!; [|done|congruence].
           rewrite Hv1 in Hall. apply Forall_cons. split; [|done].
           by inversion Hall1.
        -- right. destruct i as [|i]; [|simpl in Hei; by rewrite lookup_nil in Hei].
           exists 0%nat, m'. split_and!; try done; [congruence|].
           intros j e' Hj. lia.
      * rewrite Hme in Hei, Hgt, Hbefore. right. exists (S i), m'.
        split_and!; try done.
        -- subst me1. lia.
        -- intros [|j] e' Hj He'; simplify_eq/=.
           ++ subst me1. lia.
           ++ eapply Hbefore; [|done]. lia.
    + done.
Qed.

(** C7. When a candidate loop returns [(v, best)], there are the scores
    [es] of the candidates it has examined: the first candidates of the
    list in order, each scored with the bound that the scores before it
    have reached, and none after the first one at which [beta <= alpha];
    [v] is the greatest of -999999 and the scores (the least of 999999 and
    the scores when minimizing); [best] is nil when no score is greater
    than -999999 (smaller than 999999), and otherwise the first candidate
    whose score is [v]: every score before it is strictly smaller
    (greater), so a later candidate with the same score does not replace
    it. *)
Theorem candidate_loop_first_best (ev : nat → Move → Z → Z → result Z)
    (moves : list Move) (alpha beta v : Z) (best : option Move) :
  (maxLoop ev moves alpha beta = Ret (v, best) →
   ∃ es, examinedMax ev moves alpha beta es
         ∧ v = runningMax (-999999) es
         ∧ firstBest Z.gt (-999999) None moves es v best)
  ∧
  (minLoop ev moves alpha beta = Ret (v, best) →
   ∃ es, examinedMin ev moves alpha beta es
         ∧ v = runningMin 999999 es
         ∧ firstBest Z.lt 999999 None moves es v best).
Proof.
  split; intros Hrun.
  - unfold maxLoop in Hrun. apply bind_Ret in Hrun as ([[v' best'] a'] & Hrun & [= -> ->]).
    apply (maxLoop_trace_gen ev beta moves 0%nat) in Hrun as (es & Hex & _ & Hbest & Hv).
    exists es. split_and!; done.
  - unfold minLoop in Hrun. apply bind_Ret in Hrun as ([[v' best'] b'] & Hrun & [= -> ->]).
    apply (minLoop_trace_gen ev alpha moves 0%nat) in Hrun as (es & Hex & _ & Hbest & Hv).
    exists es. split_and!; done.
Qed.

Lemma candidate_loop_first_best_witness :
  (∃ es, examinedMax rowScore tieMoves (-999999) 999999 es
         ∧ 3 = runningMax (-999999) es
         ∧ firstBest Z.gt (-999999) None tieMoves es 3 (Some (plainMove 0 0 3 0)))
  ∧
  (∃ es, examinedMin rowScore tieMoves (-999999) 999999 es
         ∧ 1 = runningMin 999999 es
         ∧ firstBest Z.lt 999999 None tieMoves es 1 (Some (plainMove 0 0 1 0))).
Proof.
  split.
  - exact (proj1 (candidate_loop_first_best rowScore tieMoves (-999999) 999999 3
                    (Some (plainMove 0 0 3 0))) eq_refl).
  - exact (proj2 (candidate_loop_first_best rowScore tieMoves (-999999) 999999 1
                    (Some (plainMove 0 0 1 0))) eq_refl).
Defined.

(** ** Alpha-beta against the full traversal *)

Lemma maxStep_eq (ev : nat → Move → Z → Z → result Z) (beta me : Z) (bm : option Move)
    (a : Z) (k : nat) (m : Move) (e : Z) :
  ev k m a beta = Ret e →
  maxStep ev beta (me, bm, a) (k, m)
  = Ret (if beta <=? Z.max a e
         then Break (Z.max me e, (if e >? me then Some m else bm), Z.max a e)
         else Next (Z.max me e, (if e >? me then Some m else bm), Z.max a e)).
Proof.
  intros He. unfold maxStep. rewrite He. cbn [bind].
  destruct (Z.gtb_spec e me);
    [rewrite (Z.max_r me e) by lia|rewrite (Z.max_l me e) by lia];
    by destruct (beta <=? Z.max a e).
Qed.

Lemma minStep_eq (ev : nat → Move → Z → Z → result Z) (alpha me : Z) (bm : option Move)
    (a : Z) (k : nat) (m : Move) (e : Z) :
  ev k m alpha a = Ret e →
  minStep ev alpha (me, bm, a) (k, m)
  = Ret (if Z.min a e <=? alpha
         then Break (Z.min me e, (if e <? me then Some m else bm), Z.min a e)
         else Next (Z.min me e, (if e <? me then Some m else bm), Z.min a e)).
Proof.
  intros He. unfold minStep. rewrite He. cbn [bind].
  destruct (Z.ltb_spec e me);
    [rewrite (Z.min_r me e) by lia|rewrite (Z.min_l me e) by lia];
    by destruct (Z.min a e <=? alpha).
Qed.

(** The maximizing loop over children whose scores agree with their
    values [t] returns, and what it returns agrees with the greatest
    value. *)
Lemma maxLoop_sound_gen (ev : nat → Move → Z → Z → result Z) (t : Move → Z)
    (lo beta : Z) (ms : list Move) :
  (∀ i m a, m ∈ ms → lo ≤ a → a < beta →
            ∃ e, ev i m a beta = Ret e ∧ agrees a beta (t m) e) →
  ∀ (k : nat) (me : Z) (bm : option Move) (a : Z),
    lo ≤ a → me ≤ a → a < beta →
    ∃ v bm' a',
      forRange (indexedFrom k ms) (me, bm, a) (maxStep ev beta) = Ret (v, bm', a') ∧
      me ≤ v ∧
      (v ≤ a → ∀ m, m ∈ ms → t m ≤ v) ∧
      (a < v < beta → (∀ m, m ∈ ms → t m ≤ v) ∧ ∃ m, m ∈ ms ∧ t m = v) ∧
      (beta ≤ v → ∃ m, m ∈ ms ∧ v ≤ t m).
Proof.
  induction ms as [|m rest IH]; intros Hev k me bm a Hlo Hme Ha.
  { exists me, bm, a. split; [done|]. split_and!; try lia.
    intros _ m Hm. by apply elem_of_nil in Hm. }
  destruct (Hev k m a) as (e & He & Hagree); [by left|done|done|].
  rewrite indexedFrom_cons. cbn [forRange]. rewrite (maxStep_eq _ _ _ _ _ _ _ _ He).
  cbn [bind]. destruct Hagree as (Hlow & Hhigh & Hexact).
  destruct (Z.leb_spec beta (Z.max a e)) as [Hcut|Hcut].
  - eexists _, _, _. split; [done|]. split_and!; try lia.
    intros _. exists m. split; [by left|lia].
  - destruct (IH (λ i m' a' Hm', Hev i m' a' (list_elem_of_further _ _ _ Hm'))
                (S k) (Z.max me e) (if e >? me then Some m else bm) (Z.max a e))
      as (v & bm' & a' & -> & Hv & Hle & Hmid & Hge); [lia..|].
    exists v, bm', a'. split; [done|]. split_and!; try lia.
    + intros Hva m' [->|Hm']%elem_of_cons; [lia|]. apply Hle; [lia|done].
    + intros Hv'. destruct (Z.le_gt_cases v (Z.max a e)) as [Hsmall|Hbig].
      * split.
        -- intros m' [->|Hm']%elem_of_cons; [lia|]. by apply Hle.
        -- exists m. split; [by left|lia].
      * destruct Hmid as [Hall (m' & Hm' & Hex)]; [lia|]. split.
        -- intros m'' [->|Hm'']%elem_of_cons; [lia|]. by apply Hall.
        -- exists m'. split; [by right|done].
    + intros Hv'. destruct (Hge Hv') as (m' & Hm' & Hex).
      exists m'. split; [by right|done].
Qed.

Lemma minLoop_sound_gen (ev : nat → Move → Z → Z → result Z) (t : Move → Z)
    (alpha hi : Z) (ms : list Move) :
  (∀ i m a, m ∈ ms → a ≤ hi → alpha < a →
            ∃ e, ev i m alpha a = Ret e ∧ agrees alpha a (t m) e) →
  ∀ (k : nat) (me : Z) (bm : option Move) (a : Z),
    a ≤ hi → a ≤ me → alpha < a →
    ∃ v bm' a',
      forRange (indexedFrom k ms) (me, bm, a) (minStep ev alpha) = Ret (v, bm', a') ∧
      v ≤ me ∧
      (a ≤ v → ∀ m, m ∈ ms → v ≤ t m) ∧
      (alpha < v < a → (∀ m, m ∈ ms → v ≤ t m) ∧ ∃ m, m ∈ ms ∧ t m = v) ∧
      (v ≤ alpha → ∃ m, m ∈ ms ∧ t m ≤ v).
Proof.
  induction ms as [|m rest IH]; intros Hev k me bm a Hlo Hme Ha.
  { exists me, bm, a. split; [done|]. split_and!; try lia.
    intros _ m Hm. by apply elem_of_nil in Hm. }
  destruct (Hev k m a) as (e & He & Hagree); [by left|done|done|].
  rewrite indexedFrom_cons. cbn [forRange]. rewrite (minStep_eq _ _ _ _ _ _ _ _ He).
  cbn [bind]. destruct Hagree as (Hlow & Hhigh & Hexact).
  destruct (Z.leb_spec (Z.min a e) alpha) as [Hcut|Hcut].
  - eexists _, _, _. split; [done|]. split_and!; try lia.
    intros _. exists m. split; [by left|lia].
  - destruct (IH (λ i m' a' Hm', Hev i m' a' (list_elem_of_further _ _ _ Hm'))
                (S k) (Z.min me e) (if e <? me then Some m else bm) (Z.min a e))
      as (v & bm' & a' & -> & Hv & Hle & Hmid & Hge); [lia..|].
    exists v, bm', a'. split; [done|]. split_and!; try lia.
    + intros Hva m' [->|Hm']%elem_of_cons; [lia|]. apply Hle; [lia|done].
    + intros Hv'. destruct (Z.le_gt_cases (Z.min a e) v) as [Hsmall|Hbig].
      * split.
        -- intros m' [->|Hm']%elem_of_cons; [lia|]. by apply Hle.
        -- exists m. split; [by left|lia].
      * destruct Hmid as [Hall (m' & Hm' & Hex)]; [lia|]. split.
        -- intros m'' [->|Hm'']%elem_of_cons; [lia|]. by apply Hall.
        -- exists m'. split; [by right|done].
    + intros Hv'. destruct (Hge Hv') as (m' & Hm' & Hex).
      exists m'. split; [by right|done].
Qed.

(** ** Evaluate *)

(** [Evaluate] always returns. *)
Lemma Evaluate_eq (b : Board) : Evaluate b = Ret (scoreOf b).
Proof.
  unfold Evaluate, scoreOf.
  rewrite (grid_fold b (λ score r c piece,
    if bool_decide (Owner piece = First)
    then Ret (wrap64 (score + pieceValues (Type_ piece)))
    else if bool_decide (Owner piece = Second)
    then Ret (wrap64 (score - pieceValues (Type_ piece)))
    else Ret score) evalCell).
  2:{ intros s r c p. unfold evalCell. by repeat case_bool_decide. }
  cbn [bind].
  rewrite (forEach_pure (FirstHand b) _ (λ score p, wrap64 (score + handValue p))) by done.
  cbn [bind].
  by rewrite (forEach_pure (SecondHand b) _ (λ score p, wrap64 (score - handValue p))).
Qed.

Lemma wrap64_id (z : Z) : - 2 ^ 63 ≤ z < 2 ^ 63 → wrap64 z = z.
Proof. intros Hz. unfold wrap64. rewrite Z.mod_small; lia. Qed.

(** ** Minimax *)

Lemma foldr_max_spec (v : Z) (vs : list Z) :
  (∀ x, x ∈ v :: vs → x ≤ foldr Z.max v vs) ∧ foldr Z.max v vs ∈ v :: vs.
Proof.
  induction vs as [|w vs [IH1 IH2]]; simpl.
  - split; [|by left]. intros x Hx%list_elem_of_singleton. lia.
  - split.
    + intros x [->|[->|Hx]%elem_of_cons]%elem_of_cons.
      * specialize (IH1 v ltac:(by left)). lia.
      * lia.
      * specialize (IH1 x ltac:(by right)). lia.
    + destruct (Z.max_spec w (foldr Z.max v vs)) as [[_ ->]|[_ ->]].
      * apply elem_of_cons in IH2 as [->|IH2]; [by left|by do 2 right].
      * right. by left.
Qed.

Lemma foldr_min_spec (v : Z) (vs : list Z) :
  (∀ x, x ∈ v :: vs → foldr Z.min v vs ≤ x) ∧ foldr Z.min v vs ∈ v :: vs.
Proof.
  induction vs as [|w vs [IH1 IH2]]; simpl.
  - split; [|by left]. intros x Hx%list_elem_of_singleton. lia.
  - split.
    + intros x [->|[->|Hx]%elem_of_cons]%elem_of_cons.
      * specialize (IH1 v ltac:(by left)). lia.
      * lia.
      * specialize (IH1 x ltac:(by right)). lia.
    + destruct (Z.min_spec w (foldr Z.min v vs)) as [[_ ->]|[_ ->]].
      * right. by left.
      * apply elem_of_cons in IH2 as [->|IH2]; [by left|by do 2 right].
Qed.

(** [fullMinimax] at an inner node with at least one move: an upper bound
    of the values of the children that one of them attains (a lower bound
    when minimizing). The order of the moves plays no part. *)
Lemma fullMinimax_node (d : nat) (b : Board) (maximizing : bool) (picks : list nat)
    (ms : list Move) :
  IsGameOver b = Ret (false, PNone) →
  GetAllLegalMoves picks b = Ret ms →
  ms ≠ [] →
  let T := fullMinimax (S d) b maximizing in
  (∃ m, m ∈ ms ∧ childValue d b maximizing m = T) ∧
  (∀ m, m ∈ ms →
     if maximizing then childValue d b maximizing m ≤ T
     else T ≤ childValue d b maximizing m).
Proof.
  intros Hover Hms Hne T. subst T. cbn [fullMinimax]. rewrite Hover. cbn [orElse fst].
  fold (childValue d b maximizing).
  assert (ms ≡ₚ orElse (GetAllLegalMoves [] b) []) as Hperm.
  { rewrite GetAllLegalMoves_eq. cbn [orElse].
    eapply GetAllLegalMoves_perm; [done|apply GetAllLegalMoves_eq]. }
  destruct (orElse (GetAllLegalMoves [] b) []) as [|m0 ms0].
  { by apply Permutation_nil_r in Hperm. }
  setoid_rewrite Hperm.
  change (fullMinimax d (orElse (MakeMove b m0) b) (negb maximizing))
    with (childValue d b maximizing m0).
  destruct maximizing.
  - destruct (foldr_max_spec (childValue d b true m0) (childValue d b true <$> ms0))
      as [Hle Hin].
    rewrite <- fmap_cons in Hle, Hin. split.
    + apply list_elem_of_fmap in Hin as (m & -> & Hm). eauto.
    + intros m Hm. apply Hle. by apply list_elem_of_fmap_2.
  - destruct (foldr_min_spec (childValue d b false m0) (childValue d b false <$> ms0))
      as [Hle Hin].
    rewrite <- fmap_cons in Hle, Hin. split.
    + apply list_elem_of_fmap in Hin as (m & -> & Hm). eauto.
    + intros m Hm. apply Hle. by apply list_elem_of_fmap_2.
Qed.

Lemma fullMinimax_leaf (d : nat) (b : Board) (maximizing : bool) :
  (∃ w, IsGameOver b = Ret (true, w)) ∨ GetAllLegalMoves [] b = Ret [] →
  fullMinimax (S d) b maximizing = scoreOf b.
Proof.
  intros Hleaf. cbn [fullMinimax]. rewrite Evaluate_eq. cbn [orElse].
  destruct Hleaf as [[w ->]| ->]; [done|]. cbn [orElse]. by destruct (_.1).
Qed.

Lemma indexed_from_0 {A : Type} (xs : list A) : indexed xs = indexedFrom 0 xs.
Proof. reflexivity. Qed.

Lemma Minimax_unfold (fuel : nat) (o : Oracle) (b : Board) (depth alpha beta : Z)
    (maximizing : bool) :
  Minimax (S fuel) o b depth alpha beta maximizing =
  if depth =? 0 then Ret (scoreOf b, None)
  else
    over <- IsGameOver b ;;
    if over.1 then Ret (scoreOf b, None)
    else
      moves <- GetAllLegalMoves (o []) b ;;
      if (length moves =? 0)%nat then Ret (scoreOf b, None)
      else if maximizing
           then maxLoop (childScore fuel o b depth false) moves alpha beta
           else minLoop (childScore fuel o b depth true) moves alpha beta.
Proof. cbn [Minimax]. by rewrite Evaluate_eq. Qed.

(** [Minimax] with enough fuel returns for every non-negative depth, and
    its score agrees with the full minimax value under every window
    inside the sentinels. *)
Lemma Minimax_sound (fuel : nat) :
  ∀ (o : Oracle) (b : Board) (depth alpha beta : Z) (maximizing : bool),
    0 ≤ depth < 2 ^ 63 → (Z.to_nat depth < fuel)%nat →
    -999999 ≤ alpha → alpha < beta → beta ≤ 999999 →
    ∃ v best,
      Minimax fuel o b depth alpha beta maximizing = Ret (v, best) ∧
      agrees alpha beta (fullMinimax (Z.to_nat depth) b maximizing) v.
Proof.
  induction fuel as [|fuel IH]; intros o b depth alpha beta mx Hd Hfuel Ha Hab Hb; [lia|].
  rewrite Minimax_unfold.
  destruct (Z.eqb_spec depth 0) as [->|Hd0].
  { eexists _, _. split; [done|]. simpl. rewrite Evaluate_eq. unfold agrees. simpl. lia. }
  assert (Z.to_nat depth = S (Z.to_nat (depth - 1))) as -> by lia.
  set (d := Z.to_nat (depth - 1)).
  assert (∀ v, v = scoreOf b → fullMinimax (S d) b mx = scoreOf b →
               ∃ v' (best : option Move), Ret (v, None) = Ret (v', best)
                          ∧ agrees alpha beta (fullMinimax (S d) b mx) v') as Hleaf.
  { intros v -> ->. eexists _, _. split; [done|]. unfold agrees. lia. }
  pose proof (IsGameOver_flags b) as Hover.
  destruct (bool_decide (kingsOf First b = 0%nat)).
  { rewrite Hover. cbn [bind fst]. apply Hleaf; [done|]. apply fullMinimax_leaf. eauto. }
  destruct (bool_decide (kingsOf Second b = 0%nat)).
  { rewrite Hover. cbn [bind fst]. apply Hleaf; [done|]. apply fullMinimax_leaf. eauto. }
  rewrite Hover. cbn [bind fst].
  destruct (GetAllLegalMoves (o []) b) as [ms|] eqn:Hms;
    [|by rewrite GetAllLegalMoves_eq in Hms].
  cbn [bind]. destruct ms as [|m0 ms0] eqn:Hmseq.
  { cbn. apply Hleaf; [done|]. apply fullMinimax_leaf. right.
    rewrite GetAllLegalMoves_eq. f_equal. apply Permutation_nil_r.
    eapply GetAllLegalMoves_perm; [apply GetAllLegalMoves_eq|done]. }
  rewrite <- Hmseq in *. assert (ms ≠ []) as Hne by (by rewrite Hmseq).
  replace (length ms =? 0)%nat with false by (by rewrite Hmseq).
  destruct (fullMinimax_node d b mx (o []) ms Hover Hms Hne) as [(mT & HmT & HT) Hbound].
  set (T := fullMinimax (S d) b mx) in *.
  assert (∀ next i m a a', m ∈ ms → -999999 ≤ a → a < a' → a' ≤ 999999 →
            ∃ e, childScore fuel o b depth next i m a a' = Ret e
                 ∧ agrees a a' (fullMinimax d (orElse (MakeMove b m) b) next) e) as Hchild.
  { intros next i m a a' Hm Ha1 Ha2 Ha3.
    destruct (MakeMove_legal b m) as [nb Hnb]; [by eapply GetAllLegalMoves_legal|].
    unfold childScore. rewrite Hnb. cbn [bind orElse].
    rewrite wrap64_id by lia.
    destruct (IH (child o i) nb (depth - 1) a a' next) as (e & best & -> & Hag);
      [lia..|]. cbn [bind fst]. eauto. }
  destruct mx.
  - unfold maxLoop, loopState. rewrite indexed_from_0.
    destruct (maxLoop_sound_gen (childScore fuel o b depth false)
                (childValue d b true) alpha beta ms) with (k := 0%nat) (me := -999999)
                (bm := @None Move) (a := alpha)
      as (v & bm' & a' & Hrun & Hv & Hle & Hmid & Hge); [|lia..|].
    { intros i m a Hm Ha1 Ha2. apply Hchild; [done|lia..]. }
    exists v, bm'. split; [by rewrite Hrun|]. unfold agrees. split_and!.
    + intros Hva. rewrite <- HT. by apply Hle.
    + intros Hvb. destruct (Hge Hvb) as (m & Hm & Hvm). specialize (Hbound m Hm).
      simpl in Hbound. lia.
    + intros Hvab. destruct (Hmid Hvab) as [Hall (m & Hm & Hvm)].
      specialize (Hbound m Hm). specialize (Hall mT HmT). simpl in Hbound. lia.
  - unfold minLoop, loopState. rewrite indexed_from_0.
    destruct (minLoop_sound_gen (childScore fuel o b depth true)
                (childValue d b false) alpha beta ms) with (k := 0%nat) (me := 999999)
                (bm := @None Move) (a := beta)
      as (v & bm' & a' & Hrun & Hv & Hle & Hmid & Hge); [|lia..|].
    { intros i m a Hm Ha1 Ha2. apply Hchild; [done|lia..]. }
    exists v, bm'. split; [by rewrite Hrun|]. unfold agrees. split_and!.
    + intros Hva. destruct (Hge Hva) as (m & Hm & Hvm). specialize (Hbound m Hm).
      simpl in Hbound. lia.
    + intros Hvb. rewrite <- HT. by apply Hle.
    + intros Hvab. destruct (Hmid Hvab) as [Hall (m & Hm & Hvm)].
      specialize (Hbound m Hm). specialize (Hall mT HmT). simpl in Hbound. lia.
Qed.

(** C1, as the code has it. For a depth from 0 on and fuel above the
    depth, [Minimax] under the full window returns, and its score is the
    full minimax value whenever that value lies within the sentinels
    -999999 and 999999, whatever the order in which the maps are
    iterated. *)
Theorem Minimax_full_window (fuel : nat) (o : Oracle) (b : Board) (depth : Z)
    (maximizing : bool) :
  0 ≤ depth < 2 ^ 63 →
  (Z.to_nat depth < fuel)%nat →
  -999999 ≤ fullMinimax (Z.to_nat depth) b maximizing ≤ 999999 →
  ∃ best, Minimax fuel o b depth (-999999) 999999 maximizing
          = Ret (fullMinimax (Z.to_nat depth) b maximizing, best).
Proof.
  intros Hd Hfuel Hbound.
  destruct (Minimax_sound fuel o b depth (-999999) 999999 maximizing)
    as (v & best & Hrun & Hlow & Hhigh & Hexact); [lia..|].
  exists best. rewrite Hrun. do 2 f_equal. lia.
Qed.

Lemma Minimax_full_window_witness :
  ∃ best, Minimax 3 (λ _, []) NewBoard 2 (-999999) 999999 true = Ret (-180, best).
Proof.
  assert (fullMinimax (Z.to_nat 2) NewBoard true = -180) as Hv by (by vm_compute).
  rewrite <- Hv. apply Minimax_full_window; [lia|simpl; lia|rewrite Hv; lia].
Defined.

(** C1 as stated fails outside the sentinels: at depth 1 the search stops
    at the first move, whose score 1039900 is above [beta], although the
    drop of a King is worth 1041900. *)
Lemma Minimax_sentinel_counterexample :
  Minimax 2 (λ _, []) heavyBoard 1 (-999999) 999999 true
  = Ret (1039900, Some (plainMove 4 0 3 0))
  ∧ fullMinimax 1 heavyBoard true = 1041900.
Proof. split; by vm_compute. Qed.

(** ** The sentinels bound every position of a game *)

Lemma weight_nonneg (k : PieceType) : 0 ≤ weight k.
Proof. by destruct k. Qed.

Lemma pieceValues_weight (k : PieceType) : 0 ≤ pieceValues k ≤ weight k.
Proof. destruct k; vm_compute; split; discriminate. Qed.

Lemma handValue_weight (k : PieceType) : 0 ≤ handValue k ≤ weight k.
Proof. destruct k; vm_compute; split; discriminate. Qed.

(** A fold whose steps move the sum by at most [w x] stays within the sum
    of the [w x] as long as that does not reach the wrap-around. *)
Lemma foldl_bound {A : Type} (f : Z → A → Z) (w : A → Z) (l : list A) :
  (∀ s x, Z.abs s + w x < 2 ^ 63 → Z.abs (f s x) ≤ Z.abs s + w x) →
  (∀ x, 0 ≤ w x) →
  ∀ acc, Z.abs acc + listSum w l < 2 ^ 63 →
         Z.abs (foldl f acc l) ≤ Z.abs acc + listSum w l.
Proof.
  intros Hf Hw. unfold listSum. induction l as [|x l IH]; intros acc Hacc; simpl in *.
  - lia.
  - assert (0 ≤ foldr (λ x acc, w x + acc) 0 l) as Hnn by (apply listSum_nonneg, Hw).
    specialize (Hf acc x ltac:(lia)). specialize (IH (f acc x) ltac:(lia)). lia.
Qed.

Lemma onGrid_weight_nonneg (p : Piece) : 0 ≤ onGrid weight p.
Proof. unfold onGrid. destruct (decide _); [apply weight_nonneg|done]. Qed.

Lemma evalCell_bound (s : Z) (p : Piece) :
  Z.abs s + onGrid weight p < 2 ^ 63 →
  Z.abs (evalCell s p) ≤ Z.abs s + onGrid weight p.
Proof.
  intros Hs. unfold evalCell. pose proof (pieceValues_weight (Type_ p)) as Hp.
  pose proof (onGrid_weight_nonneg p) as Hnn.
  case_bool_decide as H1; [|case_bool_decide as H2; [|lia]].
  - rewrite onGrid_occupied in Hs |- * by congruence. rewrite wrap64_id; lia.
  - rewrite onGrid_occupied in Hs |- * by congruence. rewrite wrap64_id; lia.
Qed.

Lemma scoreOf_bound (b : Board) :
  totalWeight b < 2 ^ 63 → Z.abs (scoreOf b) ≤ totalWeight b.
Proof.
  unfold totalWeight. rewrite measure_eq. unfold gridSum, scoreOf. intros Hw.
  pose proof (listSum_nonneg (onGrid weight) (allCells (Cells b)) onGrid_weight_nonneg)
    as H1.
  pose proof (listSum_nonneg weight (FirstHand b) weight_nonneg) as H2.
  pose proof (listSum_nonneg weight (SecondHand b) weight_nonneg) as H3.
  set (g := foldl evalCell 0 (allCells (Cells b))).
  assert (Z.abs g ≤ Z.abs 0 + listSum (onGrid weight) (allCells (Cells b))) as Hg.
  { apply foldl_bound; [apply evalCell_bound|apply onGrid_weight_nonneg|lia]. }
  set (h := foldl (λ score p, wrap64 (score + handValue p)) g (FirstHand b)).
  assert (Z.abs h ≤ Z.abs g + listSum weight (FirstHand b)) as Hh.
  { apply foldl_bound; [|apply weight_nonneg|lia].
    intros s p Hs. pose proof (handValue_weight p). rewrite wrap64_id; lia. }
  assert (Z.abs (foldl (λ score p, wrap64 (score - handValue p)) h (SecondHand b))
          ≤ Z.abs h + listSum weight (SecondHand b)) as Hs.
  { apply foldl_bound; [|apply weight_nonneg|lia].
    intros s p Hs. pose proof (handValue_weight p). rewrite wrap64_id; lia. }
  lia.
Qed.

(** The full minimax value is the score of a position that moves of the
    generator lead to. *)
Lemma fullMinimax_attained (d : nat) :
  ∀ b maximizing, ∃ b', rtc step b b' ∧ fullMinimax d b maximizing = scoreOf b'.
Proof.
  induction d as [|d IH]; intros b mx.
  { exists b. split; [done|]. simpl. by rewrite Evaluate_eq. }
  pose proof (IsGameOver_flags b) as Hover.
  destruct (bool_decide (kingsOf First b = 0%nat)).
  { exists b. split; [done|]. apply fullMinimax_leaf. eauto. }
  destruct (bool_decide (kingsOf Second b = 0%nat)).
  { exists b. split; [done|]. apply fullMinimax_leaf. eauto. }
  destruct (boardMoves b ++ dropMoves [] b) as [|m0 ms0] eqn:Hms.
  { exists b. split; [done|]. apply fullMinimax_leaf. right.
    by rewrite GetAllLegalMoves_eq, Hms. }
  destruct (fullMinimax_node d b mx [] (m0 :: ms0)) as [(m & Hm & HT) _];
    [done|by rewrite GetAllLegalMoves_eq, Hms|done|].
  destruct (MakeMove_legal b m) as [nb Hnb].
  { eapply GetAllLegalMoves_legal; [|done]. by rewrite GetAllLegalMoves_eq, Hms. }
  destruct (IH nb (negb mx)) as (b' & Hreach & Hv).
  exists b'. split.
  - eapply rtc_l; [|done]. exists [], (m0 :: ms0), m.
    split_and!; [by rewrite GetAllLegalMoves_eq, Hms|done..].
  - rewrite <- HT. unfold childValue. by rewrite Hnb.
Qed.

Lemma totalWeight_NewBoard : totalWeight NewBoard = 27800.
Proof. by vm_compute. Qed.

(** In every state of a game the full minimax value lies within the
    sentinels, so [Minimax] under the full window returns exactly it. *)
Lemma fullMinimax_reachable_bound (d : nat) (b : Board) (maximizing : bool) :
  reachable b → -999999 ≤ fullMinimax d b maximizing ≤ 999999.
Proof.
  intros Hb. destruct (fullMinimax_attained d b maximizing) as (b' & Hreach & ->).
  assert (reachable b') as Hb' by (unfold reachable in *; by etrans).
  assert (totalWeight b' = 27800) as Hw.
  { rewrite <- totalWeight_NewBoard. unfold totalWeight. apply measure_reachable; [..|done].
    - intros k. unfold weight. by rewrite demote_idemp.
    - intros k. unfold weight. by rewrite demote_promoteType. }
  pose proof (scoreOf_bound b' ltac:(lia)). lia.
Qed.

Lemma Minimax_full_window_reachable (fuel : nat) (o : Oracle) (b : Board) (depth : Z)
    (maximizing : bool) :
  reachable b →
  0 ≤ depth < 2 ^ 63 →
  (Z.to_nat depth < fuel)%nat →
  ∃ best, Minimax fuel o b depth (-999999) 999999 maximizing
          = Ret (fullMinimax (Z.to_nat depth) b maximizing, best).
Proof.
  intros Hb Hd Hfuel.
  destruct (Minimax_sound fuel o b depth (-999999) 999999 maximizing)
    as (v & best & Hrun & Hlow & Hhigh & Hexact); [lia..|].
  pose proof (fullMinimax_reachable_bound (Z.to_nat depth) b maximizing Hb).
  exists best. rewrite Hrun. do 2 f_equal. lia.
Qed.

(** ** Determinism up to the order of map iteration *)

Lemma shuffle_short {A : Type} (picks : list nat) (xs : list A) :
  (length xs ≤ 1)%nat → shuffle picks xs = xs.
Proof.
  destruct xs as [|x [|y xs]]; simpl; [done|done|lia].
Qed.

Lemma NoDup_all_equal_length {A : Type} (xs : list A) :
  NoDup xs → (∀ x y, x ∈ xs → y ∈ xs → x = y) → (length xs ≤ 1)%nat.
Proof.
  intros Hnd Heq. destruct xs as [|x [|y xs]]; simpl; [lia..|].
  exfalso. apply NoDup_cons in Hnd as [Hx _]. apply Hx.
  rewrite (Heq x y); [by left|by left|by right; left].
Qed.

(** C8, as the code has it. Two runs of [GetAllLegalMoves] on one state
    return the same board moves in the same order, followed by the same
    drops up to the order in which the map of kinds is iterated; they
    return the same sequence when the mover's hand holds at most one
    kind. Two runs of [Minimax] under the full window, at a depth from 0
    on with fuel above the depth, return the same score whenever the full
    minimax value lies within the sentinels. *)
Theorem deterministic_up_to_map_order (b : Board) :
  (∀ picks1 picks2,
     ∃ board drops1 drops2,
       GetDropMoves picks1 b = Ret drops1 ∧ GetDropMoves picks2 b = Ret drops2 ∧
       GetAllLegalMoves picks1 b = Ret (board ++ drops1) ∧
       GetAllLegalMoves picks2 b = Ret (board ++ drops2) ∧
       drops1 ≡ₚ drops2) ∧
  ((∀ k k', k ∈ moverHand b → k' ∈ moverHand b → k = k') →
   ∀ picks1 picks2, GetAllLegalMoves picks1 b = GetAllLegalMoves picks2 b) ∧
  (∀ fuel1 fuel2 o1 o2 depth maximizing,
     0 ≤ depth < 2 ^ 63 →
     (Z.to_nat depth < fuel1)%nat → (Z.to_nat depth < fuel2)%nat →
     -999999 ≤ fullMinimax (Z.to_nat depth) b maximizing ≤ 999999 →
     ∃ v best1 best2,
       Minimax fuel1 o1 b depth (-999999) 999999 maximizing = Ret (v, best1) ∧
       Minimax fuel2 o2 b depth (-999999) 999999 maximizing = Ret (v, best2)).
Proof.
  split_and!.
  - intros picks1 picks2. exists (boardMoves b), (dropMoves picks1 b), (dropMoves picks2 b).
    rewrite !GetAllLegalMoves_eq, !GetDropMoves_eq. split_and!; try done.
    unfold dropMoves, rangeMap. by rewrite !shuffle_perm.
  - intros Hone picks1 picks2. rewrite !GetAllLegalMoves_eq. do 2 f_equal.
    unfold dropMoves, rangeMap.
    assert (length (elements (handKinds b)) ≤ 1)%nat as Hlen.
    { apply NoDup_all_equal_length; [apply NoDup_elements|].
      intros x y Hx%elem_of_elements%elem_of_handKinds
        Hy%elem_of_elements%elem_of_handKinds. by apply Hone. }
    by rewrite !shuffle_short.
  - intros fuel1 fuel2 o1 o2 depth mx Hd Hf1 Hf2 Hbound.
    destruct (Minimax_sound fuel1 o1 b depth (-999999) 999999 mx)
      as (v1 & best1 & Hrun1 & Hlow1 & Hhigh1 & Hexact1); [lia..|].
    destruct (Minimax_sound fuel2 o2 b depth (-999999) 999999 mx)
      as (v2 & best2 & Hrun2 & Hlow2 & Hhigh2 & Hexact2); [lia..|].
    exists v1, best1, best2. split; [done|]. rewrite Hrun2. do 2 f_equal. lia.
Qed.

Lemma deterministic_up_to_map_order_witness :
  ∃ v best1 best2,
    Minimax 2 (λ _, []) twoKinds 1 (-999999) 999999 true = Ret (v, best1) ∧
    Minimax 2 (λ _, [1%nat]) twoKinds 1 (-999999) 999999 true = Ret (v, best2).
Proof.
  refine (proj2 (proj2 (deterministic_up_to_map_order twoKinds))
            2%nat 2%nat (λ _, []) (λ _, [1%nat]) 1 true _ _ _ _).
  - lia.
  - simpl. lia.
  - simpl. lia.
  - assert (fullMinimax (Z.to_nat 1) twoKinds true = 1000) as -> by (by vm_compute). lia.
Defined.

(** C8 as stated fails: on one state two orders of iteration over the map
    of hand kinds give two sequences of legal moves, and two runs of
    [GetAIMove] choose two moves, the drop of the Gold and the drop of the
    Silver on the same cell. *)
Lemma map_order_counterexample :
  GetAllLegalMoves [] twoKinds ≠ GetAllLegalMoves [1%nat] twoKinds ∧
  GetAIMove 4 (λ _, []) twoKinds = Ret (Some (dropMove 0 0 Gold)) ∧
  GetAIMove 4 (λ _, [1%nat]) twoKinds = Ret (Some (dropMove 0 0 Silver)).
Proof. split_and!; by vm_compute. Qed.

(** ** The copy of the search does not share its hands *)

Module HeapFacts.
Import Heap.
Local Open Scope nat_scope.

(** Every array and every board of [h0] is in [h] as it is in [h0]. *)
Definition preserves (h0 h : heap) : Prop :=
  (∀ l arr, arrays h0 !! l = Some arr → arrays h !! l = Some arr) ∧
  (∀ p s, boards h0 !! p = Some s → boards h !! p = Some s).

(** The slice [s] cannot reach an array of [h0]: it has no capacity at
    all, or its array is not one of [h0]. *)
Definition apart (h0 : heap) (s : slice) : Prop :=
  cap s = 0 ∨ arrays h0 !! ptr s = None.

Lemma preserves_refl (h : heap) : preserves h h.
Proof. by split. Qed.

Lemma apart_emptySlice (h0 : heap) : apart h0 emptySlice.
Proof. by left. Qed.

Lemma preserves_fresh_array (h0 h : heap) :
  preserves h0 h → arrays h0 !! fresh (dom (arrays h)) = None.
Proof.
  intros [Harr _]. destruct (arrays h0 !! fresh (dom (arrays h))) as [arr|] eqn:Hl; [|done].
  apply Harr in Hl. exfalso. apply (is_fresh (dom (arrays h))).
  apply elem_of_dom. eauto.
Qed.

Lemma preserves_insert_array (h0 h : heap) (l : loc) (arr : list PieceType) :
  preserves h0 h → arrays h0 !! l = None →
  preserves h0 (mkHeap (<[l := arr]> (arrays h)) (boards h)).
Proof.
  intros [Harr Hbo] Hl. split; [|done]. intros l' arr' Hl'. cbn [arrays].
  rewrite lookup_insert_ne; [by apply Harr|]. intros ->. congruence.
Qed.

(** [append] on a slice that is apart from [h0] keeps [h0], and its result
    is apart from [h0] again. *)
Lemma append_preserves (slack : nat → nat → nat) (h0 h h' : heap) (s s' : slice)
    (xs : list PieceType) :
  preserves h0 h → apart h0 s → append slack h s xs = (h', s') →
  preserves h0 h' ∧ apart h0 s'.
Proof.
  intros Hpre Hs. unfold append.
  destruct (decide (len s + length xs ≤ cap s)) as [Hfit|Hgrow].
  - destruct (arrays h !! ptr s) as [arr|] eqn:Harr; intros [= <- <-].
    + destruct Hs as [Hcap|Hptr]; [|split; [by apply preserves_insert_array|by right]].
      split; [|by left].
      assert (xs = []) as -> by (destruct xs; [done|simpl in Hfit; lia]).
      simpl. by rewrite insert_id.
    + split; [done|]. destruct Hs; [by left|by right].
  - intros [= <- <-].
    pose proof (preserves_fresh_array h0 h Hpre) as Hfresh.
    split; [by apply preserves_insert_array|by right].
Qed.

Lemma removeAt_preserves (slack : nat → nat → nat) (h0 h h' : heap) (s s' : slice)
    (k : PieceType) :
  preserves h0 h → apart h0 s → removeAt slack h s k = (h', s') →
  preserves h0 h' ∧ apart h0 s'.
Proof.
  intros Hpre Hs. unfold removeAt. destruct (indexOf k (readSlice h s)) as [i|].
  - apply append_preserves; [done|]. destruct Hs as [Hcap|Hptr]; [left|by right].
    simpl. lia.
  - by intros [= <- <-].
Qed.

Lemma setBoard_preserves (h0 h : heap) (p : loc) (s : BoardStruct) :
  preserves h0 h → boards h0 !! p = None → preserves h0 (setBoard h p s).
Proof.
  intros [Harr Hbo] Hp. split; [done|]. intros p' s' Hp'. cbn [setBoard boards].
  rewrite lookup_insert_ne; [by apply Hbo|]. intros ->. congruence.
Qed.

(** [MakeMove] on a board that [h0] does not have, with hands apart from
    [h0], keeps [h0], whether it returns or panics. *)
Lemma MakeMove_preserves (slack : nat → nat → nat) (h0 h : heap) (nb : loc) (move : Move) :
  preserves h0 h →
  boards h0 !! nb = None →
  (∀ s, boards h !! nb = Some s → apart h0 (sFirstHand s) ∧ apart h0 (sSecondHand s)) →
  preserves h0 (MakeMove slack h nb move).1.
Proof.
  intros Hpre Hnb Hhands. unfold MakeMove.
  destruct (boards h !! nb) as [s|] eqn:Hs; [|done].
  destruct (Hhands s eq_refl) as [Hfh Hsh].
  destruct (IsDrop move).
  - destruct (setCell _ _ _ _); [|done].
    case_bool_decide.
    + destruct (removeAt slack h (sSecondHand s) (DropPiece move)) as [h1 hand] eqn:Hrm.
      apply removeAt_preserves with (h0 := h0) in Hrm as [Hpre1 _]; [|done..].
      by apply setBoard_preserves.
    + destruct (removeAt slack h (sFirstHand s) (DropPiece move)) as [h1 hand] eqn:Hrm.
      apply removeAt_preserves with (h0 := h0) in Hrm as [Hpre1 _]; [|done..].
      by apply setBoard_preserves.
  - destruct (getCell _ (FromRow move) _) as [piece|]; [|done].
    destruct (getCell _ (ToRow move) _) as [captured|]; [|done].
    cbn zeta. destruct (bool_decide (Owner captured ≠ PNone)).
    + destruct (bool_decide (sCurrentTurn s = First)).
      * destruct (append slack h (sFirstHand s) _) as [h1 hand] eqn:Hap.
        apply append_preserves with (h0 := h0) in Hap as [Hpre1 _]; [|done..].
        destruct (bind _ _); [by apply setBoard_preserves|done].
      * destruct (append slack h (sSecondHand s) _) as [h1 hand] eqn:Hap.
        apply append_preserves with (h0 := h0) in Hap as [Hpre1 _]; [|done..].
        destruct (bind _ _); [by apply setBoard_preserves|done].
    + destruct (bind _ _); [by apply setBoard_preserves|done].
Qed.

Lemma preserves_fresh_board (h0 h : heap) :
  preserves h0 h → boards h0 !! fresh (dom (boards h)) = None.
Proof.
  intros [_ Hbo]. destruct (boards h0 !! fresh (dom (boards h))) as [s|] eqn:Hl; [|done].
  apply Hbo in Hl. exfalso. apply (is_fresh (dom (boards h))).
  apply elem_of_dom. eauto.
Qed.

Lemma cloneAndMove_preserves (slack : nat → nat → nat) (h : heap) (bp : loc) (move : Move) :
  preserves h (cloneAndMove slack h bp move).1.
Proof.
  unfold cloneAndMove, clone. destruct (boards h !! bp) as [s|]; [|apply preserves_refl].
  destruct (append slack h emptySlice (readSlice h (sFirstHand s))) as [h1 fh] eqn:H1.
  apply append_preserves with (h0 := h) in H1 as [Hpre1 Hfh];
    [|apply preserves_refl|apply apart_emptySlice].
  destruct (append slack h1 emptySlice (readSlice h1 (sSecondHand s))) as [h2 sh] eqn:H2.
  apply append_preserves with (h0 := h) in H2 as [Hpre2 Hsh];
    [|done|apply apart_emptySlice].
  pose proof (preserves_fresh_board h h2 Hpre2) as Hnb.
  set (nb := fresh (dom (boards h2))) in *.
  set (h3 := setBoard h2 nb _).
  pose proof (MakeMove_preserves slack h h3 nb move) as Hmove.
  destruct (MakeMove slack h3 nb move) as [h4 [[]|f]]; cbn [fst] in *; apply Hmove;
    try (by apply setBoard_preserves); try done;
    intros s'; subst h3; cbn [setBoard boards]; rewrite lookup_insert_eq;
    by intros [= <-].
Qed.

Lemma readSlice_preserves (h0 h : heap) (s : slice) :
  preserves h0 h → sliceOk h0 s → readSlice h s = readSlice h0 s.
Proof.
  intros [Harr _] (Hlen & [Hcap|(arr & Hptr & _)]); unfold readSlice.
  - assert (len s = 0) as -> by lia. done.
  - by rewrite Hptr, (Harr _ _ Hptr).
Qed.

(** C9. Copying the board behind [bp] as [Minimax] does and applying a
    move to the copy leaves what the board behind [bp] shows as it was:
    the grid, the elements of both hands and the side to move, whether
    [MakeMove] returns or panics, and however much spare capacity the
    runtime gives to a new array. *)
Theorem clone_move_frame (slack : nat → nat → nat) (h : heap) (bp : loc) (move : Move) :
  boardOk h bp →
  view (cloneAndMove slack h bp move).1 bp = view h bp.
Proof.
  intros (s & Hs & Hfh & Hsh).
  pose proof (cloneAndMove_preserves slack h bp move) as Hpre.
  unfold view. rewrite Hs. rewrite (proj2 Hpre _ _ Hs). simpl.
  by rewrite !(readSlice_preserves h _ _ Hpre).
Qed.

(** A heap with one board: the position [afterRecapture], First's hand in
    an array with one spare place, Second's hand in an array of its own. *)
Definition demoHeap : heap :=
  mkHeap
    (<[1 := [Bishop; Empty]]> (<[2 := [Bishop]]> ∅))
    (<[0 := mkBoardStruct (Cells afterRecapture) (mkSlice 1 0 1 2) (mkSlice 2 0 1 1) First]> ∅).

Lemma clone_move_frame_witness :
  view (cloneAndMove (λ _ n, n) demoHeap 0 (dropMove 2 2 Bishop)).1 0 = Some afterRecapture.
Proof.
  rewrite clone_move_frame; [reflexivity|].
  eexists. split; [reflexivity|]. split.
  - split; [simpl; lia|]. right. eexists. split; [reflexivity|]. simpl. lia.
  - split; [simpl; lia|]. right. eexists. split; [reflexivity|]. simpl. lia.
Defined.

End HeapFacts.

(** Every order of the keys is the order of some picks. *)
Lemma shuffle_complete {A : Type} (xs ys : list A) :
  ys ≡ₚ xs → ∃ picks, shuffle picks xs = ys.
Proof.
  revert ys. induction xs as [|x xs IH]; intros ys Hperm.
  - apply Permutation_nil_r in Hperm as ->. by exists [].
  - assert (x ∈ ys) as Hx by (rewrite Hperm; by left).
    apply list_elem_of_split in Hx as (l1 & l2 & ->).
    rewrite <- Permutation_middle in Hperm. apply Permutation_cons_inv in Hperm.
    destruct (IH _ Hperm) as [picks Hpicks].
    exists (length l1 :: picks). cbn [shuffle hd tail]. rewrite Hpicks.
    rewrite Nat.mod_small by (rewrite length_app; lia).
    by rewrite take_app_length, drop_app_length.
Qed.

Module HeapRefine.
Local Abbreviation MakeMoveOnValue := MakeMove (only parsing).
Import Heap HeapFacts.
Local Open Scope nat_scope.

(** Two slices that cannot write into each other. *)
Definition separate (s t : slice) : Prop := cap s = 0 ∨ cap t = 0 ∨ ptr s ≠ ptr t.

Ltac simpl_default :=
  repeat match goal with
  | |- context [default ?d (Some ?x)] => change (default d (Some x)) with x
  end.

Lemma inserts_window (arr xs : list PieceType) (o n : nat) :
  o + n + length xs ≤ length arr →
  take (n + length xs) (drop o (list_inserts (o + n) xs arr)) = take n (drop o arr) ++ xs.
Proof.
  intros Hlen. apply list_eq. intros j.
  destruct (decide (j < n + length xs)) as [Hj|Hj].
  - rewrite lookup_take_lt, lookup_drop by done.
    destruct (decide (j < n)) as [Hjn|Hjn].
    + rewrite list_lookup_inserts_lt by lia.
      rewrite lookup_app_l by (rewrite length_take, length_drop; lia).
      by rewrite lookup_take_lt, lookup_drop.
    + rewrite list_lookup_inserts by lia.
      rewrite lookup_app_r by (rewrite length_take, length_drop; lia).
      rewrite length_take, length_drop. f_equal. lia.
  - rewrite lookup_take_ge by lia. symmetry. apply lookup_ge_None.
    rewrite length_app, length_take, length_drop. lia.
Qed.

Lemma sliceOk_empty (h : heap) : sliceOk h emptySlice.
Proof. split; [done|by left]. Qed.

(** What [append] returns holds the old elements and then the new ones. *)
Lemma append_read (slack : nat → nat → nat) (h h' : heap) (s s' : slice)
    (xs : list PieceType) :
  sliceOk h s → append slack h s xs = (h', s') →
  readSlice h' s' = readSlice h s ++ xs ∧ sliceOk h' s'.
Proof.
  intros (Hlen & Hcap). unfold append.
  destruct (decide (len s + length xs ≤ cap s)) as [Hfit|Hgrow].
  - destruct Hcap as [Hcap|(arr & Harr & Hoff)].
    + assert (xs = []) as -> by (destruct xs; [done|simpl in Hfit; lia]).
      assert (len s = 0) as Hl by lia.
      destruct (arrays h !! ptr s); intros [= <- <-]; unfold readSlice; cbn [len cap];
        rewrite Hl; (split; [done|split; [simpl; lia|by left]]).
    + rewrite Harr. intros [= <- <-]. unfold readSlice. cbn [arrays ptr off len cap].
      rewrite lookup_insert_eq, Harr. simpl_default. split.
      * apply inserts_window. lia.
      * split; [simpl; lia|]. right. eexists. cbn [arrays ptr off len cap].
        rewrite lookup_insert_eq. split; [done|]. rewrite length_inserts. done.
  - intros [= <- <-]. unfold readSlice at 1. cbn [arrays ptr off len cap].
    rewrite lookup_insert_eq. simpl_default. rewrite drop_0.
    assert (length (readSlice h s) = len s) as Hrd.
    { unfold readSlice. rewrite length_take, length_drop.
      destruct Hcap as [Hcap|(arr & Harr & Hoff)]; [lia|].
      rewrite Harr. simpl_default. lia. }
    split.
    + rewrite app_assoc. rewrite take_app_length'; [done|].
      rewrite length_app. lia.
    + split; [simpl; lia|]. right. eexists. cbn [arrays ptr off len cap].
      rewrite lookup_insert_eq. split; [done|].
      rewrite !length_app, length_replicate. lia.
Qed.

(** [append] leaves a slice that is separate from its argument as it is. *)
Lemma append_other (slack : nat → nat → nat) (h h' : heap) (s s' t : slice)
    (xs : list PieceType) :
  sliceOk h s → sliceOk h t → separate s t → append slack h s xs = (h', s') →
  readSlice h' t = readSlice h t ∧ sliceOk h' t ∧ separate s' t.
Proof.
  intros (Hlen & Hcap) (Hlent & Hcapt) Hsep. unfold append.
  assert (cap t = 0 → ∀ h1 h2, readSlice h1 t = readSlice h2 t ∧ sliceOk h1 t) as Hzero.
  { intros Ht h1 h2. unfold readSlice. assert (len t = 0) as -> by lia.
    split; [done|]. split; [lia|by left]. }
  destruct (decide (len s + length xs ≤ cap s)) as [Hfit|Hgrow].
  - destruct (arrays h !! ptr s) as [arr|] eqn:Harr; intros [= <- <-].
    2:{ split; [done|]. split; [by split|]. done. }
    destruct Hsep as [Hs|[Ht|Hne]].
    + assert (xs = []) as -> by (destruct xs; [done|simpl in Hfit; lia]).
      cbn [list_inserts]. rewrite insert_id by done. destruct h.
      split; [done|]. split; [by split|by left].
    + destruct (Hzero Ht (mkHeap (<[ptr s:=list_inserts (off s + len s) xs arr]> (arrays h))
                            (boards h)) h) as [? ?].
      split_and!; [done..|]. right. by left.
    + split_and!.
      * unfold readSlice. cbn [arrays]. by rewrite lookup_insert_ne.
      * split; [done|]. destruct Hcapt as [?|(arr' & Harr' & ?)]; [by left|right].
        exists arr'. cbn [arrays]. by rewrite lookup_insert_ne.
      * right. by right.
  - intros [= <- <-].
    destruct Hcapt as [Ht|(arr' & Harr' & Hoff')].
    + destruct (Hzero Ht (mkHeap (<[fresh (dom (arrays h)):=
                                     readSlice h s ++ xs ++ replicate (slack (cap s) (len s + length xs)) Empty]>
                                    (arrays h)) (boards h)) h) as [? ?].
      split_and!; [done..|]. right. by left.
    + assert (fresh (dom (arrays h)) ≠ ptr t) as Hne.
      { intros Heq. apply (is_fresh (dom (arrays h))). rewrite Heq.
        apply elem_of_dom. eauto. }
      split_and!.
      * unfold readSlice. cbn [arrays]. by rewrite lookup_insert_ne.
      * split; [done|]. right. exists arr'. cbn [arrays]. by rewrite lookup_insert_ne.
      * right. by right.
Qed.

Lemma indexOf_None (k : PieceType) (l : list PieceType) :
  indexOf k l = None → removeFirst k l = l.
Proof.
  induction l as [|p l IH]; simpl; [done|]. case_bool_decide; [done|].
  destruct (indexOf k l); [done|]. intros _. by rewrite IH.
Qed.

Lemma indexOf_Some (k : PieceType) (l : list PieceType) (i : nat) :
  indexOf k l = Some i → i < length l ∧ removeFirst k l = take i l ++ drop (S i) l.
Proof.
  revert i. induction l as [|p l IH]; intros i; simpl; [done|].
  case_bool_decide.
  - intros [= <-]. split; [lia|done].
  - destruct (indexOf k l) as [j|]; [|done]. intros [= <-].
    destruct (IH j eq_refl) as [Hj ->]. split; [lia|done].
Qed.

Lemma readSlice_length (h : heap) (s : slice) :
  sliceOk h s → length (readSlice h s) = len s.
Proof.
  intros (Hlen & Hcap). unfold readSlice. rewrite length_take, length_drop.
  destruct Hcap as [Hcap|(arr & Harr & Hoff)]; [lia|].
  rewrite Harr. simpl_default. lia.
Qed.

Lemma removeAt_parts (h : heap) (s : slice) (i : nat) :
  i < len s →
  sliceOk h s →
  sliceOk h (subSlice s 0 i) ∧
  readSlice h (subSlice s 0 i) = take i (readSlice h s) ∧
  readSlice h (subSlice s (i + 1) (len s)) = drop (S i) (readSlice h s).
Proof.
  intros Hi (Hlen & Hcap). split_and!.
  - split; [simpl; lia|]. destruct Hcap as [Hcap|(arr & Harr & Hoff)]; [lia|].
    right. exists arr. simpl. split; [done|lia].
  - unfold readSlice. cbn [subSlice ptr off len cap].
    rewrite Nat.add_0_r, Nat.sub_0_r, take_take. f_equal. lia.
  - unfold readSlice. cbn [subSlice ptr off len cap].
    rewrite <- drop_drop, take_drop_commute. do 2 f_equal; lia.
Qed.

(** The removal loop on a slice removes the first occurrence. *)
Lemma removeAt_read (slack : nat → nat → nat) (h h' : heap) (s s' : slice)
    (k : PieceType) :
  sliceOk h s → removeAt slack h s k = (h', s') →
  readSlice h' s' = removeFirst k (readSlice h s) ∧ sliceOk h' s'.
Proof.
  intros Hok. unfold removeAt. destruct (indexOf k (readSlice h s)) as [i|] eqn:Hi.
  - destruct (indexOf_Some _ _ _ Hi) as [Hlt ->]. rewrite readSlice_length in Hlt by done.
    destruct (removeAt_parts h s i Hlt Hok) as (Hok0 & <- & <-).
    by apply append_read.
  - intros [= <- <-]. by rewrite indexOf_None.
Qed.

Lemma removeAt_other (slack : nat → nat → nat) (h h' : heap) (s s' t : slice)
    (k : PieceType) :
  sliceOk h s → sliceOk h t → separate s t → removeAt slack h s k = (h', s') →
  readSlice h' t = readSlice h t ∧ sliceOk h' t.
Proof.
  intros Hok Hokt Hsep. unfold removeAt.
  destruct (indexOf k (readSlice h s)) as [i|] eqn:Hi.
  - destruct (indexOf_Some _ _ _ Hi) as [Hlt _]. rewrite readSlice_length in Hlt by done.
    destruct (removeAt_parts h s i Hlt Hok) as (Hok0 & _ & _).
    intros Hap. eapply append_other in Hap as (? & ? & _); [done|done|done|].
    destruct Hsep as [?|[?|?]]; [left; simpl; lia|right; by left|right; by right].
  - by intros [= <- <-].
Qed.

Lemma separate_sym (s t : slice) : separate s t → separate t s.
Proof. intros [?|[?|?]]; [right; by left|by left|right; by right]. Qed.

Lemma readSlice_setBoard (h : heap) (p : loc) (st : BoardStruct) (s : slice) :
  readSlice (setBoard h p st) s = readSlice h s.
Proof. done. Qed.

Lemma view_setBoard (h : heap) (p : loc) (st : BoardStruct) :
  view (setBoard h p st) p
  = Some (mkBoard (sCells st) (readSlice h (sFirstHand st)) (readSlice h (sSecondHand st))
            (sCurrentTurn st)).
Proof. unfold view. cbn [setBoard boards]. by rewrite lookup_insert_eq. Qed.

(** [MakeMove] on a board whose hands are usable and separate does to what
    the board shows what [MakeMove] on values does, and panics when that
    panics. *)
Lemma MakeMove_refines (slack : nat → nat → nat) (h : heap) (nb : loc) (st : BoardStruct)
    (move : Move) :
  boards h !! nb = Some st →
  sliceOk h (sFirstHand st) → sliceOk h (sSecondHand st) →
  separate (sFirstHand st) (sSecondHand st) →
  let b := mkBoard (sCells st) (readSlice h (sFirstHand st))
             (readSlice h (sSecondHand st)) (sCurrentTurn st) in
  match MakeMove slack h nb move with
  | (h', Ret _) => ∃ b', MakeMoveOnValue b move = Ret b' ∧ view h' nb = Some b'
  | (h', Fail f) => MakeMoveOnValue b move = Fail f
  end.
Proof.
  intros Hst Hfh Hsh Hsep b. unfold MakeMove. rewrite Hst.
  unfold MakeMoveOnValue, cellAt. cbn [Cells CurrentTurn FirstHand SecondHand b].
  destruct (IsDrop move).
  - destruct (setCell _ _ _ _) as [cells|f]; [|done]. cbn [bind].
    case_bool_decide.
    + destruct (removeAt slack h (sSecondHand st) (DropPiece move)) as [h1 hand] eqn:Hrm.

      destruct (removeAt_read _ _ _ _ _ _ Hsh Hrm) as [Hread _].
      destruct (removeAt_other _ _ _ _ _ (sFirstHand st) _ Hsh Hfh
                  (separate_sym _ _ Hsep) Hrm) as [Hother _].
      eexists. split; [done|]. rewrite view_setBoard. cbn [sCells sFirstHand sSecondHand
        sCurrentTurn]. by rewrite Hread, Hother.
    + destruct (removeAt slack h (sFirstHand st) (DropPiece move)) as [h1 hand] eqn:Hrm.
      destruct (removeAt_read _ _ _ _ _ _ Hfh Hrm) as [Hread _].
      destruct (removeAt_other _ _ _ _ _ (sSecondHand st) _ Hfh Hsh Hsep Hrm)
        as [Hother _].
      eexists. split; [done|]. rewrite view_setBoard. cbn [sCells sFirstHand sSecondHand
        sCurrentTurn]. by rewrite Hread, Hother.
  - destruct (getCell _ (FromRow move) _) as [piece|f]; [|done].
    destruct (getCell _ (ToRow move) _) as [captured|f]; [|done].
    cbn [bind]. cbn zeta.
    destruct (bool_decide (Owner captured ≠ PNone)).
    + destruct (bool_decide (sCurrentTurn st = First)).
      * destruct (append slack h (sFirstHand st) _) as [h1 hand] eqn:Hap.
        destruct (append_read _ _ _ _ _ _ Hfh Hap) as [Hread _].
        destruct (append_other _ _ _ _ _ (sSecondHand st) _ Hfh Hsh Hsep Hap)
          as (Hother & _ & _).
        destruct (setCell (sCells st) _ _ _) as [cells1|f]; cbn [bind]; [|done].
        destruct (setCell cells1 _ _ _) as [cells|f]; cbn [bind]; [|done].
        eexists. split; [done|]. rewrite view_setBoard. cbn [sCells sFirstHand sSecondHand
          sCurrentTurn]. by rewrite Hread, Hother.
      * destruct (append slack h (sSecondHand st) _) as [h1 hand] eqn:Hap.
        destruct (append_read _ _ _ _ _ _ Hsh Hap) as [Hread _].
        destruct (append_other _ _ _ _ _ (sFirstHand st) _ Hsh Hfh
                    (separate_sym _ _ Hsep) Hap) as (Hother & _ & _).
        destruct (setCell (sCells st) _ _ _) as [cells1|f]; cbn [bind]; [|done].
        destruct (setCell cells1 _ _ _) as [cells|f]; cbn [bind]; [|done].
        eexists. split; [done|]. rewrite view_setBoard. cbn [sCells sFirstHand sSecondHand
          sCurrentTurn]. by rewrite Hread, Hother.
    + destruct (setCell (sCells st) _ _ _) as [cells1|f]; cbn [bind]; [|done].
      destruct (setCell cells1 _ _ _) as [cells|f]; cbn [bind]; [|done].
      eexists. split; [done|]. by rewrite view_setBoard.
Qed.

Lemma sliceOk_setBoard (h : heap) (p : loc) (st : BoardStruct) (s : slice) :
  sliceOk h s → sliceOk (setBoard h p st) s.
Proof. done. Qed.

(** The copy and the move on the copy, seen from the program: the copy
    shows what [MakeMove] on the value of the original returns, and the
    call panics exactly when that panics. This is what [Minimax] above
    relies on when it applies [MakeMove] to the value [b]. *)
Lemma cloneAndMove_refines (slack : nat → nat → nat) (h : heap) (bp : loc) (move : Move)
    (b : Board) :
  view h bp = Some b →
  boardOk h bp →
  match cloneAndMove slack h bp move with
  | (h', Ret nb) => ∃ b', MakeMoveOnValue b move = Ret b' ∧ view h' nb = Some b'
  | (h', Fail f) => MakeMoveOnValue b move = Fail f
  end.
Proof.
  intros Hview (st & Hst & Hfh & Hsh). unfold view in Hview. rewrite Hst in Hview.
  injection Hview as <-. unfold cloneAndMove, clone. rewrite Hst.
  destruct (append slack h emptySlice (readSlice h (sFirstHand st))) as [h1 fh] eqn:H1.
  destruct (append_read _ _ _ _ _ _ (sliceOk_empty h) H1) as [Hread1 Hok1].
  destruct (append_other _ _ _ _ _ (sSecondHand st) _ (sliceOk_empty h) Hsh
              ltac:(by left) H1) as (Hsh1 & Hoksh1 & _).
  destruct (append slack h1 emptySlice (readSlice h1 (sSecondHand st))) as [h2 sh] eqn:H2.
  destruct (append_read _ _ _ _ _ _ (sliceOk_empty h1) H2) as [Hread2 Hok2].
  destruct (append_other _ _ _ _ _ fh _ (sliceOk_empty h1) Hok1 ltac:(by left) H2)
    as (Hfh2 & Hokfh2 & Hsep).
  set (nb := fresh (dom (boards h2))).
  set (stc := mkBoardStruct (sCells st) fh sh (sCurrentTurn st)).
  pose proof (MakeMove_refines slack (setBoard h2 nb stc) nb stc move) as Href.
  cbn zeta in Href. cbn [sCells sFirstHand sSecondHand sCurrentTurn stc] in Href.
  rewrite !readSlice_setBoard in Href.
  rewrite Hfh2, Hread1, Hread2, Hsh1 in Href.
  assert (readSlice h emptySlice = []) as Hnil by done.
  assert (readSlice h1 emptySlice = []) as Hnil1 by done.
  rewrite Hnil, Hnil1 in Href. cbn [app] in Href.
  specialize (Href ltac:(cbn [setBoard boards]; by rewrite lookup_insert_eq)
                   ltac:(by apply sliceOk_setBoard) ltac:(by apply sliceOk_setBoard)
                   ltac:(by apply separate_sym)).
  by destruct (MakeMove slack (setBoard h2 nb stc) nb move) as [h4 [[]|f]].
Qed.

End HeapRefine.

(** ** Parsing a line *)

Lemma byteOf_range (a : ascii) : 0 ≤ byteOf a < 256.
Proof.
  unfold byteOf. pose proof (N_ascii_bounded a). lia.
Qed.

Lemma byteOf_inj (a a' : ascii) : byteOf a = byteOf a' → a = a'.
Proof.
  unfold byteOf. intros H. rewrite <- (ascii_N_embedding a), <- (ascii_N_embedding a').
  f_equal. lia.
Qed.

Lemma digitIndex_range (a : ascii) :
  0 ≤ digitIndex (byteOf a) < 5 ↔ 49 ≤ byteOf a ≤ 53.
Proof.
  pose proof (byteOf_range a). unfold digitIndex.
  change (byteOf "0") with 48. split; intros ?; Z.div_mod_to_equations; lia.
Qed.

Lemma digitChar_digitIndex (a : ascii) :
  0 ≤ digitIndex (byteOf a) < 5 → digitChar (digitIndex (byteOf a)) = a.
Proof.
  intros H. pose proof (proj1 (digitIndex_range a) H) as Hr.
  apply byteOf_inj. unfold digitChar, digitIndex in *. change (byteOf "0") with 48 in *.
  rewrite Z.mod_small by lia.
  unfold byteOf at 1. rewrite N_ascii_embedding; [|lia]. lia.
Qed.

Lemma digitIndex_digitChar (i : Z) :
  0 ≤ i < 5 → digitIndex (byteOf (digitChar i)) = i.
Proof. intros H. case_index i; reflexivity. Qed.

Lemma isDigit_digitChar (i : Z) : 0 ≤ i < 5 → isDigit (byteOf (digitChar i)) = true.
Proof. intros H. case_index i; reflexivity. Qed.

Lemma digitIndex_isDigit (a : ascii) :
  0 ≤ digitIndex (byteOf a) < 5 → isDigit (byteOf a) = true.
Proof.
  intros H%digitIndex_range. unfold isDigit.
  change (byteOf "0") with 48. change (byteOf "9") with 57. lia.
Qed.

Lemma pieces_Some (a : ascii) (k : PieceType) :
  pieces (byteOf a) = Some k ↔
  a = pieceLetter k ∧ k ∈ [Pawn; Silver; Gold; Bishop; Rook].
Proof.
  unfold pieces. split.
  - repeat case_match; intros [= <-];
      (split; [apply byteOf_inj; simpl; lia | set_solver]).
  - intros [-> Hk]. repeat (apply elem_of_cons in Hk as [->|Hk]); try reflexivity.
    by apply elem_of_nil in Hk.
Qed.

Lemma pieces_not_digit (k : PieceType) :
  k ∈ [Pawn; Silver; Gold; Bishop; Rook] → isDigit (byteOf (pieceLetter k)) = false.
Proof.
  intros Hk. repeat (apply elem_of_cons in Hk as [->|Hk]); try reflexivity.
  by apply elem_of_nil in Hk.
Qed.

Lemma inRange_isInBoard (r c : Z) :
  (0 <=? c) && (c <? 5) && (0 <=? r) && (r <? 5) = isInBoard r c.
Proof. unfold isInBoard. lia. Qed.

Section ParseFacts.

Variables ToLower TrimSpace : string → string.

Lemma parseInput_spec (input : string) (board : Board) :
  (∃ r, parseInput ToLower TrimSpace input board = Ret r) ∧
  ∀ m, parseInput ToLower TrimSpace input board = Ret (Some m)
       ↔ typable m ∧ TrimSpace (ToLower input) = encode m.
Proof.
  unfold parseInput. generalize (TrimSpace (ToLower input)). intros s.
  destruct s as [|a0 [|a1 [|a2 [|a3 [|a4 s]]]]].
  - split; [by eexists|]. intros m; split; [done|]. unfold encode. intros [_ H].
    by destruct (IsDrop m).
  - split; [by eexists|]. intros m; split; [done|]. unfold encode. intros [_ H].
    by destruct (IsDrop m).
  - split; [by eexists|]. intros m; split; [done|]. unfold encode. intros [_ H].
    by destruct (IsDrop m).
  - (* three bytes *)
    cbn [String.length Nat.eqb bind byteAt String.get].
    change (byteAt (String a0 (String a1 (String a2 EmptyString))) 0) with (Ret (byteOf a0)).
    change (byteAt (String a0 (String a1 (String a2 EmptyString))) 1) with (Ret (byteOf a1)).
    change (byteAt (String a0 (String a1 (String a2 EmptyString))) 2) with (Ret (byteOf a2)).
    cbn [bind].
    destruct (isDigit (byteOf a0)) eqn:Hd; cbn [negb bind].
    { split; [by eexists|]. intros m; split; [done|]. intros [Ht Henc].
      unfold encode, typable in *. destruct (IsDrop m); [|done].
      destruct Ht as (_ & _ & _ & _ & Hk). injection Henc as -> -> ->.
      by rewrite pieces_not_digit in Hd. }
    destruct (pieces (byteOf a0)) as [k|] eqn:Hp; cbn [bind].
    2:{ split; [by eexists|]. intros m; split; [done|]. intros [Ht Henc].
        unfold encode, typable in *. destruct (IsDrop m); [|done].
        destruct Ht as (_ & _ & _ & _ & Hk). injection Henc as -> -> ->.
        assert (pieces (byteOf (pieceLetter (DropPiece m))) = Some (DropPiece m)) as Hs
          by by apply pieces_Some.
        congruence. }
    apply pieces_Some in Hp as [-> Hk].
    rewrite inRange_isInBoard.
    destruct (isInBoard (digitIndex (byteOf a2)) (digitIndex (byteOf a1))) eqn:Hin;
      cbn [bind].
    + split; [by eexists|]. intros m; split.
      * intros [= <-]. apply isInBoard_spec in Hin as [Hr Hc].
        unfold typable, encode; cbn [IsDrop ToRow ToCol Promote FromRow FromCol DropPiece].
        split_and!; try done.
        -- apply isInBoard_spec. lia.
        -- by rewrite !digitChar_digitIndex.
      * intros [Ht Henc]. unfold encode, typable in *.
        destruct m as [fr fc tr tc dr dp pr]; cbn in *. destruct dr; [|done].
        destruct Ht as (Hb & -> & -> & -> & Hdp). injection Henc as Hl -> ->.
        apply isInBoard_spec in Hb as [Hr Hc].
        rewrite !digitIndex_digitChar by done.
        assert (k = dp) as ->; [|done].
        apply (f_equal byteOf) in Hl. 
        repeat (apply elem_of_cons in Hk as [->|Hk]; [|]);
          try (by apply elem_of_nil in Hk);
          (repeat (apply elem_of_cons in Hdp as [->|Hdp]; [|]);
           try (by apply elem_of_nil in Hdp); first [done | by vm_compute in Hl]).
    + split; [by eexists|]. intros m; split; [done|]. intros [Ht Henc].
      unfold encode, typable in *.
      destruct m as [fr fc tr tc dr dp pr]; cbn in *. destruct dr; [|done].
      destruct Ht as (Hb & _). injection Henc as _ -> ->.
      pose proof Hb as Hb'. apply isInBoard_spec in Hb' as [Hr Hc].
      rewrite !digitIndex_digitChar in Hin by done. congruence.
  - (* four bytes *)
    cbn [String.length Nat.eqb bind].
    change (byteAt (String a0 (String a1 (String a2 (String a3 EmptyString)))) 0)
      with (Ret (byteOf a0)).
    change (byteAt (String a0 (String a1 (String a2 (String a3 EmptyString)))) 1)
      with (Ret (byteOf a1)).
    change (byteAt (String a0 (String a1 (String a2 (String a3 EmptyString)))) 2)
      with (Ret (byteOf a2)).
    change (byteAt (String a0 (String a1 (String a2 (String a3 EmptyString)))) 3)
      with (Ret (byteOf a3)).
    cbn [bind].
    assert (∀ x y z w : bool, x && y && z && w && (0 <=? digitIndex (byteOf a2))
              && (digitIndex (byteOf a2) <? 5) && (0 <=? digitIndex (byteOf a3))
              && (digitIndex (byteOf a3) <? 5)
            = (x && y && z && w)
              && isInBoard (digitIndex (byteOf a3)) (digitIndex (byteOf a2))) as Hre.
    { intros. rewrite <- inRange_isInBoard. by rewrite !andb_assoc. }
    rewrite Hre, inRange_isInBoard. clear Hre.
    destruct (isDigit (byteOf a0)) eqn:Hd; cbn [bind].
    2:{ split; [by eexists|]. intros m; split; [done|]. intros [Ht Henc].
        unfold encode, typable in *.
        destruct m as [fr fc tr tc dr dp pr]; cbn in *. destruct dr; [done|].
        destruct Ht as (_ & _ & Hb & _). injection Henc as -> _ _ _.
        apply isInBoard_spec in Hb as [Hr Hc].
        by rewrite isDigit_digitChar in Hd. }
    destruct (isInBoard (digitIndex (byteOf a1)) (digitIndex (byteOf a0))
              && isInBoard (digitIndex (byteOf a3)) (digitIndex (byteOf a2))) eqn:Hin.
    + split; [by eexists|]. apply andb_prop in Hin as [Hf Ht].
      intros m; split.
      * intros [= <-]. pose proof Hf as Hf'. pose proof Ht as Ht'.
        apply isInBoard_spec in Hf' as [? ?]. apply isInBoard_spec in Ht' as [? ?].
        unfold typable, encode; cbn [IsDrop ToRow ToCol Promote FromRow FromCol DropPiece].
        split_and!; try done.
        by rewrite !digitChar_digitIndex.
      * intros [Hty Henc]. unfold encode, typable in *.
        destruct m as [fr fc tr tc dr dp pr]; cbn in *. destruct dr; [done|].
        destruct Hty as (Hb & -> & Hb' & ->). injection Henc as -> -> -> ->.
        apply isInBoard_spec in Hb as [? ?]. apply isInBoard_spec in Hb' as [? ?].
        by rewrite !digitIndex_digitChar.
    + split; [by eexists|]. intros m; split; [done|]. intros [Hty Henc].
      unfold encode, typable in *.
      destruct m as [fr fc tr tc dr dp pr]; cbn in *. destruct dr; [done|].
      destruct Hty as (Hb & _ & Hb' & _). injection Henc as -> -> -> ->.
      pose proof Hb as Hb1. pose proof Hb' as Hb2.
      apply isInBoard_spec in Hb1 as [? ?]. apply isInBoard_spec in Hb2 as [? ?].
      rewrite !digitIndex_digitChar in Hin by done.
      rewrite Hb, Hb' in Hin. done.
  - (* five bytes or more *)
    split; [by eexists|]. intros m; split; [done|]. unfold encode. intros [_ H].
    by destruct (IsDrop m).
Qed.

(** [parseInput] never panics, and it returns a move exactly when the
    line, once in lower case and trimmed, is the text of a move that can
    be typed; it then returns that move. *)
Theorem parseInput_exact (input : string) (board : Board) :
  (∃ r, parseInput ToLower TrimSpace input board = Ret r) ∧
  ∀ m, parseInput ToLower TrimSpace input board = Ret (Some m)
       ↔ typable m ∧ TrimSpace (ToLower input) = encode m.
Proof. apply parseInput_spec. Qed.

End ParseFacts.

(** ** The move that the search returns *)

Lemma firstBest_member (beats : Z → Z → Prop) (init : Z) (moves : list Move)
    (es : list Z) (v : Z) (best : option Move) (m : Move) :
  firstBest beats init None moves es v best → best = Some m → m ∈ moves.
Proof.
  intros [(_ & _ & ->)|(i & m' & Hi & -> & _)] [= <-]. by eapply list_elem_of_lookup_2.
Qed.

Lemma firstBest_Some (beats : Z → Z → Prop) (init : Z) (moves : list Move)
    (es : list Z) (v : Z) (best : option Move) (e : Z) :
  firstBest beats init None moves es v best → e ∈ es → beats e init → ∃ m, best = Some m.
Proof.
  intros [(Hall & _ & _)|(i & m' & Hi & -> & _)] He Hbeats; [|by eexists].
  rewrite Forall_forall in Hall. by destruct (Hall e He).
Qed.

(** A move that [Minimax] returns is one of the legal moves of the node. *)
Lemma Minimax_best_legal (fuel : nat) (o : Oracle) (b : Board) (depth alpha beta : Z)
    (maximizing : bool) (v : Z) (m : Move) :
  Minimax fuel o b depth alpha beta maximizing = Ret (v, Some m) →
  ∃ ms, GetAllLegalMoves (o []) b = Ret ms ∧ m ∈ ms.
Proof.
  destruct fuel as [|fuel]; [done|]. rewrite Minimax_unfold.
  destruct (depth =? 0); [done|].
  destruct (IsGameOver b) as [[over w]|]; [|done]. cbn [bind fst].
  destruct over; [done|].
  destruct (GetAllLegalMoves (o []) b) as [ms|]; [|done]. cbn [bind].
  destruct (length ms =? 0)%nat; [done|].
  intros Hrun. exists ms. split; [done|]. destruct maximizing.
  - unfold maxLoop in Hrun. apply bind_Ret in Hrun as ([[v' best'] a'] & Hrun & [= -> ->]).
    rewrite indexed_from_0 in Hrun.
    apply maxLoop_trace_gen in Hrun as (es & _ & _ & Hbest & _).
    by eapply firstBest_member.
  - unfold minLoop in Hrun. apply bind_Ret in Hrun as ([[v' best'] a'] & Hrun & [= -> ->]).
    rewrite indexed_from_0 in Hrun.
    apply minLoop_trace_gen in Hrun as (es & _ & _ & Hbest & _).
    by eapply firstBest_member.
Qed.

Lemma reachable_step (b b' : Board) : reachable b → step b b' → reachable b'.
Proof. unfold reachable. intros Hb Hs. by eapply rtc_r. Qed.

Lemma totalWeight_reachable (b : Board) : reachable b → totalWeight b = 27800.
Proof.
  intros Hb. rewrite <- totalWeight_NewBoard. unfold totalWeight.
  apply measure_reachable; [..|done].
  - intros k. unfold weight. by rewrite demote_idemp.
  - intros k. unfold weight. by rewrite demote_promoteType.
Qed.

Lemma fullMinimax_reachable_material (d : nat) (b : Board) (maximizing : bool) :
  reachable b → -27800 ≤ fullMinimax d b maximizing ≤ 27800.
Proof.
  intros Hb. destruct (fullMinimax_attained d b maximizing) as (b' & Hreach & ->).
  assert (reachable b') as Hb' by (unfold reachable in *; by etrans).
  pose proof (totalWeight_reachable b' Hb') as Hw.
  pose proof (scoreOf_bound b' ltac:(lia)). lia.
Qed.

(** In a state of a game that is not over and has a legal move, the
    search under the full window returns a move. *)
Lemma Minimax_moves (fuel : nat) (o : Oracle) (b : Board) (depth : Z) (maximizing : bool)
    (ms : list Move) :
  reachable b →
  0 < depth < 2 ^ 63 → (Z.to_nat depth < fuel)%nat →
  IsGameOver b = Ret (false, PNone) →
  GetAllLegalMoves (o []) b = Ret ms → ms ≠ [] →
  ∃ v m, Minimax fuel o b depth (-999999) 999999 maximizing = Ret (v, Some m).
Proof.
  intros Hb Hd Hfuel Hover Hms Hne.
  destruct (Minimax_sound fuel o b depth (-999999) 999999 maximizing)
    as (v & best & Hrun & _); [lia..|].
  exists v. destruct best as [m|]; [by exists m|]. exfalso.
  destruct fuel as [|fuel]; [done|]. rewrite Minimax_unfold in Hrun.
  destruct (Z.eqb_spec depth 0) as [?|_]; [lia|].
  rewrite Hover, Hms in Hrun. cbn [bind fst] in Hrun.
  destruct ms as [|m0 ms0] eqn:Hmseq; [done|]. rewrite <- Hmseq in *.
  replace (length ms =? 0)%nat with false in Hrun by (by rewrite Hmseq).
  assert (∀ next, ∃ e,
            childScore fuel o b depth next 0%nat m0 (-999999) 999999 = Ret e
            ∧ -999999 < e < 999999) as Hfirst.
  { intros next.
    assert (m0 ∈ ms) as Hm0 by (rewrite Hmseq; by left).
    destruct (MakeMove_legal b m0) as [nb Hnb]; [by eapply GetAllLegalMoves_legal|].
    assert (reachable nb) as Hnb'.
    { eapply reachable_step; [done|]. by exists (o []), ms, m0. }
    unfold childScore. rewrite Hnb. cbn [bind]. rewrite wrap64_id by lia.
    destruct (Minimax_sound fuel (child o 0) nb (depth - 1) (-999999) 999999 next)
      as (e & best & -> & Hlow & Hhigh & Hmid); [lia..|].
    cbn [bind fst]. exists e. split; [done|].
    pose proof (fullMinimax_reachable_material (Z.to_nat (depth - 1)) nb next Hnb'). lia. }
  destruct maximizing.
  - unfold maxLoop in Hrun. apply bind_Ret in Hrun as ([[v' best'] a'] & Hrun & [= -> ->]).
    rewrite indexed_from_0 in Hrun.
    apply maxLoop_trace_gen in Hrun as (es & (Hlen & Hev & _ & Hcut) & _ & Hbest & _).
    destruct (Hfirst false) as (e & He & Hrange).
    destruct es as [|e0 es'].
    { simpl in Hcut. rewrite Hmseq in Hcut. simpl in Hcut.
      specialize (Hcut ltac:(lia)). lia. }
    assert (e0 = e) as ->.
    { specialize (Hev 0%nat m0 e0). rewrite Hmseq in Hev. simpl in Hev.
      specialize (Hev eq_refl eq_refl). congruence. }
    destruct (firstBest_Some _ _ _ _ _ _ e Hbest) as [m Hm]; [by left|lia|done].
  - unfold minLoop in Hrun. apply bind_Ret in Hrun as ([[v' best'] a'] & Hrun & [= -> ->]).
    rewrite indexed_from_0 in Hrun.
    apply minLoop_trace_gen in Hrun as (es & (Hlen & Hev & _ & Hcut) & _ & Hbest & _).
    destruct (Hfirst true) as (e & He & Hrange).
    destruct es as [|e0 es'].
    { simpl in Hcut. rewrite Hmseq in Hcut. simpl in Hcut.
      specialize (Hcut ltac:(lia)). lia. }
    assert (e0 = e) as ->.
    { specialize (Hev 0%nat m0 e0). rewrite Hmseq in Hev. simpl in Hev.
      specialize (Hev eq_refl eq_refl). congruence. }
    destruct (firstBest_Some _ _ _ _ _ _ e Hbest) as [m Hm]; [by left|lia|done].
Qed.

Lemma GetAIMove_total (fuel : nat) (o : Oracle) (b : Board) :
  (3 < fuel)%nat → ∃ r, GetAIMove fuel o b = Ret r.
Proof.
  intros Hfuel. unfold GetAIMove.
  destruct (Minimax_sound fuel o b 3 (-999999) 999999 (bool_decide (CurrentTurn b = First)))
    as (v & best & -> & _); [lia..|].
  by eexists.
Qed.

Lemma GetAIMove_member (fuel : nat) (o : Oracle) (b : Board) (m : Move) :
  GetAIMove fuel o b = Ret (Some m) →
  ∃ ms, GetAllLegalMoves (o []) b = Ret ms ∧ m ∈ ms.
Proof.
  unfold GetAIMove. intros Hrun.
  apply bind_Ret in Hrun as ([v best] & Hrun & [= ->]).
  by eapply Minimax_best_legal.
Qed.

(** [GetAIMove] returns, and a move that it returns is one of the moves
    that [GetAllLegalMoves] lists for the position. It returns no move
    when the game is over or when there is no legal move. *)
Theorem GetAIMove_legal (fuel : nat) (o : Oracle) (b : Board) :
  (3 < fuel)%nat →
  ∃ r ms,
    GetAIMove fuel o b = Ret r ∧
    GetAllLegalMoves (o []) b = Ret ms ∧
    (∀ m, r = Some m → m ∈ ms) ∧
    ((∃ w, IsGameOver b = Ret (true, w)) ∨ ms = [] → r = None).
Proof.
  intros Hfuel. destruct (GetAIMove_total fuel o b Hfuel) as [r Hr].
  exists r, (boardMoves b ++ dropMoves (o []) b).
  rewrite GetAllLegalMoves_eq. split_and!; try done.
  - intros m ->. apply GetAIMove_member in Hr as (ms & Hms & Hm).
    rewrite GetAllLegalMoves_eq in Hms. by injection Hms as <-.
  - intros Hleaf. unfold GetAIMove in Hr.
    destruct fuel as [|fuel]; [lia|]. rewrite Minimax_unfold in Hr.
    cbn [Z.eqb] in Hr. rewrite GetAllLegalMoves_eq in Hr.
    destruct Hleaf as [[w Hw]|Hnil].
    + rewrite Hw in Hr. cbn in Hr. by injection Hr as <-.
    + rewrite Hnil in Hr.
      destruct (IsGameOver b) as [[[] w]|]; cbn in Hr; try done; by injection Hr as <-.
Qed.

(** In a state of a game that is not over and in which the mover has a
    legal move, [GetAIMove] returns a move. *)
Theorem GetAIMove_moves (fuel : nat) (o : Oracle) (b : Board) (ms : list Move) :
  (3 < fuel)%nat →
  reachable b →
  IsGameOver b = Ret (false, PNone) →
  GetAllLegalMoves (o []) b = Ret ms → ms ≠ [] →
  ∃ m, GetAIMove fuel o b = Ret (Some m) ∧ m ∈ ms.
Proof.
  intros Hfuel Hb Hover Hms Hne.
  destruct (Minimax_moves fuel o b 3 (bool_decide (CurrentTurn b = First)) ms)
    as (v & m & Hrun); [done|lia|lia|done..|].
  assert (GetAIMove fuel o b = Ret (Some m)) as Hai.
  { unfold GetAIMove. by rewrite Hrun. }
  exists m. split; [done|].
  apply GetAIMove_member in Hai as (ms' & Hms' & Hm). congruence.
Qed.

Lemma GetAIMove_legal_witness :
  ∃ r ms,
    GetAIMove 4 (λ _, []) NewBoard = Ret r ∧
    GetAllLegalMoves [] NewBoard = Ret ms ∧
    (∀ m, r = Some m → m ∈ ms) ∧
    ((∃ w, IsGameOver NewBoard = Ret (true, w)) ∨ ms = [] → r = None).
Proof. apply (GetAIMove_legal 4 (λ _, []) NewBoard). lia. Defined.

Lemma GetAIMove_moves_witness :
  ∃ m, GetAIMove 4 (λ _, []) NewBoard = Ret (Some m)
       ∧ m ∈ orElse (GetAllLegalMoves [] NewBoard) [].
Proof.
  apply (GetAIMove_moves 4 (λ _, []) NewBoard).
  - lia.
  - apply rtc_refl.
  - reflexivity.
  - reflexivity.
  - vm_compute. discriminate.
Defined.

(** ** The game loop *)

Lemma movesEqual_spec (m1 m2 : Move) : movesEqual m1 m2 = true ↔ m1 = m2.
Proof.
  unfold movesEqual. destruct m1, m2; cbn.
  rewrite !andb_true_iff, !Z.eqb_eq, !bool_decide_eq_true. split.
  - intros ((((((-> & ->) & ->) & ->) & ->) & ->) & ->). done.
  - intros [= -> -> -> -> -> -> ->]. done.
Qed.

(** The lookup loop of [main] finds a move exactly when it is in the
    list, and then leaves it as it is. *)
Lemma lookup_spec (legalMoves : list Move) (move : Move) (found : bool) :
  lookup legalMoves move found
  = Ret (move, if bool_decide (move ∈ legalMoves) then true else found).
Proof.
  unfold lookup. induction legalMoves as [|lm ms IH]; [done|].
  cbn [forRange]. cbn [fst]. destruct (movesEqual move lm) eqn:Heq; cbn [bind].
  - apply movesEqual_spec in Heq as <-. rewrite bool_decide_eq_true_2; [done|by left].
  - rewrite IH. do 2 f_equal.
    assert (move ≠ lm) as Hne.
    { intros ->. by rewrite (proj2 (movesEqual_spec lm lm) eq_refl) in Heq. }
    rewrite (bool_decide_ext (move ∈ lm :: ms) (move ∈ ms)); [done|].
    rewrite elem_of_cons. split; [by intros [?|?]|by right].
Qed.

Lemma position_print (g : Game) (o : Output) : position (print g o) = position g.
Proof. done. Qed.

Lemma position_scan (g : Game) : position (scan g).2 = position g.
Proof. unfold scan. by destruct (unread g). Qed.

Lemma elem_of_boardMoves_intro (b : Board) (r c : Z) (ms : list Move) (m : Move) :
  GetPossibleMoves b r c = Ret ms → m ∈ ms → m ∈ boardMoves b.
Proof.
  intros Hms Hm. destruct (GetPossibleMoves_ok b r c ms Hms) as (Hin & _ & Hown).
  unfold boardMoves. apply list_elem_of_bind. exists (r, c). split.
  - cbn [fst snd]. destruct Hown as [Hown _]; [by intros ->; apply elem_of_nil in Hm|].
    rewrite bool_decide_eq_true_2 by done. by rewrite Hms.
  - by apply elem_of_coords.
Qed.

(** Where the promoting move is legal, so is the same move without the
    promotion. *)
Lemma legal_without_promotion (picks : list nat) (b : Board) (move : Move) :
  IsDrop move = false → DropPiece move = Empty → Promote move = false →
  setPromote move ∈ boardMoves b ++ dropMoves picks b →
  move ∈ boardMoves b ++ dropMoves picks b.
Proof.
  intros Hd He Hp Hin. apply elem_of_app in Hin as [Hin|Hin].
  - apply elem_of_app. left.
    apply elem_of_boardMoves in Hin as (r & c & ms & Hms & Hm).
    destruct (GetPossibleMoves_ok b r c ms Hms) as (_ & Hok & _).
    destruct (Hok _ Hm) as (Hform & _ & _ & Hplain & _).
    apply (elem_of_boardMoves_intro b r c ms); [done|].
    destruct move as [fr fc tr tc dr dp pr]. cbn in *. subst.
    unfold setPromote, plainMove, promoMove in *. cbn in *.
    destruct Hform as [[=]|[= -> ->]]. done.
  - apply elem_of_dropMoves in Hin as (k & r & c & Heq & _).
    destruct move; cbn in *. subst. unfold setPromote, dropMove in Heq. cbn in Heq. done.
Qed.

Lemma canChoosePromote_total (b : Board) (m : Move) :
  (IsDrop m = false → isInBoard (FromRow m) (FromCol m) = true) →
  ∃ r, canChoosePromote b m = Ret r.
Proof.
  intros Hin. unfold canChoosePromote. destruct (IsDrop m); [by eexists|].
  rewrite cellAt_inBoard by auto. cbn [bind]. destruct (Type_ _); by eexists.
Qed.

Section LoopFacts.

Variables ToLower TrimSpace : string → string.
Variable Atoi : string → Z.

Local Abbreviation parseInput := (parseInput ToLower TrimSpace).
Local Abbreviation humanTurn := (humanTurn ToLower TrimSpace).
Local Abbreviation aiTurn := (aiTurn TrimSpace).
Local Abbreviation iteration := (iteration ToLower TrimSpace).

Lemma parseInput_typable (input : string) (b : Board) (m : Move) :
  parseInput input b = Ret (Some m) → typable m.
Proof. intros H. by apply parseInput_spec in H as [? _]. Qed.

Lemma humanTurn_spec (picks : list nat) (g : Game) :
  ∃ parsed g',
    parseInput (scan g).1 (position g) = Ret parsed ∧
    humanTurn picks g
    = Ret (g', match parsed with
               | Some move =>
                   if bool_decide (move ∈ boardMoves (position g)
                                          ++ dropMoves picks (position g))
                   then Some move else None
               | None => None
               end) ∧
    position g' = position g ∧ printed g `prefix_of` printed g'.
Proof.
  unfold humanTurn.
  assert ((scan (print g PrintPrompt)).1 = (scan g).1) as Hin.
  { unfold scan. cbn. by destruct (unread g). }
  assert (position (scan (print g PrintPrompt)).2 = position g) as Hpos.
  { by rewrite position_scan. }
  assert (printed g `prefix_of` printed (scan (print g PrintPrompt)).2) as Hpre.
  { unfold scan. cbn. destruct (unread g); cbn; by apply prefix_app_r. }
  destruct (scan (print g PrintPrompt)) as [input g2]. cbn [fst snd] in *.
  rewrite Hin, Hpos.
  destruct (proj1 (parseInput_spec ToLower TrimSpace (scan g).1 (position g)))
    as [parsed Hparsed].
  exists parsed. rewrite Hparsed. cbn [bind]. destruct parsed as [move|].
  2:{ eexists. split_and!; try done. cbn. by apply prefix_app_r. }
  rewrite GetAllLegalMoves_eq. cbn [bind].
  set (legal := boardMoves (position g) ++ dropMoves picks (position g)).
  rewrite lookup_spec. cbn [bind].
  destruct (bool_decide (move ∈ legal)) eqn:Hlegal.
  { eexists. split_and!; done. }
  apply bool_decide_eq_false in Hlegal.
  pose proof (parseInput_typable _ _ _ Hparsed) as (Hto & Hpr & Hty).
  destruct (IsDrop move) eqn:Hdrop; cbn [negb bind].
  { eexists. split_and!; try done. cbn. by apply prefix_app_r. }
  destruct Hty as [Hfrom Hdp].
  destruct (canChoosePromote_total (position g) move) as [choose Hchoose]; [done|].
  rewrite Hchoose. cbn [bind]. destruct choose; cbn [bind].
  2:{ eexists. split_and!; try done. cbn. by apply prefix_app_r. }
  assert (position (scan (print g2 PrintAskPromote)).2 = position g) as Hpos3.
  { by rewrite position_scan. }
  assert (printed g `prefix_of` printed (scan (print g2 PrintAskPromote)).2) as Hpre3.
  { unfold scan. cbn. destruct (unread g2); cbn; by apply prefix_app_r. }
  destruct (scan (print g2 PrintAskPromote)) as [answer g3]. cbn [fst snd] in *.
  rewrite lookup_spec. cbn [bind].
  assert (bool_decide ((if bool_decide (answer = "y") then setPromote move else move)
                       ∈ legal) = false) as ->.
  { apply bool_decide_eq_false. case_bool_decide; [|done].
    intros Hin'. apply Hlegal. by eapply legal_without_promotion. }
  eexists. split_and!; try done. cbn. by apply prefix_app_r.
Qed.

Lemma aiTurn_spec (o : Oracle) (g : Game) :
  ∃ g' r,
    aiTurn o g = Ret (g', r) ∧ GetAIMove 4 o (position g) = Ret r ∧
    position g' = position g ∧ unread g' = unread g.
Proof.
  unfold aiTurn. cbn [position print].
  destruct (GetAIMove_total 4 o (position g)) as [r Hr]; [lia|].
  rewrite Hr. cbn [bind]. destruct r as [m|]; [|by eexists _, _].
  destruct (GetAIMove_member _ _ _ _ Hr) as (ms & Hms & Hm).
  pose proof (GetAllLegalMoves_legal _ _ _ _ Hms Hm) as Hlegal.
  assert (isInBoard (ToRow m) (ToCol m) = true ∧
          (IsDrop m = false → isInBoard (FromRow m) (FromCol m) = true)) as [Hto Hfrom].
  { destruct Hlegal as [(-> & ? & ? & _)|(-> & ? & _)]; done. }
  apply isInBoard_spec in Hto as [Hto _].
  destruct (get5_inRange rowNames (ToRow m) Hto) as (row & -> & _).
  destruct (IsDrop m); cbn [bind].
  - by eexists _, _.
  - specialize (Hfrom eq_refl). apply isInBoard_spec in Hfrom as [Hfrom _].
    destruct (get5_inRange rowNames (FromRow m) Hfrom) as (row' & -> & _).
    cbn [bind]. by eexists _, _.
Qed.

Lemma iteration_spec (aiPlayer : Player) (o : Oracle) (picks : list nat) (g : Game) :
  ∃ r,
    iteration aiPlayer o picks g = Ret r ∧
    match r with
    | Break g' =>
        (∃ w, IsGameOver (position g) = Ret (true, w)
              ∧ printed g' = printed g ++ [PrintBoard (position g); PrintWinner w])
        ∧ position g' = position g ∧ unread g' = unread g
    | Next g' =>
        IsGameOver (position g) = Ret (false, PNone) ∧
        (position g' = position g ∨ step (position g) (position g'))
    end.
Proof.
  unfold iteration. cbv zeta. rewrite !position_print.
  pose proof (IsGameOver_flags (position g)) as Hover.
  destruct (bool_decide (kingsOf First (position g) = 0%nat)).
  { rewrite Hover. cbn. eexists. split; [done|]. cbn. split; [|done].
    exists Second. by rewrite <- app_assoc. }
  destruct (bool_decide (kingsOf Second (position g) = 0%nat)).
  { rewrite Hover. cbn. eexists. split; [done|]. cbn. split; [|done].
    exists First. by rewrite <- app_assoc. }
  rewrite Hover. cbn [bind].
  set (g1 := print _ (PrintTurn _)).
  assert (position g1 = position g) as Hp1 by done.
  assert (∀ g' m ms, position g' = position g →
            GetAllLegalMoves ms (position g) = Ret (boardMoves (position g)
                                                     ++ dropMoves ms (position g)) →
            m ∈ boardMoves (position g) ++ dropMoves ms (position g) →
            ∃ r, (b <- MakeMove (position g') m ;; Ret (Next (setPosition g' b))) = Ret r
                 ∧ match r with
                   | Break _ => False
                   | Next g'' => step (position g) (position g'')
                   end) as Hmove.
  { intros g' m ms Hpos Hms Hm. rewrite Hpos.
    destruct (MakeMove_legal (position g) m) as [b' Hb'];
      [by eapply GetAllLegalMoves_legal|].
    rewrite Hb'. cbn [bind]. eexists. split; [done|]. cbn.
    by exists ms, (boardMoves (position g) ++ dropMoves ms (position g)), m. }
  destruct (bool_decide (CurrentTurn (position g) = aiPlayer)).
  - destruct (aiTurn_spec o g1) as (g' & r & -> & Hr & Hpos & _). cbn [bind].
    rewrite Hp1 in *. destruct r as [m|].
    + destruct (GetAIMove_member _ _ _ _ Hr) as (ms & Hms & Hm).
      rewrite GetAllLegalMoves_eq in Hms. injection Hms as <-.
      destruct (Hmove g' m (o []) Hpos (GetAllLegalMoves_eq _ _) Hm) as (r & -> & Hstep).
      exists r. split; [done|]. destruct r; [|done]. auto.
    + eexists. split; [done|]. cbn. auto.
  - destruct (humanTurn_spec picks g1) as (parsed & g' & _ & -> & Hpos & _). cbn [bind].
    rewrite Hp1 in *.
    destruct parsed as [move|]; [|eexists; split; [done|]; cbn; auto].
    case_bool_decide as Hlegal; [|eexists; split; [done|]; cbn; auto].
    destruct (Hmove g' move picks Hpos (GetAllLegalMoves_eq _ _) Hlegal) as (r & -> & Hstep).
    exists r. split; [done|]. destruct r; [|done]. auto.
Qed.

Lemma loop_spec (fuel : nat) (aiPlayer : Player) (env : nat → Oracle * list nat) :
  ∀ (n : nat) (g : Game),
    reachable (position g) →
    (∃ g' w,
       loop ToLower TrimSpace fuel aiPlayer env n g = Ret g' ∧ reachable (position g') ∧
       IsGameOver (position g') = Ret (true, w) ∧
       last (printed g') = Some (PrintWinner w))
    ∨ loop ToLower TrimSpace fuel aiPlayer env n g = Fail OutOfFuel.
Proof.
  induction fuel as [|fuel IH]; intros n g Hg; [by right|].
  cbn [loop].
  destruct (iteration_spec aiPlayer (env n).1 (env n).2 g) as (r & -> & Hr).
  cbn [bind]. destruct r as [g'|g'].
  - destruct Hr as [_ [Hsame|Hstep]].
    + apply IH. by rewrite Hsame.
    + apply IH. by eapply reachable_step.
  - destruct Hr as ((w & Hw & Hprinted) & Hpos & _). left. exists g', w.
    rewrite Hpos. split_and!; try done.
    by rewrite Hprinted, last_app.
Qed.

(** What the human player's turn hands on to [MakeMove]: the move that
    the line stands for when [GetAllLegalMoves] lists that very move, and
    nothing otherwise. The move is never a promotion, whatever is
    answered to the question about promoting; the board is left as it
    is. The turn never panics. *)
Theorem human_plays_typed_move (picks : list nat) (g : Game) :
  ∃ parsed ms g' r,
    parseInput (scan g).1 (position g) = Ret parsed ∧
    GetAllLegalMoves picks (position g) = Ret ms ∧
    humanTurn picks g = Ret (g', r) ∧
    position g' = position g ∧
    (∀ m, r = Some m ↔ parsed = Some m ∧ m ∈ ms) ∧
    (∀ m, r = Some m → Promote m = false).
Proof.
  destruct (humanTurn_spec picks g) as (parsed & g' & Hparsed & Hrun & Hpos & _).
  exists parsed, (boardMoves (position g) ++ dropMoves picks (position g)), g'.
  eexists. split_and!; [done|apply GetAllLegalMoves_eq|exact Hrun|done|..].
  - intros m. destruct parsed as [move|].
    + case_bool_decide as Hl.
      * split; [by intros [= <-]|by intros [[= <-] _]].
      * split; [done|]. by intros [[= <-] ?].
    + split; [done|by intros [? _]].
  - intros m Hm. destruct parsed as [move|]; [|done].
    case_bool_decide; [|done]. injection Hm as ->.
    by apply parseInput_typable in Hparsed as (_ & ? & _).
Qed.

(** One iteration of the loop of [main] never panics. It stops exactly
    when [IsGameOver] reports the end, after printing the board and the
    winner, without reading a line and without touching the board.
    Otherwise it leaves the board as it is or applies one move of
    [GetAllLegalMoves] to it. *)
Theorem iteration_plays_legal (aiPlayer : Player) (o : Oracle) (picks : list nat)
    (g : Game) :
  ∃ r,
    iteration aiPlayer o picks g = Ret r ∧
    match r with
    | Break g' =>
        (∃ w, IsGameOver (position g) = Ret (true, w)
              ∧ printed g' = printed g ++ [PrintBoard (position g); PrintWinner w])
        ∧ position g' = position g ∧ unread g' = unread g
    | Next g' =>
        IsGameOver (position g) = Ret (false, PNone) ∧
        (position g' = position g ∨ step (position g) (position g'))
    end.
Proof. apply iteration_spec. Qed.

(** On its turn in a state of a game that is not over and has a legal
    move, the AI moves: the iteration applies a legal move. *)
Theorem ai_always_moves (aiPlayer : Player) (o : Oracle) (picks : list nat) (g : Game)
    (ms : list Move) :
  reachable (position g) →
  IsGameOver (position g) = Ret (false, PNone) →
  CurrentTurn (position g) = aiPlayer →
  GetAllLegalMoves (o []) (position g) = Ret ms → ms ≠ [] →
  ∃ g' m,
    iteration aiPlayer o picks g = Ret (Next g') ∧
    m ∈ ms ∧ MakeMove (position g) m = Ret (position g') ∧ unread g' = unread g.
Proof.
  intros Hg Hover Hturn Hms Hne. unfold iteration. cbv zeta. rewrite !position_print.
  rewrite Hover. cbn [bind]. rewrite bool_decide_eq_true_2 by done.
  set (g1 := print _ (PrintTurn _)).
  destruct (aiTurn_spec o g1) as (g' & r & -> & Hr & Hpos & Hun). cbn [bind].
  change (position g1) with (position g) in *.
  destruct (GetAIMove_moves 4 o (position g) ms) as (m & Hm & Hin); [lia|done..|].
  rewrite Hm in Hr. injection Hr as <-.
  destruct (MakeMove_legal (position g) m) as [b' Hb'];
    [by eapply GetAllLegalMoves_legal|].
  rewrite Hpos, Hb'. cbn [bind]. exists (setPosition g' b'), m. split_and!; try done.
Qed.

(** A run of [main] never panics. When it returns, the board is a state
    of the game reached from the initial position by legal moves, the
    game is over there, and the last thing printed is the winner that
    [IsGameOver] reports. *)
Theorem main_plays_a_game (fuel : nat) (env : nat → Oracle * list nat)
    (input : list string) :
  (∃ g w,
     main ToLower TrimSpace Atoi fuel env input = Ret g ∧ reachable (position g) ∧
     IsGameOver (position g) = Ret (true, w) ∧
     last (printed g) = Some (PrintWinner w))
  ∨ main ToLower TrimSpace Atoi fuel env input = Fail OutOfFuel.
Proof.
  unfold main. cbv zeta.
  destruct (scan (print (mkGame NewBoard input []) PrintMenu)) as [text g] eqn:Hscan.
  apply loop_spec.
  assert (position g = NewBoard) as ->.
  { change g with (text, g).2. rewrite <- Hscan. by rewrite position_scan. }
  apply rtc_refl.
Qed.

End LoopFacts.

Lemma ai_always_moves_witness :
  ∃ g' m,
    iteration lowerASCII trimASCII First (λ _, []) [] (mkGame NewBoard [] [])
      = Ret (Next g') ∧
    m ∈ orElse (GetAllLegalMoves [] NewBoard) [] ∧
    MakeMove NewBoard m = Ret (position g') ∧ unread g' = [].
Proof.
  apply (ai_always_moves lowerASCII trimASCII First (λ _, []) [] (mkGame NewBoard [] [])).
  - apply rtc_refl.
  - reflexivity.
  - reflexivity.
  - reflexivity.
  - vm_compute. discriminate.
Defined.

(** A run of [main] to its end: mode 1, then the two lines of the human
    player. *)
Lemma main_example :
  ∃ g, main lowerASCII trimASCII atoiASCII 5 (λ _, (λ _, [], []))
         ["1"; " 1413 "; "1514"] = Ret g
       ∧ position g = kingTaken ∧ unread g = []
       ∧ last (printed g) = Some (PrintWinner Second).
Proof. eexists. split; [vm_compute; reflexivity|]. done. Qed.

(** ** What a move changes *)

Lemma get5_Fail {A : Type} (a : arr5 A) (i : Z) (f : fault) :
  get5 a i = Fail f → f = IndexOutOfRange.
Proof. unfold get5. repeat case_match; congruence. Qed.

Lemma set5_Fail {A : Type} (a : arr5 A) (i : Z) (x : A) (f : fault) :
  set5 a i x = Fail f → f = IndexOutOfRange.
Proof. unfold set5. repeat case_match; congruence. Qed.

Lemma getCell_Fail (g : Grid) (r c : Z) (f : fault) :
  getCell g r c = Fail f → f = IndexOutOfRange.
Proof.
  unfold getCell. destruct (get5 g r) as [row|f'] eqn:Hrow; cbn [bind].
  - apply get5_Fail.
  - intros [= <-]. by eapply get5_Fail.
Qed.

(** Off the grid, reading or writing a cell panics. *)
Lemma getCell_outside (g : Grid) (r c : Z) :
  isInBoard r c = false → getCell g r c = Fail IndexOutOfRange.
Proof.
  intros Hout. destruct (getCell g r c) as [p|f] eqn:Hget.
  - apply getCell_Ret in Hget as [? _]. congruence.
  - by apply getCell_Fail in Hget as ->.
Qed.

Lemma setCell_outside (g : Grid) (r c : Z) (p : Piece) :
  isInBoard r c = false → setCell g r c p = Fail IndexOutOfRange.
Proof.
  intros Hout. destruct (setCell g r c p) as [g'|f] eqn:Hset.
  - apply setCell_Ret in Hset as [? _]. congruence.
  - unfold setCell in Hset.
    destruct (get5 g r) as [row|f'] eqn:Hrow; cbn [bind] in Hset.
    + destruct (set5 row c p) as [row'|f'] eqn:Hrow'; cbn [bind] in Hset.
      * by apply set5_Fail in Hset as ->.
      * injection Hset as <-. by apply set5_Fail in Hrow' as ->.
    + injection Hset as <-. by apply get5_Fail in Hrow as ->.
Qed.

(** The cells after a legal move. *)
Lemma MakeMove_cells (b b' : Board) (m : Move) :
  legalMove b m → MakeMove b m = Ret b' →
  ∀ r c,
    cell b' r c =
    if IsDrop m then
      if (r =? ToRow m) && (c =? ToCol m) then mkPiece (DropPiece m) (CurrentTurn b)
      else cell b r c
    else if (r =? FromRow m) && (c =? FromCol m) then noPiece
    else if (r =? ToRow m) && (c =? ToCol m)
         then movedPiece m (cell b (FromRow m) (FromCol m))
         else cell b r c.
Proof.
  intros [(Hd & Hfrom & Hto & _)|(Hd & Hto & _)] Hrun r c; rewrite Hd.
  - rewrite MakeMove_board in Hrun by done. injection Hrun as <-.
    set (b1 := mkBoard (putCell (Cells b) (ToRow m) (ToCol m)
                          (movedPiece m (cell b (FromRow m) (FromCol m))))
                 (FirstHand b) (SecondHand b) (CurrentTurn b)).
    change (putCell (putCell _ _ _ _) _ _ _)
      with (putCell (Cells b1) (FromRow m) (FromCol m) noPiece).
    rewrite cell_putCell by done.
    destruct ((r =? FromRow m) && (c =? FromCol m)); [done|].
    unfold b1. by rewrite cell_putCell.
  - rewrite MakeMove_drop in Hrun by done. injection Hrun as <-.
    by rewrite cell_putCell.
Qed.

(** The hands after a legal move. *)
Lemma MakeMove_hands (b b' : Board) (m : Move) :
  legalMove b m → MakeMove b m = Ret b' →
  (FirstHand b', SecondHand b') =
  if IsDrop m then
    if bool_decide (CurrentTurn b = Second)
    then (FirstHand b, removeFirst (DropPiece m) (SecondHand b))
    else (removeFirst (DropPiece m) (FirstHand b), SecondHand b)
  else handsAfter b (cell b (ToRow m) (ToCol m)).
Proof.
  intros [(Hd & Hfrom & Hto & _)|(Hd & Hto & _)] Hrun; rewrite Hd.
  - rewrite MakeMove_board in Hrun by done. injection Hrun as <-. cbn.
    by destruct (handsAfter _ _).
  - rewrite MakeMove_drop in Hrun by done. injection Hrun as <-. cbn.
    by case_bool_decide.
Qed.

(** [GetAllLegalMoves] never panics, and each move it lists is well
    formed: a move on the grid starts on a piece of the player to move and
    ends on the grid on a cell that this player does not hold; a drop
    puts a kind of the mover's hand on an empty cell of the grid. *)
Theorem GetAllLegalMoves_well_formed (picks : list nat) (b : Board) :
  ∃ ms, GetAllLegalMoves picks b = Ret ms ∧
        ∀ m, m ∈ ms →
          isInBoard (ToRow m) (ToCol m) = true ∧
          if IsDrop m then
            DropPiece m ∈ moverHand b ∧ Owner (cell b (ToRow m) (ToCol m)) = PNone
          else
            isInBoard (FromRow m) (FromCol m) = true ∧
            CurrentTurn b ≠ PNone ∧
            Owner (cell b (FromRow m) (FromCol m)) = CurrentTurn b ∧
            Owner (cell b (ToRow m) (ToCol m)) ≠ CurrentTurn b.
Proof.
  eexists. split; [apply GetAllLegalMoves_eq|]. intros m Hm.
  destruct (GetAllLegalMoves_legal picks b _ m (GetAllLegalMoves_eq _ _) Hm)
    as [(-> & ? & ? & ? & ? & ?)|(-> & ? & ? & ?)]; done.
Qed.

(** [MakeMove] checks nothing. It returns exactly when the destination,
    and for a move on the grid the origin, is on the grid, and panics on
    an index otherwise. A drop of a kind that the mover does not hold
    still puts the piece on the grid and leaves both hands as they
    are. *)
Theorem MakeMove_unchecked (b : Board) (m : Move) :
  let onGrid :=
    isInBoard (ToRow m) (ToCol m)
    && (IsDrop m || isInBoard (FromRow m) (FromCol m)) in
  (if onGrid then ∃ b', MakeMove b m = Ret b' ∧ CurrentTurn b' = flipTurn (CurrentTurn b)
   else MakeMove b m = Fail IndexOutOfRange) ∧
  (onGrid = true → IsDrop m = true → DropPiece m ∉ moverHand b →
   ∃ b', MakeMove b m = Ret b' ∧
         cell b' (ToRow m) (ToCol m) = mkPiece (DropPiece m) (CurrentTurn b) ∧
         FirstHand b' = FirstHand b ∧ SecondHand b' = SecondHand b).
Proof.
  cbv zeta. split.
  - destruct (isInBoard (ToRow m) (ToCol m)) eqn:Hto; cbn [andb].
    + destruct (IsDrop m) eqn:Hd; cbn [orb].
      * rewrite MakeMove_drop by done. eauto.
      * destruct (isInBoard (FromRow m) (FromCol m)) eqn:Hfrom.
        -- rewrite MakeMove_board by done. eauto.
        -- unfold MakeMove. rewrite Hd. unfold cellAt.
           by rewrite (getCell_outside _ _ _ Hfrom).
    + unfold MakeMove, cellAt. rewrite (getCell_outside _ _ _ Hto).
      destruct (IsDrop m).
      * by rewrite setCell_outside.
      * by destruct (getCell (Cells b) (FromRow m) (FromCol m)) as [p|[]] eqn:Hfrom;
          cbn [bind]; try done; apply getCell_Fail in Hfrom.
  - intros Hon Hd Hk. rewrite Hd in Hon. cbn [orb] in Hon. rewrite andb_true_r in Hon.
    rewrite MakeMove_drop by done. eexists. split; [done|].
    cbn [FirstHand SecondHand]. split_and!.
    + rewrite cell_putCell by done. by rewrite !Z.eqb_refl.
    + unfold moverHand in Hk. case_bool_decide; [done|].
      clear -Hk. induction (FirstHand b) as [|p l IH]; [done|].
      cbn. case_bool_decide as Hp; [subst; by destruct Hk; left|].
      f_equal. apply IH. intros ?. apply Hk. by right.
    + unfold moverHand in Hk. case_bool_decide; [|done].
      clear -Hk. induction (SecondHand b) as [|p l IH]; [done|].
      cbn. case_bool_decide as Hp; [subst; by destruct Hk; left|].
      f_equal. apply IH. intros ?. apply Hk. by right.
Qed.

(** A legal move, applied: [MakeMove] returns, the turn passes to the
    other player, the destination holds the moved or dropped piece for
    the mover, the origin is empty, every other cell is as before; a drop
    takes the first piece of its kind out of the mover's hand and a move
    to an empty cell leaves both hands as they are. *)
Theorem MakeMove_legal_move (picks : list nat) (b : Board) (ms : list Move) (m : Move) :
  GetAllLegalMoves picks b = Ret ms → m ∈ ms →
  ∃ b',
    MakeMove b m = Ret b' ∧
    CurrentTurn b' = flipTurn (CurrentTurn b) ∧
    Owner (cell b' (ToRow m) (ToCol m)) = CurrentTurn b ∧
    (∀ r c, (r, c) ≠ (ToRow m, ToCol m) →
            (IsDrop m = false → (r, c) ≠ (FromRow m, FromCol m)) →
            cell b' r c = cell b r c) ∧
    (IsDrop m = false →
       cell b' (FromRow m) (FromCol m) = noPiece ∧
       Type_ (cell b' (ToRow m) (ToCol m))
       = (if Promote m then promoteType (Type_ (cell b (FromRow m) (FromCol m)))
          else Type_ (cell b (FromRow m) (FromCol m))) ∧
       (Owner (cell b (ToRow m) (ToCol m)) = PNone →
        FirstHand b' = FirstHand b ∧ SecondHand b' = SecondHand b)) ∧
    (IsDrop m = true →
       Type_ (cell b' (ToRow m) (ToCol m)) = DropPiece m ∧
       moverHand (mkBoard (Cells b') (FirstHand b') (SecondHand b') (CurrentTurn b))
       = removeFirst (DropPiece m) (moverHand b) ∧
       (length (FirstHand b') + length (SecondHand b') + 1
        = length (FirstHand b) + length (SecondHand b))%nat).
Proof.
  intros Hms Hm. pose proof (GetAllLegalMoves_legal _ _ _ _ Hms Hm) as Hlegal.
  destruct (MakeMove_legal b m Hlegal) as [b' Hrun]. exists b'.
  pose proof (MakeMove_cells b b' m Hlegal Hrun) as Hcells.
  pose proof (MakeMove_hands b b' m Hlegal Hrun) as Hhands.
  split; [done|]. split; [by eapply MakeMove_turn|].
  destruct Hlegal as [(Hd & Hfrom & Hto & Hmine & Hturn & Hown)|(Hd & Hto & Hk & Hfree)];
    rewrite Hd in *.
  - assert ((ToRow m =? FromRow m) && (ToCol m =? FromCol m) = false) as Hne.
    { apply andb_false_iff.
      destruct (Z.eqb_spec (ToRow m) (FromRow m)) as [Hr|]; [|by left].
      destruct (Z.eqb_spec (ToCol m) (FromCol m)) as [Hc|]; [|by right].
      exfalso. apply Hown. by rewrite Hr, Hc. }
    split_and!.
    + rewrite Hcells, Hne, !Z.eqb_refl. cbn [andb].
      unfold movedPiece. by destruct (Promote m).
    + intros r c Hto' Hfrom'. specialize (Hfrom' eq_refl). rewrite Hcells.
      destruct (Z.eqb_spec r (FromRow m)) as [Hr1|Hr1];
        destruct (Z.eqb_spec c (FromCol m)) as [Hc1|Hc1]; cbn [andb];
        try (by destruct Hfrom'; f_equal);
        destruct (Z.eqb_spec r (ToRow m)) as [Hr2|Hr2];
        destruct (Z.eqb_spec c (ToCol m)) as [Hc2|Hc2]; cbn [andb];
        try done; by destruct Hto'; f_equal.
    + intros _. split_and!.
      * by rewrite Hcells, !Z.eqb_refl.
      * rewrite Hcells, Hne, !Z.eqb_refl. cbn [andb].
        unfold movedPiece. by destruct (Promote m).
      * intros Hfree. unfold handsAfter in Hhands.
        rewrite bool_decide_eq_false_2 in Hhands by (by intros []).
        by injection Hhands as H1 H2.
    + done.
  - split_and!.
    + by rewrite Hcells, !Z.eqb_refl.
    + intros r c Hto' _. rewrite Hcells.
      destruct (Z.eqb_spec r (ToRow m)) as [Hr2|Hr2];
        destruct (Z.eqb_spec c (ToCol m)) as [Hc2|Hc2]; cbn [andb];
        try done; by destruct Hto'; f_equal.
    + done.
    + intros _. split_and!.
      * by rewrite Hcells, !Z.eqb_refl.
      * unfold moverHand in *. cbn [CurrentTurn FirstHand SecondHand].
        revert Hhands. case_bool_decide; by intros [= H1 H2].
      * assert (∀ l, DropPiece m ∈ l →
                     (length (removeFirst (DropPiece m) l) + 1 = length l)%nat) as Hlen.
        { clear. induction l as [|p l IH]; [by intros ?%elem_of_nil|].
          intros Hin. cbn. case_bool_decide as Hp; [lia|].
          apply elem_of_cons in Hin as [Heq|Hin]; [by destruct Hp|].
          cbn. specialize (IH Hin). lia. }
        unfold moverHand in Hk. revert Hhands Hk.
        case_bool_decide; intros [= H1 H2] Hk; rewrite H1, H2;
          specialize (Hlen _ Hk); lia.
Qed.

Lemma MakeMove_legal_move_witness :
  ∃ b',
    MakeMove NewBoard (plainMove 3 0 2 0) = Ret b' ∧
    CurrentTurn b' = Second ∧ Owner (cell b' 2 0) = First ∧ cell b' 3 0 = noPiece.
Proof.
  destruct (MakeMove_legal_move [] NewBoard (orElse (GetAllLegalMoves [] NewBoard) [])
              (plainMove 3 0 2 0))
    as (b' & Hrun & Hturn & Hown & Hframe & Hmove & _).
  - reflexivity.
  - vm_compute. repeat constructor.
  - exists b'. split_and!; [done|exact Hturn|exact Hown|exact (proj1 (Hmove eq_refl))].
Defined.

(** ** The moves of each kind of piece *)

Lemma stepLoop_eq (b : Board) (row col : Z) (dirs : list (Z * Z)) (ms : list Move) :
  isInBoard row col = true →
  stepLoop b row col dirs ms = Ret (ms ++ (dirs ≫= stepChunk b row col)).
Proof.
  intros Hin. unfold stepLoop. apply forEach_app. intros s d _.
  rewrite isValidMove_spec by done. cbn [bind]. unfold stepChunk.
  destruct (_ && _); [done|by rewrite app_nil_r].
Qed.

Lemma silverLoop_eq (b : Board) (row col : Z) (dirs : list (Z * Z)) (ms : list Move) :
  isInBoard row col = true →
  silverLoop b (cell b row col) row col dirs ms
  = Ret (ms ++ (dirs ≫= silverChunk b row col)).
Proof.
  intros Hin. unfold silverLoop. apply forEach_app. intros s d _.
  rewrite isValidMove_spec by done. cbn [bind]. unfold silverChunk.
  destruct (_ && _); [|by rewrite app_nil_r].
  destruct (canPromote _ _); [by rewrite <- app_assoc|done].
Qed.

Lemma rayBody_eq (b : Board) (base : PieceType) (row col : Z) (d : Z * Z)
    (moves : list Move) (i : Z) :
  let nr := row + d.1 * i in
  let nc := col + d.2 * i in
  let found :=
    (if bool_decide (Type_ (cell b row col) = base)
        && canPromote (Owner (cell b row col)) nr
     then [promoMove row col nr nc] else []) ++ [plainMove row col nr nc] in
  rayBody b base row col d moves i
  = Ret (if negb (isInBoard nr nc) then Break moves
         else if bool_decide (Owner (cell b nr nc) = Owner (cell b row col))
              then Break moves
              else if bool_decide (Owner (cell b nr nc) ≠ PNone)
                   then Break (moves ++ found) else Next (moves ++ found)).
Proof.
  unfold rayBody. cbv zeta.
  destruct (isInBoard (row + d.1 * i) (col + d.2 * i)) eqn:Hin; cbn [negb]; [|done].
  rewrite cellAt_inBoard by done. cbn [bind].
  destruct (bool_decide (Owner (cell b (row + d.1 * i) (col + d.2 * i))
                         = Owner (cell b row col))); [done|].
  fold (plainMove row col (row + d.1 * i) (col + d.2 * i)).
  fold (promoMove row col (row + d.1 * i) (col + d.2 * i)).
  destruct (bool_decide (Owner (cell b (row + d.1 * i) (col + d.2 * i)) ≠ PNone));
    destruct (_ && _); by rewrite <- ?app_assoc.
Qed.

Lemma ray_eq (b : Board) (base : PieceType) (row col : Z) (d : Z * Z) (dists : list Z) :
  ∀ moves,
    forRange dists moves (rayBody b base row col d)
    = Ret (moves ++ rayMoves b base row col d dists).
Proof.
  induction dists as [|i rest IH]; intros moves;
    [cbn [forRange rayMoves]; by rewrite app_nil_r|].
  cbn [forRange rayMoves]. rewrite rayBody_eq. cbv zeta. cbn [bind].
  destruct (isInBoard (row + d.1 * i) (col + d.2 * i)); cbn [negb];
    [|by rewrite app_nil_r].
  destruct (bool_decide (Owner (cell b (row + d.1 * i) (col + d.2 * i))
                         = Owner (cell b row col))); [by rewrite app_nil_r|].
  destruct (bool_decide (Owner (cell b (row + d.1 * i) (col + d.2 * i)) ≠ PNone)).
  - destruct (_ && _); by rewrite <- ?app_assoc.
  - rewrite IH. destruct (_ && _); by rewrite <- ?app_assoc.
Qed.

Lemma slideLoop_eq (b : Board) (base : PieceType) (row col : Z) (dirs : list (Z * Z))
    (ms : list Move) :
  slideLoop b (cell b row col) base row col dirs ms
  = Ret (ms ++ (dirs ≫= λ d, rayMoves b base row col d [1; 2; 3; 4])).
Proof.
  unfold slideLoop. apply forEach_app. intros s d _.
  exact (ray_eq b base row col d [1; 2; 3; 4] s).
Qed.

Lemma GetPossibleMoves_eq (b : Board) (row col : Z) :
  isInBoard row col = true →
  GetPossibleMoves b row col
  = Ret (if bool_decide (Owner (cell b row col) = PNone)
            || bool_decide (Owner (cell b row col) ≠ CurrentTurn b)
         then [] else movesOf b row col).
Proof.
  intros Hin. unfold GetPossibleMoves. rewrite cellAt_inBoard by done. cbn [bind].
  destruct (_ || _); [done|]. unfold movesOf.
  destruct (Type_ (cell b row col)) eqn:Hk; try done.
  - by rewrite stepLoop_eq.
  - by rewrite stepLoop_eq.
  - by rewrite silverLoop_eq.
  - rewrite slideLoop_eq. cbn [bind app]. by rewrite bool_decide_eq_false_2.
  - rewrite slideLoop_eq. cbn [bind app]. by rewrite bool_decide_eq_false_2.
  - cbv zeta. rewrite isValidMove_spec by done. cbn [bind]. unfold pawnChunk.
    destruct (_ && _); [|done]. by destruct (canPromote _ _).
  - by rewrite stepLoop_eq.
  - rewrite slideLoop_eq. cbn [bind app]. rewrite bool_decide_eq_true_2 by done.
    by rewrite stepLoop_eq.
  - rewrite slideLoop_eq. cbn [bind app]. rewrite bool_decide_eq_true_2 by done.
    by rewrite stepLoop_eq.
  - by rewrite stepLoop_eq.
Qed.

Lemma plainMove_inj (row col nr nc nr' nc' : Z) :
  plainMove row col nr nc = plainMove row col nr' nc' ↔ nr = nr' ∧ nc = nc'.
Proof. unfold plainMove. split; [by intros [= -> ->]|by intros [-> ->]]. Qed.

Lemma elem_of_stepChunks (b : Board) (row col nr nc : Z) (dirs : list (Z * Z)) :
  plainMove row col nr nc ∈ dirs ≫= stepChunk b row col ↔
  steps row col nr nc dirs ∧ isInBoard nr nc = true
  ∧ Owner (cell b nr nc) ≠ Owner (cell b row col).
Proof.
  rewrite list_elem_of_bind. unfold steps, stepChunk. split.
  - intros (d & Hm & Hd).
    destruct (isInBoard _ _) eqn:Hin; cbn [andb] in Hm; [|by apply elem_of_nil in Hm].
    case_bool_decide as Hown; [|by apply elem_of_nil in Hm].
    apply list_elem_of_singleton, plainMove_inj in Hm as [-> ->].
    split_and!; [by exists d|done|done].
  - intros ((d & Hd & -> & ->) & Hin & Hown). exists d. split; [|done].
    rewrite Hin, bool_decide_eq_true_2 by done. by left.
Qed.

Lemma elem_of_silverChunks (b : Board) (row col nr nc : Z) (dirs : list (Z * Z)) :
  plainMove row col nr nc ∈ dirs ≫= silverChunk b row col ↔
  steps row col nr nc dirs ∧ isInBoard nr nc = true
  ∧ Owner (cell b nr nc) ≠ Owner (cell b row col).
Proof.
  rewrite list_elem_of_bind. unfold steps, silverChunk. split.
  - intros (d & Hm & Hd).
    destruct (isInBoard _ _) eqn:Hin; cbn [andb] in Hm; [|by apply elem_of_nil in Hm].
    case_bool_decide as Hown; [|by apply elem_of_nil in Hm].
    apply elem_of_app in Hm as [Hm|Hm].
    + destruct (canPromote _ _); [|by apply elem_of_nil in Hm].
      by apply list_elem_of_singleton in Hm.
    + apply list_elem_of_singleton, plainMove_inj in Hm as [-> ->].
      split_and!; [by exists d|done|done].
  - intros ((d & Hd & -> & ->) & Hin & Hown). exists d. split; [|done].
    rewrite Hin, bool_decide_eq_true_2 by done. apply elem_of_app. right. by left.
Qed.

Lemma elem_of_pawnChunk (b : Board) (row col nr nc : Z) :
  plainMove row col nr nc ∈ pawnChunk b row col ↔
  (nc = col ∧ nr = row + (if bool_decide (Owner (cell b row col) = Second) then 1 else -1))
  ∧ isInBoard nr nc = true ∧ Owner (cell b nr nc) ≠ Owner (cell b row col).
Proof.
  unfold pawnChunk. cbv zeta. split.
  - intros Hm.
    destruct (isInBoard _ _) eqn:Hin; cbn [andb] in Hm; [|by apply elem_of_nil in Hm].
    destruct (bool_decide (Owner (cell b _ col) ≠ _)) eqn:Hown;
      [|by apply elem_of_nil in Hm].
    apply bool_decide_eq_true in Hown.
    apply elem_of_app in Hm as [Hm|Hm].
    + destruct (canPromote _ _); [|by apply elem_of_nil in Hm].
      by apply list_elem_of_singleton in Hm.
    + apply list_elem_of_singleton, plainMove_inj in Hm as [-> ->]. by split_and!.
  - intros ((-> & ->) & Hin & Hown).
    rewrite Hin, (bool_decide_eq_true_2 _ Hown). apply elem_of_app. right. by left.
Qed.

Lemma elem_of_rayMoves (b : Board) (base : PieceType) (row col nr nc : Z) (d : Z * Z)
    (dists : list Z) :
  Owner (cell b row col) ≠ PNone →
  plainMove row col nr nc ∈ rayMoves b base row col d dists ↔
  ∃ pre i post,
    dists = pre ++ i :: post ∧ nr = row + d.1 * i ∧ nc = col + d.2 * i ∧
    isInBoard nr nc = true ∧ Owner (cell b nr nc) ≠ Owner (cell b row col) ∧
    ∀ j, j ∈ pre → isInBoard (row + d.1 * j) (col + d.2 * j) = true
                   ∧ Owner (cell b (row + d.1 * j) (col + d.2 * j)) = PNone.
Proof.
  intros Hmine. induction dists as [|i rest IH].
  { split; [by intros ?%elem_of_nil|]. intros (pre & i & post & Heq & _).
    by destruct pre. }
  cbn [rayMoves]. cbv zeta.
  destruct (isInBoard (row + d.1 * i) (col + d.2 * i)) eqn:Hin; cbn [negb].
  2:{ split; [by intros ?%elem_of_nil|].
      intros (pre & i' & post & Heq & -> & -> & Hin' & _ & Hpre).
      destruct pre as [|j pre]; injection Heq as Hi Hrest.
      - subst i'. congruence.
      - subst j. destruct (Hpre i) as [? _]; [by left|congruence]. }
  case_bool_decide as Hown.
  { split; [by intros ?%elem_of_nil|].
    intros (pre & i' & post & Heq & -> & -> & _ & Hown' & Hpre).
    destruct pre as [|j pre]; injection Heq as Hi Hrest.
    - by subst i'.
    - subst j. destruct (Hpre i) as [_ Hfree]; [by left|congruence]. }
  rewrite elem_of_app, elem_of_cons. split.
  - intros [Hm|[Hm|Hm]].
    + destruct (_ && _); [|by apply elem_of_nil in Hm].
      by apply list_elem_of_singleton in Hm.
    + apply plainMove_inj in Hm as [-> ->]. exists [], i, rest. split_and!; try done.
      by intros j ?%elem_of_nil.
    + case_bool_decide as Hocc; [by apply elem_of_nil in Hm|].
      apply IH in Hm as (pre & i' & post & -> & -> & -> & Hin' & Hown' & Hpre).
      exists (i :: pre), i', post. split_and!; try done.
      intros j [->|Hj]%elem_of_cons; [|by apply Hpre].
      split; [done|]. by destruct (decide (Owner (cell b (row + d.1 * i) (col + d.2 * i))
                                          = PNone)).
  - intros (pre & i' & post & Heq & -> & -> & Hin' & Hown' & Hpre).
    destruct pre as [|j pre]; injection Heq as Hi Hrest.
    + subst i'. right. by left.
    + subst j rest. right. right. destruct (Hpre i) as [_ Hfree]; [by left|].
      rewrite bool_decide_eq_false_2 by (by intros []).
      apply IH. exists pre, i', post. split_and!; try done.
      intros j Hj. apply Hpre. by right.
Qed.

Lemma elem_of_rays (b : Board) (base : PieceType) (row col nr nc : Z)
    (dirs : list (Z * Z)) :
  isInBoard row col = true →
  Owner (cell b row col) ≠ PNone →
  Forall unitDir dirs →
  plainMove row col nr nc ∈ (dirs ≫= λ d, rayMoves b base row col d [1; 2; 3; 4]) ↔
  slides b row col nr nc dirs ∧ isInBoard nr nc = true
  ∧ Owner (cell b nr nc) ≠ Owner (cell b row col).
Proof.
  intros Hfrom Hmine Hdirs. rewrite list_elem_of_bind. unfold slides.
  apply isInBoard_spec in Hfrom as [Hr Hc]. rewrite Forall_forall in Hdirs.
  split.
  - intros (d & Hm & Hd). apply elem_of_rayMoves in Hm; [|done].
    destruct Hm as (pre & i & post & Heq & -> & -> & Hin & Hown & Hpre).
    split; [|done]. exists d, i. split; [done|].
    assert (1 ≤ i ∧ ∀ j, 1 ≤ j < i → j ∈ pre) as [Hi Hall].
    { destruct pre as [|j1 [|j2 [|j3 [|j4 pre]]]]; simplify_eq/=;
        try (by destruct pre);
        (split; [lia|]); intros j Hj; rewrite ?elem_of_cons; lia. }
    split_and!; try done. intros j Hj. by apply Hpre, Hall.
  - intros ((d & i & Hd & Hi & -> & -> & Hfree) & Hin & Hown). exists d. split; [|done].
    apply elem_of_rayMoves; [done|].
    destruct (Hdirs d Hd) as (Hd1 & Hd2 & Hnz).
    pose proof Hin as Hin'. apply isInBoard_spec in Hin' as [Hnr Hnc].
    assert (i ≤ 4) as Hi4 by nia.
    assert (∀ j, 1 ≤ j < i →
              isInBoard (row + d.1 * j) (col + d.2 * j) = true
              ∧ Owner (cell b (row + d.1 * j) (col + d.2 * j)) = PNone) as Hpre.
    { intros j Hj. split; [|by apply Hfree]. apply isInBoard_spec. nia. }
    assert (i = 1 ∨ i = 2 ∨ i = 3 ∨ i = 4) as [->|[->|[->| ->]]] by lia.
    + exists [], 1, [2; 3; 4]. split_and!; try done. by intros j ?%elem_of_nil.
    + exists [1], 2, [3; 4]. split_and!; try done.
      intros j Hj. apply Hpre. revert Hj. rewrite ?elem_of_cons, elem_of_nil. lia.
    + exists [1; 2], 3, [4]. split_and!; try done.
      intros j Hj. apply Hpre. revert Hj. rewrite ?elem_of_cons, elem_of_nil. lia.
    + exists [1; 2; 3], 4, []. split_and!; try done.
      intros j Hj. apply Hpre. revert Hj. rewrite ?elem_of_cons, elem_of_nil. lia.
Qed.

Lemma unitDir_diag : Forall unitDir diagDirs.
Proof. repeat constructor; cbn; lia. Qed.

Lemma unitDir_orth : Forall unitDir orthDirs.
Proof. repeat constructor; cbn; lia. Qed.

Lemma elem_of_movesOf (b : Board) (row col nr nc : Z) :
  isInBoard row col = true →
  Owner (cell b row col) ≠ PNone →
  plainMove row col nr nc ∈ movesOf b row col ↔
  isInBoard nr nc = true ∧ Owner (cell b nr nc) ≠ Owner (cell b row col)
  ∧ reaches b row col nr nc.
Proof.
  intros Hfrom Hmine. unfold movesOf, reaches. cbv zeta.
  destruct (Type_ (cell b row col)).
  - split; [by intros ?%elem_of_nil|by intros (_ & _ & [])].
  - rewrite elem_of_stepChunks. tauto.
  - rewrite elem_of_stepChunks. tauto.
  - rewrite elem_of_silverChunks. tauto.
  - rewrite elem_of_rays by (done || apply unitDir_diag). tauto.
  - rewrite elem_of_rays by (done || apply unitDir_orth). tauto.
  - rewrite elem_of_pawnChunk. tauto.
  - rewrite elem_of_stepChunks. tauto.
  - rewrite elem_of_app, elem_of_rays, elem_of_stepChunks
      by (done || apply unitDir_diag). tauto.
  - rewrite elem_of_app, elem_of_rays, elem_of_stepChunks
      by (done || apply unitDir_orth). tauto.
  - rewrite elem_of_stepChunks. tauto.
Qed.

(** [GetPossibleMoves] panics on a position off the grid. On the grid it
    returns moves from that position only, and it lists the move to
    [(nr, nc)] exactly when the cell holds a piece of the player to move,
    [(nr, nc)] is on the grid and not held by that player, and the kind
    of the piece moves that way: one step in its directions, or for the
    Bishop and the Rook (promoted or not) any distance along a diagonal or
    a line over empty cells. The promoting move to [(nr, nc)] is listed
    exactly when the plain move is, the kind can promote, and [nr] is the
    farthest rank. *)
Theorem GetPossibleMoves_exact (b : Board) (row col : Z) :
  if isInBoard row col then
    ∃ ms,
      GetPossibleMoves b row col = Ret ms ∧
      (∀ m, m ∈ ms → ∃ nr nc,
         m = plainMove row col nr nc ∨ m = promoMove row col nr nc) ∧
      (∀ nr nc,
         plainMove row col nr nc ∈ ms ↔
         Owner (cell b row col) = CurrentTurn b ∧ CurrentTurn b ≠ PNone ∧
         isInBoard nr nc = true ∧ Owner (cell b nr nc) ≠ CurrentTurn b ∧
         reaches b row col nr nc) ∧
      (∀ nr nc,
         promoMove row col nr nc ∈ ms ↔
         plainMove row col nr nc ∈ ms ∧ promotable (Type_ (cell b row col)) = true
         ∧ canPromote (CurrentTurn b) nr = true)
  else GetPossibleMoves b row col = Fail IndexOutOfRange.
Proof.
  destruct (isInBoard row col) eqn:Hin.
  2:{ unfold GetPossibleMoves, cellAt. by rewrite getCell_outside. }
  pose proof (GetPossibleMoves_eq b row col Hin) as Heq.
  eexists. split; [exact Heq|].
  destruct (GetPossibleMoves_ok _ _ _ _ Heq) as (_ & Hok & _).
  split_and!.
  - intros m Hm. destruct (Hok m Hm) as (Hshape & _). eauto.
  - intros nr nc.
    case_bool_decide as Hnone; cbn [orb].
    { split; [by intros ?%elem_of_nil|]. intros (Hown & Hturn & _). congruence. }
    case_bool_decide as Hturn; cbn [orb].
    { split; [by intros ?%elem_of_nil|]. by intros (Hown & _). }
    rewrite elem_of_movesOf by done. rewrite Hturn. split; [|tauto].
    intros (? & ? & ?). split_and!; try done. by rewrite <- Hturn.
  - intros nr nc. split.
    + intros Hm. destruct (Hok _ Hm) as (_ & _ & _ & Hplain & _ & Hzone).
      cbn [ToRow ToCol promoMove Promote] in *. specialize (Hzone eq_refl).
      apply andb_prop in Hzone as [Hk Hz]. split_and!; try done.
      assert (Owner (cell b row col) = CurrentTurn b) as <-; [|done].
      revert Hm. case_bool_decide; cbn [orb]; [by intros ?%elem_of_nil|].
      case_bool_decide as Hturn; cbn [orb]; [by intros ?%elem_of_nil|]. done.
    + intros (Hm & Hk & Hz). destruct (Hok _ Hm) as (_ & _ & _ & _ & Hpromo & _).
      cbn [ToRow ToCol plainMove] in *. apply Hpromo. rewrite Hk. cbn [andb].
      assert (Owner (cell b row col) = CurrentTurn b) as ->; [|done].
      revert Hm. case_bool_decide; cbn [orb]; [by intros ?%elem_of_nil|].
      case_bool_decide as Hturn; cbn [orb]; [by intros ?%elem_of_nil|]. done.
Qed.

(** ** Invariants of a game *)

Lemma cell_outside (b : Board) (r c : Z) : isInBoard r c = false → cell b r c = noPiece.
Proof. intros H. unfold cell, cellAt. by rewrite getCell_outside. Qed.

Lemma elem_of_removeFirst (k x : PieceType) (l : list PieceType) :
  x ∈ removeFirst k l → x ∈ l.
Proof.
  induction l as [|p l IH]; [done|]. cbn. case_bool_decide.
  - by right.
  - intros [->|Hx]%elem_of_cons; [by left|right; by apply IH].
Qed.

Lemma demote_baseKinds (k : PieceType) : k ≠ Empty → demote k ∈ baseKinds.
Proof. unfold baseKinds. destruct k; cbn; intros ?; try done; set_solver. Qed.

Lemma wellFormed_NewBoard : wellFormed NewBoard.
Proof.
  split_and!; [done| |by intros k ?%elem_of_nil].
  intros r c. destruct (isInBoard r c) eqn:Hin.
  - apply isInBoard_spec in Hin as [Hr Hc]. case_index r; case_index c; by vm_compute.
  - by rewrite cell_outside.
Qed.

Lemma wellFormed_MakeMove (b b' : Board) (m : Move) :
  wellFormed b → legalMove b m → MakeMove b m = Ret b' → wellFormed b'.
Proof.
  intros (Hturn & Hcells & Hhands) Hlegal Hrun.
  pose proof (MakeMove_cells b b' m Hlegal Hrun) as Hcells'.
  pose proof (MakeMove_hands b b' m Hlegal Hrun) as Hhands'.
  split_and!.
  - rewrite (MakeMove_turn _ _ _ Hrun). apply flipTurn_player.
  - intros r c. rewrite Hcells'.
    destruct Hlegal as [(Hd & Hfrom & Hto & Hmine & _ & Hown)|(Hd & Hto & Hk & Hfree)];
      rewrite Hd.
    + destruct ((r =? FromRow m) && (c =? FromCol m)); [done|].
      destruct ((r =? ToRow m) && (c =? ToCol m)); [|apply Hcells].
      assert (Type_ (cell b (FromRow m) (FromCol m)) ≠ Empty) as Hk.
      { rewrite <- Hcells. congruence. }
      unfold movedPiece. destruct (Promote m); cbn [Owner Type_].
      * split; [congruence|]. by destruct (Type_ (cell b (FromRow m) (FromCol m))).
      * split; [congruence|done].
    + destruct ((r =? ToRow m) && (c =? ToCol m)); [|apply Hcells].
      cbn [Owner Type_]. split; [done|]. intros Hempty.
      assert (DropPiece m ∈ baseKinds) as Hbase.
      { apply Hhands. unfold moverHand in Hk. apply elem_of_app.
        case_bool_decide; [by right|by left]. }
      rewrite Hempty in Hbase. unfold baseKinds in Hbase.
      repeat (apply elem_of_cons in Hbase as [Hbase|Hbase]; [done|]).
      by apply elem_of_nil in Hbase.
  - intros k Hk.
    destruct Hlegal as [(Hd & Hfrom & Hto & Hmine & _ & Hown)|(Hd & Hto & Hk' & Hfree)];
      rewrite Hd in Hhands'.
    + unfold handsAfter in Hhands'.
      assert (Owner (cell b (ToRow m) (ToCol m)) ≠ PNone →
              demote (Type_ (cell b (ToRow m) (ToCol m))) ∈ baseKinds) as Hcap.
      { intros Hocc. apply demote_baseKinds. by rewrite <- Hcells. }
      revert Hhands'. case_bool_decide as Hocc; [case_bool_decide|];
        intros [= H1 H2]; rewrite H1, H2 in Hk.
      * rewrite <- app_assoc, elem_of_app in Hk. destruct Hk as [Hk|Hk].
        -- apply Hhands, elem_of_app. by left.
        -- apply elem_of_app in Hk as [Hk|Hk].
           ++ apply list_elem_of_singleton in Hk as ->. by apply Hcap.
           ++ apply Hhands, elem_of_app. by right.
      * rewrite app_assoc, elem_of_app in Hk. destruct Hk as [Hk|Hk].
        -- by apply Hhands.
        -- apply list_elem_of_singleton in Hk as ->. by apply Hcap.
      * by apply Hhands.
    + revert Hhands'. case_bool_decide; intros [= H1 H2]; rewrite H1, H2 in Hk;
        apply Hhands; apply elem_of_app in Hk as [Hk|Hk]; apply elem_of_app;
        eauto using elem_of_removeFirst.
Qed.

Lemma wellFormed_reachable (b : Board) : reachable b → wellFormed b.
Proof.
  unfold reachable. revert b. apply rtc_ind_r; [apply wellFormed_NewBoard|].
  intros b1 b2 _ Hstep IH. destruct (step_legal _ _ Hstep) as (m & Hlegal & Hrun).
  by eapply wellFormed_MakeMove.
Qed.

(** A Pawn that moves stays in its column. *)
Lemma pawn_move_column (b : Board) (picks : list nat) (ms : list Move) (m : Move) :
  GetAllLegalMoves picks b = Ret ms → m ∈ ms →
  IsDrop m = false → Promote m = false →
  Type_ (cell b (FromRow m) (FromCol m)) = Pawn →
  ToCol m = FromCol m.
Proof.
  rewrite GetAllLegalMoves_eq. intros [= <-] Hm Hd Hp Hk.
  apply elem_of_app in Hm as [Hm|Hm].
  2:{ apply elem_of_dropMoves in Hm as (k & r & c & -> & _). done. }
  apply elem_of_boardMoves in Hm as (r & c & ms & Hms & Hm).
  destruct (GetPossibleMoves_ok _ _ _ _ Hms) as (Hin & Hok & Hturn).
  destruct Hturn as [Hturn Hocc]; [by intros ->; apply elem_of_nil in Hm|].
  destruct (Hok m Hm) as (Hshape & _).
  assert (m = plainMove r c (ToRow m) (ToCol m)) as Heq.
  { destruct Hshape as [?|Heq]; [done|]. rewrite Heq in Hp. done. }
  rewrite Heq in Hk, Hm |- *. cbn [FromRow FromCol ToCol plainMove] in *.
  rewrite GetPossibleMoves_eq in Hms by done. injection Hms as <-.
  rewrite !bool_decide_eq_false_2 in Hm by (done || by intros []).
  cbn [orb] in Hm. apply elem_of_movesOf in Hm as (_ & _ & Hreach); [|done..].
  unfold reaches in Hreach. rewrite Hk in Hreach. by destruct Hreach.
Qed.

(** A Pawn is not dropped into a column where the mover has one. *)
Lemma pawn_drop_column (b : Board) (picks : list nat) (ms : list Move) (m : Move) (r : Z) :
  GetAllLegalMoves picks b = Ret ms → m ∈ ms →
  IsDrop m = true → DropPiece m = Pawn →
  cell b r (ToCol m) ≠ mkPiece Pawn (CurrentTurn b).
Proof.
  rewrite GetAllLegalMoves_eq. intros [= <-] Hm Hd Hk Hcell.
  apply elem_of_app in Hm as [Hm|Hm].
  { apply elem_of_boardMoves in Hm as (r' & c & ms & Hms & Hm).
    destruct (GetPossibleMoves_ok _ _ _ _ Hms) as (_ & Hok & _).
    destruct (Hok m Hm) as ([Heq|Heq] & _); rewrite Heq in Hd; done. }
  unfold dropMoves in Hm. apply list_elem_of_bind in Hm as (k & Hm & _).
  apply list_elem_of_bind in Hm as ([r' c] & Hm & Hrc).
  apply elem_of_dropChunk in Hm as (-> & Hfree & Hbar). cbn [fst snd] in *.
  cbn [DropPiece ToCol dropMove] in *. subst k.
  unfold pawnBarred in Hbar. rewrite bool_decide_eq_true_2 in Hbar by done.
  cbn [andb] in Hbar. apply orb_false_iff in Hbar as [Hbar _].
  apply bool_decide_eq_false in Hbar. apply Hbar.
  destruct (isInBoard r c) eqn:Hin.
  - apply isInBoard_spec in Hin as [Hr _]. apply Exists_exists. exists r.
    split; [by apply elem_of_idx5|]. by rewrite Hcell.
  - rewrite cell_outside in Hcell by done. done.
Qed.

Lemma noDoublePawn_MakeMove (b b' : Board) (picks : list nat) (ms : list Move) (m : Move) :
  noDoublePawn b →
  GetAllLegalMoves picks b = Ret ms → m ∈ ms → MakeMove b m = Ret b' →
  noDoublePawn b'.
Proof.
  intros Hinv Hms Hm Hrun p c r1 r2.
  pose proof (GetAllLegalMoves_legal _ _ _ _ Hms Hm) as Hlegal.
  rewrite !(MakeMove_cells b b' m Hlegal Hrun).
  destruct (IsDrop m) eqn:Hd.
  - assert (∀ r, mkPiece (DropPiece m) (CurrentTurn b) = mkPiece Pawn p →
                 c = ToCol m → cell b r c = mkPiece Pawn p → False) as Hnew.
    { intros r [= Hk <-] -> Hcell. by eapply pawn_drop_column. }
    destruct (Z.eqb_spec r1 (ToRow m)) as [Hr1|Hr1];
      destruct (Z.eqb_spec r2 (ToRow m)) as [Hr2|Hr2];
      destruct (Z.eqb_spec c (ToCol m)) as [Hc|Hc]; cbn [andb];
      intros H1 H2 Hp; try congruence; try (by eapply Hinv);
      exfalso; eauto.
  - destruct Hlegal as [(_ & Hfrom & Hto & Hmine & Hturn & Hown)|(Hd' & _)];
      [|congruence].
    assert (∀ r, movedPiece m (cell b (FromRow m) (FromCol m)) = mkPiece Pawn p →
                 c = ToCol m → cell b r c = mkPiece Pawn p → p ≠ PNone →
                 r = FromRow m ∧ c = FromCol m) as Hnew.
    { intros r Hmoved -> Hcell Hp.
      assert (Promote m = false ∧ cell b (FromRow m) (FromCol m) = mkPiece Pawn p)
        as [Hpr Hpiece].
      { unfold movedPiece in Hmoved. destruct (Promote m); [|done].
        injection Hmoved as Hk _.
        by destruct (Type_ (cell b (FromRow m) (FromCol m))). }
      assert (ToCol m = FromCol m) as Hcol.
      { eapply pawn_move_column; try done. by rewrite Hpiece. }
      split; [|done]. rewrite Hcol in Hcell. by eapply Hinv. }
    destruct ((r1 =? FromRow m) && (c =? FromCol m)) eqn:Hf1; [done|].
    destruct ((r2 =? FromRow m) && (c =? FromCol m)) eqn:Hf2; [done|].
    destruct (Z.eqb_spec r1 (ToRow m)) as [Hr1|Hr1];
      destruct (Z.eqb_spec r2 (ToRow m)) as [Hr2|Hr2];
      destruct (Z.eqb_spec c (ToCol m)) as [Hc|Hc]; cbn [andb];
      intros H1 H2 Hp; try congruence; try (by eapply Hinv); exfalso.
    + destruct (Hnew r2 H1 Hc H2 Hp) as [-> ->].
      by rewrite !Z.eqb_refl in Hf2.
    + destruct (Hnew r1 H2 Hc H1 Hp) as [-> ->].
      by rewrite !Z.eqb_refl in Hf1.
Qed.

Lemma noDoublePawn_NewBoard : noDoublePawn NewBoard.
Proof.
  intros p c r1 r2 H1 H2 Hp.
  destruct (isInBoard r1 c) eqn:Hin1; [|by rewrite cell_outside in H1].
  destruct (isInBoard r2 c) eqn:Hin2; [|by rewrite cell_outside in H2].
  apply isInBoard_spec in Hin1 as [Hr1 Hc]. apply isInBoard_spec in Hin2 as [Hr2 _].
  case_index c; case_index r1; vm_compute in H1; try discriminate H1;
    injection H1 as <-; case_index r2; vm_compute in H2; done.
Qed.

(** In every state of a game it is a player's turn, a cell has no owner
    exactly when its kind is [Empty], the hands hold unpromoted kinds
    only, and no player has two unpromoted Pawns in one column. *)
Theorem reachable_invariants (b : Board) :
  reachable b →
  CurrentTurn b ≠ PNone ∧
  (∀ r c, Owner (cell b r c) = PNone ↔ Type_ (cell b r c) = Empty) ∧
  (∀ k, k ∈ FirstHand b ++ SecondHand b →
        k ∈ [King; Gold; Silver; Bishop; Rook; Pawn]) ∧
  (∀ p c r1 r2,
     cell b r1 c = mkPiece Pawn p → cell b r2 c = mkPiece Pawn p → p ≠ PNone → r1 = r2).
Proof.
  intros Hb. destruct (wellFormed_reachable b Hb) as (? & ? & ?).
  split_and!; try done.
  clear -Hb. unfold reachable in Hb. revert b Hb.
  apply (rtc_ind_r (λ b, noDoublePawn b)); [apply noDoublePawn_NewBoard|].
  intros b1 b2 _ (picks & ms & m & Hms & Hm & Hrun) IH.
  by eapply noDoublePawn_MakeMove.
Qed.

Lemma reachable_invariants_witness :
  CurrentTurn afterRecapture ≠ PNone ∧
  (∀ r c, Owner (cell afterRecapture r c) = PNone
          ↔ Type_ (cell afterRecapture r c) = Empty) ∧
  (∀ k, k ∈ FirstHand afterRecapture ++ SecondHand afterRecapture →
        k ∈ [King; Gold; Silver; Bishop; Rook; Pawn]) ∧
  (∀ p c r1 r2,
     cell afterRecapture r1 c = mkPiece Pawn p →
     cell afterRecapture r2 c = mkPiece Pawn p → p ≠ PNone → r1 = r2).
Proof. apply (reachable_invariants afterRecapture). apply reachable_afterRecapture. Defined.

(** ** The end of a game *)

Lemma kingsOf_gridSum (p : Player) (b : Board) :
  Z.of_nat (kingsOf p b) = gridSum (kingOf p) (Cells b).
Proof. unfold kingsOf, gridSum. by rewrite length_filter_listSum. Qed.

(** The grid sums after a legal move. *)
Lemma gridSum_MakeMove (f : Piece → Z) (b b' : Board) (m : Move) :
  legalMove b m → MakeMove b m = Ret b' →
  gridSum f (Cells b') =
  if IsDrop m then
    gridSum f (Cells b) - f (cell b (ToRow m) (ToCol m))
    + f (mkPiece (DropPiece m) (CurrentTurn b))
  else
    gridSum f (Cells b) - f (cell b (ToRow m) (ToCol m))
    + f (movedPiece m (cell b (FromRow m) (FromCol m)))
    - f (cell b (FromRow m) (FromCol m)) + f noPiece.
Proof.
  intros [(Hd & Hfrom & Hto & Hmine & _ & Hown)|(Hd & Hto & Hk & Hfree)] Hrun; rewrite Hd.
  - rewrite MakeMove_board in Hrun by done. injection Hrun as <-. cbn [Cells].
    set (piece := cell b (FromRow m) (FromCol m)) in *.
    set (captured := cell b (ToRow m) (ToCol m)) in *.
    assert (getCell (putCell (Cells b) (ToRow m) (ToCol m) (movedPiece m piece))
              (FromRow m) (FromCol m) = Ret piece) as Hget.
    { rewrite getCell_putCell by done.
      destruct (Z.eqb_spec (FromRow m) (ToRow m)) as [Hr|Hr];
        destruct (Z.eqb_spec (FromCol m) (ToCol m)) as [Hc|Hc]; cbn [andb];
        try (fold (cellAt b (FromRow m) (FromCol m)); by rewrite cellAt_inBoard).
      exfalso. apply Hown. subst captured piece. by rewrite <- Hr, <- Hc. }
    rewrite (gridSum_putCell _ _ _ _ _ _ Hget).
    rewrite (gridSum_putCell _ _ _ _ _ captured)
      by (fold (cellAt b (ToRow m) (ToCol m)); by rewrite cellAt_inBoard).
    done.
  - rewrite MakeMove_drop in Hrun by done. injection Hrun as <-. cbn [Cells].
    by rewrite (gridSum_putCell _ _ _ _ _ (cell b (ToRow m) (ToCol m)))
      by (fold (cellAt b (ToRow m) (ToCol m)); by rewrite cellAt_inBoard).
Qed.

(** In a state of a game that is not over, each player has exactly one
    King on the grid and no hand holds a King. *)
Lemma reachable_one_king_each (b : Board) :
  reachable b → IsGameOver b = Ret (false, PNone) →
  kingsOf First b = 1%nat ∧ kingsOf Second b = 1%nat
  ∧ (King ∉ FirstHand b) ∧ (King ∉ SecondHand b).
Proof.
  intros Hb Hover. rewrite IsGameOver_flags in Hover.
  repeat case_bool_decide; try done.
  set (isKing := λ x : PieceType, if decide (demote x = King) then 1 else 0).
  assert (measure isKing b = 2) as Hm.
  { rewrite (measure_reachable isKing b); [done|..|done]; intros x; unfold isKing.
    - by rewrite demote_idemp.
    - by rewrite demote_promoteType. }
  rewrite measure_eq in Hm.
  assert (Z.of_nat (kingsOf First b) + Z.of_nat (kingsOf Second b)
          ≤ gridSum (onGrid isKing) (Cells b)) as Hgrid.
  { unfold kingsOf, gridSum. rewrite !length_filter_listSum, <- listSum_plus.
    apply listSum_le. intros [k o]. unfold onGrid, occupied, isKing. cbn [Type_ Owner].
    repeat destruct (decide _); try lia; destruct k, o;
      intuition (try discriminate; try congruence). }
  assert (0 ≤ listSum isKing (FirstHand b) ∧ 0 ≤ listSum isKing (SecondHand b)) as [H1 H2].
  { split; apply listSum_nonneg; intros x; unfold isKing; by destruct (decide _). }
  split_and!; [lia|lia|..]; intros Hin.
  - eapply (listSum_indicator_0 (λ x, demote x = King) (FirstHand b) King); try done.
    fold isKing. lia.
  - eapply (listSum_indicator_0 (λ x, demote x = King) (SecondHand b) King); try done.
    fold isKing. lia.
Qed.

(** In a game that is not over, a legal move ends it exactly when it takes
    a King, and [IsGameOver] then names the player who moved as the
    winner. Every other legal move leaves the game not over. *)
Theorem king_capture_ends_game (picks : list nat) (b b' : Board) (ms : list Move)
    (m : Move) :
  reachable b →
  IsGameOver b = Ret (false, PNone) →
  GetAllLegalMoves picks b = Ret ms → m ∈ ms →
  MakeMove b m = Ret b' →
  IsGameOver b' =
  Ret (if negb (IsDrop m) && bool_decide (Type_ (cell b (ToRow m) (ToCol m)) = King)
       then (true, CurrentTurn b) else (false, PNone)).
Proof.
  intros Hb Hover Hms Hm Hrun.
  destruct (reachable_one_king_each b Hb Hover) as (HF & HS & HhF & HhS).
  destruct (wellFormed_reachable b Hb) as (Hturn & Hcells & _).
  pose proof (GetAllLegalMoves_legal _ _ _ _ Hms Hm) as Hlegal.
  assert (∀ p, Z.of_nat (kingsOf p b') =
               Z.of_nat (kingsOf p b)
               - (if negb (IsDrop m)
                     && bool_decide (Type_ (cell b (ToRow m) (ToCol m)) = King)
                     && bool_decide (p ≠ CurrentTurn b) && bool_decide (p ≠ PNone)
                  then 1 else 0)) as Hcount.
  { intros p. rewrite !kingsOf_gridSum, (gridSum_MakeMove _ b b' m Hlegal Hrun).
    destruct Hlegal as [(Hd & Hfrom & Hto & Hmine & _ & Hown)|(Hd & Hto & Hk & Hfree)];
      rewrite Hd; cbn [negb andb].
    - assert (kingOf p noPiece = 0) as -> by done.
      assert (kingOf p (movedPiece m (cell b (FromRow m) (FromCol m)))
              = kingOf p (cell b (FromRow m) (FromCol m))) as ->.
      { unfold movedPiece, kingOf. destruct (Promote m); [|done]. cbn [Type_ Owner].
        destruct (Type_ (cell b (FromRow m) (FromCol m))); cbn [promoteType];
          repeat destruct (decide _); try done; intuition congruence. }
      assert (kingOf p (cell b (ToRow m) (ToCol m))
              = if bool_decide (Type_ (cell b (ToRow m) (ToCol m)) = King)
                   && bool_decide (p ≠ CurrentTurn b) && bool_decide (p ≠ PNone)
                then 1 else 0) as ->; [|lia].
      unfold kingOf. destruct (decide _) as [[Hk Ho]|Hn].
      + rewrite !bool_decide_eq_true_2; [done|..|done]; [|congruence].
        intros ->. apply (proj1 (Hcells _ _)) in Ho. congruence.
      + case_bool_decide as Hk; cbn [andb]; [|done].
        case_bool_decide as Hp; cbn [andb]; [|done].
        case_bool_decide as Hp'; [|done]. destruct Hn. split; [done|].
        assert (Owner (cell b (ToRow m) (ToCol m)) ≠ PNone) as Hocc.
        { intros Ho%Hcells. congruence. }
        destruct p, (CurrentTurn b), (Owner (cell b (ToRow m) (ToCol m))); done.
    - assert (kingOf p (cell b (ToRow m) (ToCol m)) = 0) as ->.
      { unfold kingOf. destruct (decide _) as [[Hk0 Ho]|]; [|done].
        apply Hcells in Hfree. congruence. }
      assert (kingOf p (mkPiece (DropPiece m) (CurrentTurn b)) = 0) as ->; [|lia].
      unfold kingOf. cbn [Type_ Owner]. destruct (decide _) as [[Hk' Ho]|]; [|done].
      rewrite Hk' in Hk. unfold moverHand in Hk. by case_bool_decide. }
  rewrite IsGameOver_flags.
  pose proof (Hcount First) as H1. pose proof (Hcount Second) as H2.
  destruct (negb (IsDrop m) && bool_decide (Type_ (cell b (ToRow m) (ToCol m)) = King));
    cbn [andb] in *.
  - destruct (CurrentTurn b) eqn:Ht; [done|..].
    + rewrite bool_decide_eq_false_2 in H1 by (by intros []). cbn [andb] in H1.
      rewrite !bool_decide_eq_true_2 in H2 by done. cbn [andb] in H2.
      rewrite bool_decide_eq_false_2 by lia. by rewrite bool_decide_eq_true_2 by lia.
    + rewrite !bool_decide_eq_true_2 in H1 by done. cbn [andb] in H1.
      by rewrite bool_decide_eq_true_2 by lia.
  - rewrite bool_decide_eq_false_2 by lia. by rewrite bool_decide_eq_false_2 by lia.
Qed.

Lemma reachable_kingAttacked : reachable kingAttacked.
Proof.
  unfold reachable.
  play (plainMove 4 4 1 4).
  play (plainMove 0 0 1 0).
  apply rtc_refl.
Qed.

Lemma king_capture_ends_game_witness : IsGameOver kingGone = Ret (true, First).
Proof.
  apply (king_capture_ends_game [] kingAttacked kingGone
           (orElse (GetAllLegalMoves [] kingAttacked) []) (plainMove 1 4 0 4)).
  - apply reachable_kingAttacked.
  - reflexivity.
  - reflexivity.
  - vm_compute. repeat constructor.
  - reflexivity.
Defined.

(** ** The evaluation as a sum *)

(** A fold that adds [g x] at each step, as long as the sum of the bounds
    [w x] does not reach the wrap-around. *)
Lemma foldl_exact {A : Type} (f : Z → A → Z) (g w : A → Z) (l : list A) :
  (∀ s x, Z.abs s + w x < 2 ^ 63 → f s x = s + g x) →
  (∀ x, Z.abs (g x) ≤ w x) →
  ∀ acc, Z.abs acc + listSum w l < 2 ^ 63 →
         foldl f acc l = acc + listSum g l.
Proof.
  intros Hf Hg. unfold listSum. induction l as [|x l IH]; intros acc Hacc; simpl in *.
  - lia.
  - assert (0 ≤ foldr (λ x acc, w x + acc) 0 l) as Hnn.
    { apply listSum_nonneg. intros y. specialize (Hg y). lia. }
    specialize (Hg x). rewrite (Hf acc x) by lia. rewrite IH by lia. lia.
Qed.

Lemma handValue_eq (k : PieceType) : handValue k = pieceValues k * 8 ÷ 10.
Proof. by destruct k. Qed.

Lemma cellValue_weight (p : Piece) : Z.abs (cellValue p) ≤ onGrid weight p.
Proof.
  unfold cellValue. pose proof (pieceValues_weight (Type_ p)).
  pose proof (onGrid_weight_nonneg p).
  case_bool_decide as H1; [|case_bool_decide as H2; [|lia]];
    rewrite onGrid_occupied by congruence; lia.
Qed.

Lemma evalCell_exact (s : Z) (p : Piece) :
  Z.abs s + onGrid weight p < 2 ^ 63 → evalCell s p = s + cellValue p.
Proof.
  intros Hs. unfold evalCell, cellValue. pose proof (pieceValues_weight (Type_ p)) as Hp.
  case_bool_decide as H1; [|case_bool_decide as H2; [|lia]].
  - rewrite onGrid_occupied in Hs by congruence. rewrite wrap64_id; lia.
  - rewrite onGrid_occupied in Hs by congruence. rewrite wrap64_id; lia.
Qed.

(** Without wrap-around [Evaluate] is the material balance. *)
Lemma scoreOf_balance (b : Board) : totalWeight b < 2 ^ 63 → scoreOf b = balance b.
Proof.
  unfold totalWeight. rewrite measure_eq. unfold scoreOf, balance, gridSum. intros Hw.
  pose proof (listSum_nonneg (onGrid weight) (allCells (Cells b)) onGrid_weight_nonneg)
    as H1.
  pose proof (listSum_nonneg weight (FirstHand b) weight_nonneg) as H2.
  pose proof (listSum_nonneg weight (SecondHand b) weight_nonneg) as H3.
  set (g := foldl evalCell 0 (allCells (Cells b))).
  assert (g = 0 + listSum cellValue (allCells (Cells b))) as Hg.
  { apply (foldl_exact _ _ (onGrid weight));
      [apply evalCell_exact|apply cellValue_weight|lia]. }
  assert (Z.abs g ≤ Z.abs 0 + listSum (onGrid weight) (allCells (Cells b))) as Hg'.
  { apply foldl_bound; [apply evalCell_bound|apply onGrid_weight_nonneg|lia]. }
  set (h := foldl (λ score p, wrap64 (score + handValue p)) g (FirstHand b)).
  assert (h = g + listSum handValue (FirstHand b)) as Hh.
  { apply (foldl_exact _ _ weight); [| |lia].
    - intros s p Hs. pose proof (handValue_weight p). rewrite wrap64_id; lia.
    - intros p. pose proof (handValue_weight p). lia. }
  assert (Z.abs h ≤ Z.abs g + listSum weight (FirstHand b)) as Hh'.
  { apply foldl_bound; [|apply weight_nonneg|lia].
    intros s p Hs. pose proof (handValue_weight p). rewrite wrap64_id; lia. }
  assert (foldl (λ score p, wrap64 (score - handValue p)) h (SecondHand b)
          = h + listSum (λ p, - handValue p) (SecondHand b)) as ->.
  { apply (foldl_exact _ _ weight); [| |lia].
    - intros s p Hs. pose proof (handValue_weight p) as Hp. cbn beta.
      clear -Hs Hp. rewrite wrap64_id; lia.
    - intros p. pose proof (handValue_weight p) as Hp. cbn beta. clear -Hp. lia. }
  rewrite Hh, Hg.
  rewrite (listSum_ext handValue (λ k, pieceValues k * 8 ÷ 10))
    by (intros; apply handValue_eq).
  assert (∀ l, listSum (λ p, - handValue p) l
               = - listSum (λ k, pieceValues k * 8 ÷ 10) l) as ->; [|lia].
  intros l. unfold listSum. induction l as [|x l IH]; simpl; [done|].
  rewrite IH, handValue_eq. lia.
Qed.

(** In every state of a game [Evaluate] returns the material balance:
    First's pieces on the grid minus Second's, plus eight tenths (rounded
    toward zero) of the value of each piece in First's hand, minus the
    same for Second's hand. No sum wraps around, and the score lies
    within 27800 of zero. *)
Theorem Evaluate_in_game (b : Board) :
  reachable b →
  Evaluate b = Ret (balance b) ∧ -27800 ≤ balance b ≤ 27800.
Proof.
  intros Hb. pose proof (totalWeight_reachable b Hb) as Hw.
  rewrite Evaluate_eq, scoreOf_balance by lia. split; [done|].
  pose proof (scoreOf_bound b ltac:(lia)) as Hbound.
  rewrite scoreOf_balance in Hbound by lia. lia.
Qed.

Lemma Evaluate_in_game_witness :
  Evaluate afterPromotion = Ret (balance afterPromotion)
  ∧ -27800 ≤ balance afterPromotion ≤ 27800.
Proof. apply (Evaluate_in_game afterPromotion). apply reachable_afterPromotion. Defined.

(** ** MakeMove through the pointer *)

Module HeapMove.
Local Abbreviation MakeMoveOnValue := MakeMove (only parsing).
Import Heap HeapFacts HeapRefine.
Local Open Scope nat_scope.

(** [MakeMove] as the program runs it, in place on the board behind a
    pointer whose two hands are usable slices that do not share an array:
    it panics exactly when [MakeMove] on the board as a value does, and
    otherwise leaves behind the pointer the board that [MakeMove] on the
    value returns. So the removal, an [append] of the part of the hand
    behind index [i] to the part before it, deletes the first piece of
    the dropped kind and keeps the order of the others, and a capture adds the piece at the end of the hand,
    whether or not the runtime moves the hand to a new array. *)
Theorem MakeMove_in_place (slack : nat → nat → nat) (h : heap) (nb : loc)
    (st : BoardStruct) (move : Move) :
  boards h !! nb = Some st →
  sliceOk h (sFirstHand st) → sliceOk h (sSecondHand st) →
  separate (sFirstHand st) (sSecondHand st) →
  ∃ b,
    view h nb = Some b ∧
    match MakeMove slack h nb move with
    | (h', Ret _) => ∃ b', MakeMoveOnValue b move = Ret b' ∧ view h' nb = Some b'
    | (h', Fail f) => MakeMoveOnValue b move = Fail f
    end.
Proof.
  intros Hst H1 H2 Hsep. eexists. split.
  - unfold view. rewrite Hst. reflexivity.
  - by apply MakeMove_refines.
Qed.

Lemma MakeMove_in_place_witness :
  ∃ b,
    view demoHeap 0 = Some b ∧
    match MakeMove (λ _ n, n) demoHeap 0 (dropMove 2 2 Bishop) with
    | (h', Ret _) =>
        ∃ b', MakeMoveOnValue b (dropMove 2 2 Bishop) = Ret b' ∧ view h' 0 = Some b'
    | (h', Fail f) => MakeMoveOnValue b (dropMove 2 2 Bishop) = Fail f
    end.
Proof.
  apply (MakeMove_in_place (λ _ n, n) demoHeap 0
           (mkBoardStruct (Cells afterRecapture) (mkSlice 1 0 1 2) (mkSlice 2 0 1 1) First)).
  - reflexivity.
  - split; [simpl; lia|]. right. eexists. split; [reflexivity|]. simpl. lia.
  - split; [simpl; lia|]. right. eexists. split; [reflexivity|]. simpl. lia.
  - right. right. simpl. lia.
Defined.

End HeapMove.

(** ** The search under any window *)

(** [Minimax] under a window [alpha < beta] inside the sentinels returns,
    and its score is exact or a bound on the right side (fail-soft): a
    score inside the window is the unpruned minimax value; a score of at
    most [alpha] is at least that value; a score of at least [beta] is at
    most that value. In a state of a game under the full window the score
    is the unpruned minimax value. *)
Theorem Minimax_window (fuel : nat) (o : Oracle) (b : Board) (depth alpha beta : Z)
    (maximizing : bool) :
  0 ≤ depth < 2 ^ 63 → (Z.to_nat depth < fuel)%nat →
  -999999 ≤ alpha → alpha < beta → beta ≤ 999999 →
  ∃ v best,
    Minimax fuel o b depth alpha beta maximizing = Ret (v, best) ∧
    let value := fullMinimax (Z.to_nat depth) b maximizing in
    (alpha < v < beta → v = value) ∧
    (v ≤ alpha → value ≤ v) ∧
    (beta ≤ v → v ≤ value) ∧
    (reachable b → alpha = -999999 → beta = 999999 → v = value).
Proof.
  intros Hd Hfuel Ha Hab Hb.
  destruct (Minimax_sound fuel o b depth alpha beta maximizing)
    as (v & best & Hrun & Hlow & Hhigh & Hexact); [done..|].
  exists v, best. split; [done|]. cbv zeta. split_and!; try done.
  intros Hreach -> ->.
  pose proof (fullMinimax_reachable_material (Z.to_nat depth) b maximizing Hreach).
  lia.
Qed.

Lemma Minimax_window_witness :
  ∃ v best,
    Minimax 3 (λ _, []) NewBoard 2 (-999999) 999999 true = Ret (v, best) ∧
    let value := fullMinimax (Z.to_nat 2) NewBoard true in
    (-999999 < v < 999999 → v = value) ∧
    (v ≤ -999999 → value ≤ v) ∧
    (999999 ≤ v → v ≤ value) ∧
    (reachable NewBoard → -999999 = -999999 → 999999 = 999999 → v = value).
Proof.
  apply (Minimax_window 3 (λ _, []) NewBoard 2 (-999999) 999999 true).
  - lia.
  - simpl. lia.
  - lia.
  - lia.
  - lia.
Defined.

(** ** Typing a move *)

Section TypedFacts.

Variables ToLower TrimSpace : string → string.

(** On the human player's turn in a game that is not over, a line that
    is, in lower case and trimmed, the text of a legal move makes the
    iteration apply that move: the board becomes what [MakeMove] returns
    for it, and exactly this line has been read. *)
Theorem typed_move_is_played (aiPlayer : Player) (o : Oracle) (picks : list nat)
    (g : Game) (line : string) (rest : list string) (m : Move) (ms : list Move) :
  IsGameOver (position g) = Ret (false, PNone) →
  CurrentTurn (position g) ≠ aiPlayer →
  unread g = line :: rest →
  TrimSpace (ToLower line) = encode m → typable m →
  GetAllLegalMoves picks (position g) = Ret ms → m ∈ ms →
  ∃ g',
    iteration ToLower TrimSpace aiPlayer o picks g = Ret (Next g') ∧
    MakeMove (position g) m = Ret (position g') ∧ unread g' = rest.
Proof.
  intros Hover Hturn Hline Henc Hty Hms Hm.
  unfold iteration. cbv zeta. rewrite !position_print, Hover. cbn [bind].
  rewrite bool_decide_eq_false_2 by done.
  unfold humanTurn. cbv zeta.
  unfold scan at 1. cbn [unread print]. rewrite Hline. cbn [position print].
  assert (parseInput ToLower TrimSpace line (position g) = Ret (Some m)) as ->.
  { by apply parseInput_spec. }
  cbn [bind]. rewrite Hms. cbn [bind]. rewrite lookup_spec.
  rewrite bool_decide_eq_true_2 by done. cbn [bind].
  destruct (MakeMove_legal (position g) m) as [b' Hb'];
    [by eapply GetAllLegalMoves_legal|].
  cbn [position]. rewrite Hb'. cbn [bind]. eexists. split_and!; reflexivity.
Qed.

End TypedFacts.

Lemma typed_move_is_played_witness :
  ∃ g',
    iteration lowerASCII trimASCII Second (λ _, []) [] (mkGame NewBoard [" 1413 "] [])
      = Ret (Next g') ∧
    MakeMove NewBoard (plainMove 3 0 2 0) = Ret (position g') ∧ unread g' = [].
Proof.
  apply (typed_move_is_played lowerASCII trimASCII Second (λ _, []) []
           (mkGame NewBoard [" 1413 "] []) " 1413 " [] (plainMove 3 0 2 0)
           (orElse (GetAllLegalMoves [] NewBoard) [])).
  - reflexivity.
  - simpl. discriminate.
  - reflexivity.
  - reflexivity.
  - vm_compute. repeat split; try reflexivity.
  - reflexivity.
  - vm_compute. repeat constructor.
Defined.

(** ** What is shown *)

Lemma occurrences_cons (k p : PieceType) (hand : list PieceType) :
  occurrences k (p :: hand) = (if decide (p = k) then 1 else 0) + occurrences k hand.
Proof.
  unfold occurrences. rewrite filter_cons. destruct (decide (p = k)); cbn [length]; lia.
Qed.

Lemma occurrences_0 (k : PieceType) (hand : list PieceType) :
  k ∉ hand → occurrences k hand = 0.
Proof.
  induction hand as [|p l IH]; [done|]. intros Hk. rewrite occurrences_cons.
  rewrite decide_False by (intros ->; apply Hk; by left).
  rewrite IH; [done|]. intros ?. apply Hk. by right.
Qed.

Lemma countHand_lookup (hand : list PieceType) (k : PieceType) :
  ∀ counts : gmap PieceType Z,
    foldl (λ counts p, <[p := default 0 (counts !! p) + 1]> counts) counts hand !! k
    = if decide (k ∈ hand)
      then Some (default 0 (counts !! k) + occurrences k hand)
      else counts !! k.
Proof.
  induction hand as [|p l IH]; intros counts.
  { cbn [foldl]. by rewrite decide_False by apply not_elem_of_nil. }
  cbn [foldl]. rewrite IH, occurrences_cons. destruct (decide (p = k)) as [->|Hne].
  - rewrite lookup_insert_eq. cbn [default]. unfold id.
    rewrite (decide_True (P := k ∈ k :: l)) by (by left).
    destruct (decide (k ∈ l)) as [Hin|Hout]; [f_equal; lia|].
    rewrite occurrences_0 by done. f_equal; lia.
  - rewrite lookup_insert_ne by done.
    destruct (decide (k ∈ l)) as [Hin|Hout].
    + rewrite decide_True by (by right). f_equal.
    + rewrite decide_False; [done|]. intros [?|?]%elem_of_cons; congruence.
Qed.

(** [displayHand] prints the word for an empty hand exactly for an empty
    hand. Otherwise it prints one entry for each kind in the hand, no
    kind twice, in the order of the map iteration, and the number of an
    entry is the number of pieces of that kind in the hand. *)
Theorem displayHand_counts (TrimSpace : string → string) (picks : list nat)
    (hand : list PieceType) :
  match displayHand TrimSpace picks hand with
  | HandEmpty => hand = []
  | HandEntries entries =>
      hand ≠ [] ∧
      ∃ kinds,
        NoDup kinds ∧ (∀ k, k ∈ kinds ↔ k ∈ hand) ∧
        entries = (λ k, (TrimSpace (Piece_String (mkPiece k First)), occurrences k hand))
                  <$> kinds
  end.
Proof.
  unfold displayHand. destruct hand as [|p0 l] eqn:Hhand; [done|]. rewrite <- Hhand.
  replace (length hand =? 0)%nat with false by (by rewrite Hhand).
  split; [by rewrite Hhand|]. cbv zeta.
  set (counts := countHand hand).
  set (entries := shuffle picks (map_to_list counts)).
  assert (∀ k v, (k, v) ∈ entries ↔ k ∈ hand ∧ v = occurrences k hand) as Hentries.
  { intros k v. unfold entries. rewrite (shuffle_perm picks), elem_of_map_to_list.
    unfold counts, countHand. rewrite countHand_lookup, lookup_empty. cbn [default].
    destruct (decide (k ∈ hand)); [|split; [done|by intros [? _]]].
    split; [intros [= <-]; split; [done|lia]|intros [_ ->]; f_equal; lia]. }
  exists (entries.*1). split_and!.
  - unfold entries. rewrite (shuffle_perm picks). apply NoDup_fst_map_to_list.
  - intros k. rewrite list_elem_of_fmap. split.
    + intros ([k' v] & -> & Hin). by apply Hentries in Hin as [? _].
    + intros Hk. exists (k, occurrences k hand). split; [done|]. by apply Hentries.
  - rewrite <- list_fmap_compose. apply list_fmap_ext. intros i [k v] Hi.
    cbn. f_equal. apply list_elem_of_lookup_2 in Hi. by apply Hentries in Hi as [_ ->].
Qed.

(** [Piece.String] tells the pieces apart: two pieces with an owner and a
    kind that print the same are the same piece. A cell without owner
    prints as the blank cell whatever its kind. *)
Theorem Piece_String_distinct (p q : Piece) :
  (Owner p ≠ PNone → Owner q ≠ PNone → Type_ p ≠ Empty → Type_ q ≠ Empty →
   Piece_String p = Piece_String q → p = q) ∧
  (Owner p = PNone → Piece_String p = " ． ") ∧
  (Owner p ≠ PNone → Type_ p ≠ Empty → Piece_String p ≠ " ． ").
Proof.
  destruct p as [k o], q as [k' o']. cbn [Owner Type_]. split_and!.
  - intros Ho Ho' Hk Hk'. destruct o, o'; try done; destruct k; try done;
      destruct k'; try done; by vm_compute.
  - by intros ->.
  - intros Ho Hk. destruct o; try done; destruct k; try done; by vm_compute.
Qed.

Lemma Piece_String_distinct_witness :
  Piece_String (mkPiece Pawn First) = Piece_String (mkPiece Pawn First) ∧
  mkPiece Pawn First = mkPiece Pawn First.
Proof.
  split; [reflexivity|].
  apply (proj1 (Piece_String_distinct (mkPiece Pawn First) (mkPiece Pawn First)));
    [discriminate..|reflexivity].
Defined.

(** [parseRow] reads the labels of the rows back: the label of row [i] in
    [Display] and in the announcements of [main] gives [i], and every
    other text gives -1. *)
Theorem parseRow_rowNames (s : string) :
  (∀ i, get5 rowNames i = Ret s → parseRow s = i) ∧
  (parseRow s ≠ -1 → get5 rowNames (parseRow s) = Ret s).
Proof.
  split.
  - intros i Hi. pose proof (get5_Ret _ _ _ Hi) as Hr.
    case_index i; vm_compute in Hi; by injection Hi as <-.
  - unfold parseRow. repeat case_bool_decide; subst; done.
Qed.

Lemma parseRow_rowNames_witness :
  get5 rowNames 2 = Ret "三" ∧ parseRow "三" = 2.
Proof.
  split; [reflexivity|]. apply (proj1 (parseRow_rowNames "三") 2). reflexivity.
Defined.
